(** * Single-cell RNA-seq compressor: Elias-Fano indices, delta-coded values

    A shallow embedding of the Go sources (BitArray, Elias-Fano codec,
    zig-zag varints, delta codec, reference selection, row decoder and the
    worker-pool driver), followed by the properties of the specification
    stated over that embedding.

    Conventions.  A [uint32]/[uint64]/[int32] is a [Z] with the wrap-around
    written out ([wrap32], [wrap64], [int32_of]).  A byte is a [Z] in
    [0, 256).  Go maps are [gmap]/[gset].  A Go function returning
    [(T, error)] returns [result T]; a run-time panic (index out of range,
    nil dereference) is an [Err] of its own kind. *)

From Stdlib Require Import ZArith Lia Bool.
From Stdlib Require Import Floats.
From stdpp Require Import base option list strings gmap sorting.

Local Open Scope Z_scope.
#[local] Set Warnings "-inexact-float".

(** ** Errors and the result monad *)

Inductive error : Type :=
  | ELengthMismatch      (* "sequence length %d doesn't match expected count %d" *)
  | EExceedsUniverse     (* "value %d at index %d exceeds universe %d" *)
  | ENotSorted           (* "sequence not sorted at index %d" *)
  | ETooShort            (* "encoded data too short" *)
  | EHighExhausted       (* "unexpected end of high bits array" *)
  | EEOF                 (* io.EOF *)
  | EUnexpectedEOF       (* io.ErrUnexpectedEOF *)
  | ETooLarge            (* bytes.ErrTooLarge *)
  | ECorruptInput        (* flate.CorruptInputError *)
  | EGeneValueMismatch   (* "mismatch between number of genes (%d) and values (%d)" *)
  | EWrapped (e : error) (* fmt.Errorf("...: %w", err) *)
  | EPanic.              (* run-time panic: index out of range, nil dereference *)

Inductive result (A : Type) : Type :=
  | Ok (a : A)
  | Err (e : error).
Arguments Ok {A} a.
Arguments Err {A} e.

#[global] Instance result_ret : MRet result := @Ok.
#[global] Instance result_bind : MBind result := fun A B f m =>
  match m with Ok a => f a | Err e => Err e end.

Definition is_Ok {A} (r : result A) : bool :=
  match r with Ok _ => true | Err _ => false end.

(** ** Machine integers *)

Definition wrap32 (z : Z) : Z := z mod 2 ^ 32.
Definition wrap64 (z : Z) : Z := z mod 2 ^ 64.
Definition is_i32 (z : Z) : Prop := - 2 ^ 31 <= z < 2 ^ 31.

(** [x << s] on [uint32] / [uint64]: bits shifted past the width are lost,
    a shift count of the width or more gives 0. *)
Definition shl32 (x s : Z) : Z := if 32 <=? s then 0 else wrap32 (Z.shiftl x s).
Definition shl64 (x s : Z) : Z := if 64 <=? s then 0 else wrap64 (Z.shiftl x s).

(** [int32(u)] of a [uint32]: reinterpretation in two's complement. *)
Definition int32_of (u : Z) : Z :=
  let w := wrap32 u in if w <? 2 ^ 31 then w else w - 2 ^ 32.

(** Little-endian bytes of a fixed-width unsigned integer
    ([binary.Write] / [binary.Read] with [binary.LittleEndian]). *)
Fixpoint le_bytes (n : nat) (z : Z) : list Z :=
  match n with
  | O => []
  | S n' => z mod 256 :: le_bytes n' (z / 256)
  end.

Fixpoint le_value (bs : list Z) : Z :=
  match bs with
  | [] => 0
  | b :: bs' => b + 256 * le_value bs'
  end.

(** [binary.Read] of one [n]-byte integer from a [bytes.Reader]: the value
    and the remaining bytes. *)
Definition read_le (n : nat) (r : list Z) : result (Z * list Z) :=
  if decide (r = []) then Err EEOF
  else if decide (length r < n)%nat then Err EUnexpectedEOF
  else Ok (le_value (take n r), drop n r).

(** ** BitArray *)

Module BitArray.

Record t : Type := mk { Data : list Z; Size : Z }.

Definition NewBitArray (size : Z) : t :=
  let numWords := wrap32 (size + 63) / 64 in
  mk (replicate (Z.to_nat numWords) 0) size.

Definition SetBit (ba : t) (pos : Z) : result t :=
  if Size ba <=? pos then Ok ba
  else
    let wordIndex := Z.to_nat (pos / 64) in
    let bitIndex := pos mod 64 in
    match Data ba !! wordIndex with
    | None => Err EPanic
    | Some w => Ok (mk (<[wordIndex := Z.lor w (shl64 1 bitIndex)]> (Data ba)) (Size ba))
    end.

Definition GetBit (ba : t) (pos : Z) : result bool :=
  if Size ba <=? pos then Ok false
  else
    let wordIndex := Z.to_nat (pos / 64) in
    let bitIndex := pos mod 64 in
    match Data ba !! wordIndex with
    | None => Err EPanic
    | Some w => Ok (negb (Z.land w (shl64 1 bitIndex) =? 0))
    end.

(** [for i := uint32(0); i < numBits; i++]: [n] iterations remain, the
    counter is [i]. *)
Fixpoint WriteBits_loop (n : nat) (i : Z) (ba : t) (pos value : Z) : result t :=
  match n with
  | O => Ok ba
  | S n' =>
      ba' ← (if negb (Z.land value (shl64 1 i) =? 0)
             then SetBit ba (wrap32 (pos + i)) else Ok ba);
      WriteBits_loop n' (i + 1) ba' pos value
  end.

Definition WriteBits (ba : t) (pos value numBits : Z) : result t :=
  WriteBits_loop (Z.to_nat numBits) 0 ba pos value.

Fixpoint ReadBits_loop (n : nat) (i : Z) (ba : t) (pos acc : Z) : result Z :=
  match n with
  | O => Ok acc
  | S n' =>
      b ← GetBit ba (wrap32 (pos + i));
      ReadBits_loop n' (i + 1) ba pos
        (if b : bool then Z.lor acc (shl64 1 i) else acc)
  end.

Definition ReadBits (ba : t) (pos numBits : Z) : result Z :=
  ReadBits_loop (Z.to_nat numBits) 0 ba pos 0.

(** [WriteTo]: the size as 4 little-endian bytes, then every word as 8. *)
Definition WriteTo (ba : t) : list Z :=
  le_bytes 4 (Size ba) ++ concat (map (le_bytes 8) (Data ba)).

(** [binary.Read] into a [[]uint64] of [n] words. *)
Fixpoint read_words (n : nat) (r : list Z) : list Z :=
  match n with
  | O => []
  | S n' => le_value (take 8 r) :: read_words n' (drop 8 r)
  end.

Definition ReadFrom (r : list Z) : result (t * list Z) :=
  '(size, r1) ← read_le 4 r;
  let numWords := Z.to_nat (wrap32 (size + 63) / 64) in
  if decide (numWords = O) then Ok (mk [] size, r1)
  else if decide (r1 = []) then Err EEOF
  else if decide (length r1 < 8 * numWords)%nat then Err EUnexpectedEOF
  else Ok (mk (read_words numWords r1) size, drop (8 * numWords) r1).

End BitArray.

(** ** Elias-Fano codec *)

Module EliasFano.
Import BitArray.

Record EliasEncoder : Type :=
  mkEncoder { universe : Z; count : Z; lowBits : Z }.

(** [for (1 << lowBits) < ratio { lowBits++ }] on [uint32].  The loop need
    not terminate (the shift is 0 once [lowBits >= 32]), so it takes fuel:
    [None] is "still running when the fuel ran out". *)
Fixpoint lowBits_loop (fuel : nat) (ratio lowBits : Z) : option Z :=
  match fuel with
  | O => None
  | S fuel' =>
      if shl32 1 lowBits <? ratio
      then lowBits_loop fuel' ratio (wrap32 (lowBits + 1))
      else Some lowBits
  end.

Definition NewEliasEncoder (fuel : nat) (universe count : Z) : option EliasEncoder :=
  if (0 <? count) && (count <? universe) then
    match lowBits_loop fuel (universe / count) 0 with
    | None => None
    | Some l => Some (mkEncoder universe count (if 0 <? l then l - 1 else l))
    end
  else Some (mkEncoder universe count 0).

(** The validation loop of [Encode]; [prev] is [sequence[i-1]] when [i > 0]. *)
Fixpoint validate (u : Z) (prev : option Z) (sequence : list Z) : result unit :=
  match sequence with
  | [] => Ok tt
  | val :: rest =>
      if u <=? val then Err EExceedsUniverse
      else match prev with
           | Some p => if val <=? p then Err ENotSorted else validate u (Some val) rest
           | None => validate u (Some val) rest
           end
  end.

(** [for i, val := range sequence]: low bits of element [i] at bit [i*l]. *)
Fixpoint encode_low (l : Z) (i : Z) (sequence : list Z) (lowArray : t) : result t :=
  match sequence with
  | [] => Ok lowArray
  | val :: rest =>
      let lowValue := Z.land val (wrap32 (shl32 1 l - 1)) in
      lowArray' ← WriteBits lowArray (wrap32 (wrap32 i * l)) lowValue l;
      encode_low l (i + 1) rest lowArray'
  end.

(** The high-bits loop: [pos += highValue; if pos < size: set; pos++]. *)
Fixpoint encode_high (l highBitsSize : Z) (pos : Z) (sequence : list Z)
    (highArray : t) : result t :=
  match sequence with
  | [] => Ok highArray
  | val :: rest =>
      let highValue := Z.shiftr val l in
      let pos := wrap32 (pos + highValue) in
      highArray' ← (if pos <? highBitsSize then SetBit highArray pos else Ok highArray);
      encode_high l highBitsSize (wrap32 (pos + 1)) rest highArray'
  end.

Definition Encode (e : EliasEncoder) (sequence : list Z) : result (list Z) :=
  if decide (sequence = []) then Ok []
  else if negb (wrap32 (Z.of_nat (length sequence)) =? count e) then Err ELengthMismatch
  else
    _ ← validate (universe e) None sequence;
    let buf := le_bytes 4 (universe e) ++ le_bytes 4 (count e) ++ le_bytes 4 (lowBits e) in
    if count e =? 0 then Ok buf
    else
      let lowBitsSize := wrap32 (count e * lowBits e) in
      lowArray ← encode_low (lowBits e) 0 sequence (NewBitArray lowBitsSize);
      let highBitsSize := wrap32 (wrap32 (count e + Z.shiftr (universe e) (lowBits e)) + 1) in
      highArray ← encode_high (lowBits e) highBitsSize 0 sequence (NewBitArray highBitsSize);
      Ok (buf ++ WriteTo lowArray ++ WriteTo highArray).

(** The arrays are nil pointers when [count = 0]. *)
Record EliasDecoder : Type :=
  mkDecoder { d_universe : Z; d_count : Z; d_lowBits : Z;
              lowArray : option t; highArray : option t }.

Definition NewEliasDecoder (data : list Z) : result EliasDecoder :=
  if decide (length data < 12)%nat then Err ETooShort
  else
    '(u, r1) ← read_le 4 data;
    '(k, r2) ← read_le 4 r1;
    '(l, r3) ← read_le 4 r2;
    if k =? 0 then Ok (mkDecoder u k l None None)
    else
      '(low, r4) ← ReadFrom r3;
      '(high, _) ← ReadFrom r4;
      Ok (mkDecoder u k l (Some low) (Some high)).

(** [for highPos < Size && !GetBit(highPos) { highPos++; currentHigh++ }];
    [n] is the number of positions left before [Size]. *)
Fixpoint skip_zeros (n : nat) (high : t) (highPos currentHigh : Z) : result (Z * Z) :=
  match n with
  | O => Ok (highPos, currentHigh)
  | S n' =>
      if highPos <? Size high then
        b ← GetBit high highPos;
        if b : bool then Ok (highPos, currentHigh)
        else skip_zeros n' high (highPos + 1) (wrap32 (currentHigh + 1))
      else Ok (highPos, currentHigh)
  end.

(** The element loop of [Decode]; [n] elements remain, the next is [i]. *)
Fixpoint decode_loop (n : nat) (l : Z) (low high : t) (i highPos currentHigh : Z)
    : result (list Z) :=
  match n with
  | O => Ok []
  | S n' =>
      '(highPos, currentHigh) ←
          skip_zeros (Z.to_nat (Size high - highPos)) high highPos currentHigh;
      if Size high <=? highPos then Err EHighExhausted
      else
        lowValue ← ReadBits low (wrap32 (i * l)) l;
        let x := Z.lor (shl32 currentHigh l) (wrap32 lowValue) in
        rest ← decode_loop n' l low high (i + 1) (wrap32 (highPos + 1)) currentHigh;
        Ok (x :: rest)
  end.

Definition Decode (d : EliasDecoder) : result (list Z) :=
  if d_count d =? 0 then Ok []
  else match lowArray d, highArray d with
       | Some low, Some high =>
           decode_loop (Z.to_nat (d_count d)) (d_lowBits d) low high 0 0 0
       | _, _ => Err EPanic
       end.

(** Encoding with a fresh encoder, then decoding with a fresh decoder. *)
Definition ef_encode (fuel : nat) (u : Z) (seq : list Z) : option (result (list Z)) :=
  e ← NewEliasEncoder fuel u (wrap32 (Z.of_nat (length seq)));
  Some (Encode e seq).

Definition ef_decode (data : list Z) : result (list Z) :=
  d ← NewEliasDecoder data; Decode d.

End EliasFano.

(** ** Zig-zag varints *)

Module Varint.

(** [uint32((value << 1) ^ (value >> 31))] for an [int32] value. *)
Definition zigzag (value : Z) : Z :=
  wrap32 (Z.lxor (int32_of (Z.shiftl value 1)) (Z.shiftr value 31)).

(** [int32((uvalue >> 1) ^ (-(uvalue & 1)))] for a [uint32] uvalue. *)
Definition unzigzag (uvalue : Z) : Z :=
  int32_of (Z.lxor (Z.shiftr uvalue 1) (wrap32 (- Z.land uvalue 1))).

Definition byte (z : Z) : Z := z mod 256.

(** [for uvalue >= 0x80 { WriteByte(byte(uvalue | 0x80)); uvalue >>= 7 }]
    then the last byte.  [fuel] bounds the number of continuation bytes;
    four are enough for any [uint32] (lemma [writeVarint_loop_fuel]). *)
Fixpoint writeVarint_loop (fuel : nat) (uvalue : Z) : list Z :=
  if 0x80 <=? uvalue then
    match fuel with
    | O => []
    | S fuel' => byte (Z.lor uvalue 0x80) :: writeVarint_loop fuel' (Z.shiftr uvalue 7)
    end
  else [byte uvalue].

(** The bytes [writeVarint] appends to the buffer. *)
Definition writeVarint (value : Z) : list Z := writeVarint_loop 4 (zigzag value).

(** The loop of [readVarint] over the unread bytes of the reader. *)
Fixpoint readVarint_loop (r : list Z) (uvalue shift : Z) : result (Z * list Z) :=
  match r with
  | [] => Err EEOF
  | b :: r' =>
      let uvalue := Z.lor uvalue (shl32 (Z.land b 0x7F) shift) in
      if b <? 0x80 then Ok (uvalue, r')
      else
        let shift := shift + 7 in
        if 32 <=? shift then Err ETooLarge
        else readVarint_loop r' uvalue shift
  end.

Definition readVarint (r : list Z) : result (Z * list Z) :=
  '(uvalue, r') ← readVarint_loop r 0 0;
  Ok (unzigzag uvalue, r').

End Varint.

(** ** DEFLATE ([compress/flate])

    The Go library is outside the repository.  What the sources use of it
    is modelled here: the bytes a [flate.Writer] emits when it is closed
    with nothing written to it, and the decompressor behind
    [flate.NewReader] (RFC 1951: stored, fixed and dynamic blocks), read to
    completion.  The decompressor follows the control flow of Go's
    [nextBlock], [dataBlock], [readHuffman], [huffmanBlock] and [huffSym]
    on a bit-serial reader; Go's chunked table lookup reads whole bytes
    ahead, which can change which error a truncated stream ends in, never
    whether it fails nor what a successful run returns. *)

Module Flate.

(** [Close] of a writer that was given no data: one final stored block of
    length 0 ([BFINAL=1, BTYPE=00], padding, [LEN=0], [NLEN=0xFFFF]). *)
Definition empty_stream : list Z := [1; 0; 0; 255; 255].

(** The reader: the unread bits of the current byte, least significant
    first ([f.b], [f.nb]), and the unread bytes ([f.r]). *)
Record reader : Type := mkReader { cur : list bool; rest : list Z }.

Definition bits_of_byte (x : Z) : list bool :=
  map (Z.testbit x) [0; 1; 2; 3; 4; 5; 6; 7].

Definition read_bit (r : reader) : result (bool * reader) :=
  match cur r with
  | b :: c => Ok (b, mkReader c (rest r))
  | [] =>
      match rest r with
      | [] => Err EUnexpectedEOF
      | x :: xs => Ok (Z.testbit x 0, mkReader (tail (bits_of_byte x)) xs)
      end
  end.

(** [n] bits as a number, first bit least significant. *)
Fixpoint read_bits (n : nat) (r : reader) : result (Z * reader) :=
  match n with
  | O => Ok (0, r)
  | S n' =>
      '(b, r1) ← read_bit r;
      '(v, r2) ← read_bits n' r1;
      Ok (Z.b2z b + 2 * v, r2)
  end.

(** A Huffman decoder: for each code length [1..max], the symbols of that
    length in increasing order (the canonical code). *)
Definition huffmanDecoder : Type := list (list Z).

Definition symbols_of_length (lengths : list Z) (len : Z) : list Z :=
  map (fun s => Z.of_nat s)
      (filter (fun s => lengths !! s = Some len) (seq 0 (length lengths))).

(** [huffmanDecoder.init]: [None] when Go's [init] returns false (the code
    is over-subscribed, or incomplete and not the single one-bit code). *)
Definition huffman_init (lengths : list Z) : option huffmanDecoder :=
  let max := foldr Z.max 0 lengths in
  if max =? 0 then Some []
  else
    let h := map (fun len => symbols_of_length lengths (Z.of_nat len))
                 (seq 1 (Z.to_nat max)) in
    let code := foldl (fun code syms => 2 * code + Z.of_nat (length syms)) 0 h in
    if negb (code =? 2 ^ max) && negb ((code =? 1) && (max =? 1)) then None
    else Some h.

(** [huffSym]: read bits, most significant code bit first, until they form
    a code word; [first] is the first code word of the current length. *)
Fixpoint huffSym_loop (h : huffmanDecoder) (code first : Z) (r : reader)
    : result (Z * reader) :=
  match h with
  | [] => Err ECorruptInput
  | syms :: h' =>
      '(b, r1) ← read_bit r;
      let code := code + Z.b2z b in
      let count := Z.of_nat (length syms) in
      if code - first <? count then
        match syms !! Z.to_nat (code - first) with
        | Some v => Ok (v, r1)
        | None => Err ECorruptInput
        end
      else huffSym_loop h' (2 * code) (2 * (first + count)) r1
  end.

Definition huffSym (h : huffmanDecoder) (r : reader) : result (Z * reader) :=
  huffSym_loop h 0 0 r.

Definition fixedHuffmanDecoder : huffmanDecoder :=
  default [] (huffman_init
    (replicate 144 8 ++ replicate 112 9 ++ replicate 24 7 ++ replicate 8 8)).

Definition codeOrder : list nat :=
  [16; 17; 18; 0; 8; 7; 9; 6; 10; 5; 11; 4; 12; 3; 13; 2; 14; 1; 15]%nat.

(** The [(HCLEN+4)*3] bits: code lengths in [codeOrder] order. *)
Fixpoint read_codebits (order : list nat) (codebits : list Z) (r : reader)
    : result (list Z * reader) :=
  match order with
  | [] => Ok (codebits, r)
  | o :: order' =>
      '(v, r1) ← read_bits 3 r;
      read_codebits order' (<[o := v]> codebits) r1
  end.

(** The literal/length and distance code lengths, [n] in all, of which
    [bits] (in order) are read; [fuel] bounds the iterations. *)
Fixpoint read_lengths (fuel : nat) (h : huffmanDecoder) (n : nat) (bits : list Z)
    (r : reader) : result (list Z * reader) :=
  if decide (n <= length bits)%nat then Ok (bits, r)
  else match fuel with
  | O => Err EPanic
  | S fuel' =>
      '(x, r1) ← huffSym h r;
      if x <? 16 then read_lengths fuel' h n (bits ++ [x]) r1
      else
        '(rep, nb, b) ←
          (if x =? 16 then
             match last bits with
             | None => Err ECorruptInput
             | Some b => Ok (3, 2%nat, b)
             end
           else if x =? 17 then Ok (3, 3%nat, 0)
           else Ok (11, 7%nat, 0));
        '(extra, r2) ← read_bits nb r1;
        let rep := Z.to_nat (rep + extra) in
        if decide (n < length bits + rep)%nat then Err ECorruptInput
        else read_lengths fuel' h n (bits ++ replicate rep b) r2
  end.

(** [readHuffman]: the two decoders of a dynamic block. *)
Definition readHuffman (r : reader)
    : result (huffmanDecoder * huffmanDecoder * reader) :=
  '(hlit, r1) ← read_bits 5 r;
  '(hdist, r2) ← read_bits 5 r1;
  '(hclen, r3) ← read_bits 4 r2;
  let nlit := Z.to_nat (hlit + 257) in
  let ndist := Z.to_nat (hdist + 1) in
  let nclen := Z.to_nat (hclen + 4) in
  if decide (286 < nlit)%nat then Err ECorruptInput
  else if decide (30 < ndist)%nat then Err ECorruptInput
  else
    '(codebits, r4) ← read_codebits (take nclen codeOrder) (replicate 19 0) r3;
    match huffman_init codebits with
    | None => Err ECorruptInput
    | Some h =>
        '(bits, r5) ← read_lengths (nlit + ndist) h (nlit + ndist) [] r4;
        match huffman_init (take nlit bits), huffman_init (drop nlit bits) with
        | Some h1, Some h2 => Ok (h1, h2, r5)
        | _, _ => Err ECorruptInput
        end
    end.

(** The length of a match from its literal/length symbol [v > 256]: the
    base length and the number of extra bits. *)
Definition length_code (v : Z) : result (Z * nat) :=
  if v <? 265 then Ok (v - (257 - 3), 0%nat)
  else if v <? 269 then Ok (v * 2 - (265 * 2 - 11), 1%nat)
  else if v <? 273 then Ok (v * 4 - (269 * 4 - 19), 2%nat)
  else if v <? 277 then Ok (v * 8 - (273 * 8 - 35), 3%nat)
  else if v <? 281 then Ok (v * 16 - (277 * 16 - 67), 4%nat)
  else if v <? 285 then Ok (v * 32 - (281 * 32 - 131), 5%nat)
  else if v <? 286 then Ok (258, 0%nat)
  else Err ECorruptInput.

(** The five bits of a fixed distance code, first bit most significant. *)
Fixpoint read_bits_rev (n : nat) (acc : Z) (r : reader) : result (Z * reader) :=
  match n with
  | O => Ok (acc, r)
  | S n' => '(b, r1) ← read_bit r; read_bits_rev n' (2 * acc + Z.b2z b) r1
  end.

Definition read_dist (hd : option huffmanDecoder) (r : reader) : result (Z * reader) :=
  '(dist, r1) ← match hd with
                | None => read_bits_rev 5 0 r
                | Some h => huffSym h r
                end;
  if dist <? 4 then Ok (dist + 1, r1)
  else if dist <? 30 then
    let nb := Z.to_nat ((dist - 2) / 2) in
    '(low, r2) ← read_bits nb r1;
    let extra := Z.lor (Z.shiftl (Z.land dist 1) (Z.of_nat nb)) low in
    Ok (2 ^ (Z.of_nat nb + 1) + 1 + extra, r2)
  else Err ECorruptInput.

(** Copy [n] bytes from [dist] back, one at a time (the ranges may overlap). *)
Fixpoint copyHistory (n : nat) (dist : nat) (out : list Z) : list Z :=
  match n with
  | O => out
  | S n' => copyHistory n' dist (out ++ [default 0 (out !! (length out - dist)%nat)])
  end.

(** [huffmanBlock]: symbols up to the end-of-block marker.  Every iteration
    reads at least one bit; [fuel] bounds the iterations. *)
Fixpoint huffmanBlock (fuel : nat) (hl : huffmanDecoder) (hd : option huffmanDecoder)
    (r : reader) (out : list Z) : result (list Z * reader) :=
  match fuel with
  | O => Err EPanic
  | S fuel' =>
      '(v, r1) ← huffSym hl r;
      if v <? 256 then huffmanBlock fuel' hl hd r1 (out ++ [v])
      else if v =? 256 then Ok (out, r1)
      else
        '(len, n) ← length_code v;
        '(extra, r2) ← read_bits n r1;
        '(dist, r3) ← read_dist hd r2;
        if Z.of_nat (length out) <? dist then Err ECorruptInput
        else huffmanBlock fuel' hl hd r3
               (copyHistory (Z.to_nat (len + extra)) (Z.to_nat dist) out)
  end.

(** [dataBlock]: a stored block.  The rest of the current byte is dropped. *)
Definition dataBlock (r : reader) (out : list Z) : result (list Z * reader) :=
  let bs := rest r in
  if decide (length bs < 4)%nat then Err EUnexpectedEOF
  else
    let n := le_value (take 2 bs) in
    let nn := le_value (take 2 (drop 2 bs)) in
    if negb (nn =? Z.lxor n 0xFFFF) then Err ECorruptInput
    else
      let bs := drop 4 bs in
      if decide (length bs < Z.to_nat n)%nat then Err EUnexpectedEOF
      else Ok (out ++ take (Z.to_nat n) bs, mkReader [] (drop (Z.to_nat n) bs)).

(** [nextBlock] until the final block; every block reads at least its three
    header bits, [fuel] bounds the number of blocks. *)
Fixpoint blocks (fuel : nat) (symfuel : nat) (r : reader) (out : list Z)
    : result (list Z) :=
  match fuel with
  | O => Err EPanic
  | S fuel' =>
      '(final, r1) ← read_bit r;
      '(typ, r2) ← read_bits 2 r1;
      '(out', r3) ←
        (if typ =? 0 then dataBlock r2 out
         else if typ =? 1 then huffmanBlock symfuel fixedHuffmanDecoder None r2 out
         else if typ =? 2 then
           '(h1, h2, r3) ← readHuffman r2;
           huffmanBlock symfuel h1 (Some h2) r3 out
         else Err ECorruptInput);
      if final : bool then Ok out' else blocks fuel' symfuel r3 out'
  end.

(** [io.ReadAll(flate.NewReader(bytes.NewReader(data)))]. *)
Definition inflate (data : list Z) : result (list Z) :=
  let n := S (8 * length data) in
  blocks n n (mkReader [] data) [].

End Flate.

(** ** Data model *)

Record SparseRow : Type :=
  mkRow { Indices : list Z; Values : list Z }.

Record CompressedRow : Type :=
  mkCRow { EliasGenes : list Z; DeltaValues : list Z; RefCell : Z;
           NumGenes : Z; MaxGeneIndex : Z }.

Record Header : Type :=
  mkHeader { Version : Z; NumCells : Z; H_NumGenes : Z; IsLossy : bool;
             Threshold : float; QuantLevels : Z; Timestamp : Z }.

Record CompressedData : Type :=
  mkData { header : Header; GeneNames : list string; CellNames : list string;
           CompressedRows : list CompressedRow }.

(** ** Delta codec and reference selection *)

Module Delta.
Import Varint.

Record DeltaEncoder : Type :=
  mkDelta { threshold : float; quantLevels : Z; lossy : bool }.

Definition NewDeltaEncoder (lossy : bool) (threshold : float) (quantLevels : Z)
    : DeltaEncoder := mkDelta threshold quantLevels lossy.

(** [float64(n)] for a Go [int] (exact below 2^53). *)
Definition float64_of_int (n : Z) : float :=
  if n <? 0 then PrimFloat.opp (PrimFloat.of_uint63 (Uint63.of_Z (- n)))
  else PrimFloat.of_uint63 (Uint63.of_Z n).

Definition JaccardSimilarity (genesA genesB : list Z) : float :=
  if decide (genesA = [] ∧ genesB = []) then 1.0%float
  else if decide (genesA = [] ∨ genesB = []) then 0.0%float
  else
    let setA : gset Z := list_to_set genesA in
    let intersection := Z.of_nat (length (filter (fun gene => gene ∈ setA) genesB)) in
    let setB : gset Z := list_to_set genesB in
    let union := Z.of_nat (size setA) + Z.of_nat (size setB) - intersection in
    if union =? 0 then 1.0%float
    else (float64_of_int intersection / float64_of_int union)%float.

(** The loop of [FindBestReference]; [i] is the index of the next candidate. *)
Fixpoint FindBestReference_loop (targetCell : SparseRow) (candidates : list SparseRow)
    (candidateIndices : list Z) (i : nat) (bestSimilarity : float) (bestIndex : Z)
    : result Z :=
  match candidates with
  | [] => Ok bestIndex
  | candidate :: candidates' =>
      let similarity := JaccardSimilarity (Indices targetCell) (Indices candidate) in
      if (bestSimilarity <? similarity)%float && (0.1 <? similarity)%float then
        match candidateIndices !! i with
        | None => Err EPanic
        | Some ix =>
            FindBestReference_loop targetCell candidates' candidateIndices (S i) similarity ix
        end
      else
        FindBestReference_loop targetCell candidates' candidateIndices (S i)
          bestSimilarity bestIndex
  end.

Definition FindBestReference (targetCell : SparseRow) (candidates : list SparseRow)
    (candidateIndices : list Z) : result Z :=
  FindBestReference_loop targetCell candidates candidateIndices 0 (-1.0)%float (-1).

(** [for i, gene := range row.Indices { m[gene] = row.Values[i] }]. *)
Fixpoint build_map (indices values : list Z) (m : gmap Z Z) : result (gmap Z Z) :=
  match indices with
  | [] => Ok m
  | gene :: indices' =>
      match values with
      | [] => Err EPanic
      | v :: values' => build_map indices' values' (<[gene := v]> m)
      end
  end.

Definition ComputeDelta (de : DeltaEncoder) (target reference : SparseRow)
    : result (list Z) :=
  refMap ← build_map (Indices reference) (Values reference) ∅;
  targetMap ← build_map (Indices target) (Values target) ∅;
  let allGenes : gset Z := list_to_set (Indices target) ∪ list_to_set (Indices reference) in
  let genes := merge_sort Z.le (elements allGenes) in
  Ok (map (fun gene =>
             let targetVal := default 0 (targetMap !! gene) in
             let refVal := default 0 (refMap !! gene) in
             let delta := int32_of (int32_of targetVal - int32_of refVal) in
             if lossy de && (PrimFloat.abs (float64_of_int delta) <? threshold de)%float
             then 0 else delta)
          genes).

(** [CompressDeltas]: the writer wraps [buf], the varints are written to
    [buf] itself, and [writer.Close()] then appends the stream of a writer
    that was given nothing.  The returned error is always nil. *)
Definition CompressDeltas (deltas : list Z) : list Z :=
  if decide (deltas = []) then []
  else concat (map writeVarint deltas) ++ Flate.empty_stream.

(** [for decompressedReader.Len() > 0 { readVarint ...; if err != nil { break } }];
    every call consumes a byte, [fuel] is the number of unread bytes. *)
Fixpoint read_deltas (fuel : nat) (r : list Z) : list Z :=
  match fuel with
  | O => []
  | S fuel' =>
      if decide (r = []) then []
      else match readVarint r with
           | Err _ => []
           | Ok (delta, r') => delta :: read_deltas fuel' r'
           end
  end.

Definition DecompressDeltas (compressed : list Z) : result (list Z) :=
  if decide (compressed = []) then Ok []
  else
    decompressed ← Flate.inflate compressed;
    Ok (read_deltas (length decompressed) decompressed).

(** The loop of [ReconstructFromDelta]: it stops at the shorter of
    [geneIndices] and [deltas]. *)
Fixpoint reconstruct_loop (refMap : gmap Z Z) (geneIndices deltas : list Z)
    : list (Z * Z) :=
  match geneIndices, deltas with
  | gene :: geneIndices', d :: deltas' =>
      let refVal := default 0 (refMap !! gene) in
      let newVal := int32_of (int32_of refVal + d) in
      if 0 <? newVal
      then (gene, newVal) :: reconstruct_loop refMap geneIndices' deltas'
      else reconstruct_loop refMap geneIndices' deltas'
  | _, _ => []
  end.

Definition ReconstructFromDelta (reference : SparseRow) (deltas geneIndices : list Z)
    : result SparseRow :=
  refMap ← build_map (Indices reference) (Values reference) ∅;
  let kept := reconstruct_loop refMap geneIndices deltas in
  Ok (mkRow (map fst kept) (map snd kept)).

End Delta.

(** ** Row decoder *)

Module Decompressor.
Import EliasFano Delta.

(** [fmt.Errorf("...: %w", err)]; a panic is not an error value and passes
    through unchanged. *)
Definition wrap_err {A} (r : result A) : result A :=
  match r with
  | Err EPanic => Err EPanic
  | Err e => Err (EWrapped e)
  | Ok a => Ok a
  end.

(** The last step of [decompressCell]: both slices cut to the shorter. *)
Definition truncate (r : SparseRow) : SparseRow :=
  if decide (length (Indices r) = length (Values r)) then r
  else
    let minLen := Nat.min (length (Indices r)) (length (Values r)) in
    mkRow (take minLen (Indices r)) (take minLen (Values r)).

(** [decompressCell] up to, and without, the final length adjustment:
    [result] as it stands at that point, or the error returned before. *)
Definition decode_cell (compressedRow : CompressedRow) (matrix : list SparseRow)
    (deltaEncoder : DeltaEncoder) : result SparseRow :=
  geneIndices ←
    (if decide (EliasGenes compressedRow = []) then Ok []
     else
       decoder ← wrap_err (NewEliasDecoder (EliasGenes compressedRow));
       wrap_err (Decode decoder));
  if decide (DeltaValues compressedRow = []) then Ok (mkRow geneIndices [])
  else
    deltas ← wrap_err (DecompressDeltas (DeltaValues compressedRow));
    if (0 <=? RefCell compressedRow)
       && (RefCell compressedRow <? Z.of_nat (length matrix)) then
      match matrix !! Z.to_nat (RefCell compressedRow) with
      | None => Err EPanic
      | Some refCell => ReconstructFromDelta refCell deltas geneIndices
      end
    else if decide (length deltas = length geneIndices) then
      Ok (mkRow geneIndices (map (fun delta => if delta <? 0 then 0 else delta) deltas))
    else Err EGeneValueMismatch.

Definition decompressCell (compressedRow : CompressedRow) (matrix : list SparseRow)
    (deltaEncoder : DeltaEncoder) (numGenes : Z) : result SparseRow :=
  r ← decode_cell compressedRow matrix deltaEncoder;
  Ok (truncate r).

End Decompressor.

(** ** Parallel driver ([Decompressor.Decompress])

    The goroutines are modelled by interleaving: a schedule names, step by
    step, the worker that moves next.  A worker receives the next cell index
    from the [jobs] channel, then runs [decompressCell] on the shared
    [matrix] as it is at that moment, then publishes its result under the
    mutex.  [math_dequant] stands for the floating-point core of
    [DequantizeValue] ([uint32(math.Pow(2, logVal)) - 1]), which is used in
    lossy mode only. *)

Module Driver.
Import Delta Decompressor.

Definition DequantizeValue (math_dequant : Z -> Z -> Z) (de : DeltaEncoder)
    (quantized : Z) : Z :=
  if negb (lossy de) || (quantized =? 0) then quantized
  else math_dequant (quantLevels de) quantized.

Definition applyDequantization (math_dequant : Z -> Z -> Z) (matrix : list SparseRow)
    (de : DeltaEncoder) : list SparseRow :=
  if negb (lossy de) then matrix
  else map (fun row => mkRow (Indices row)
                          (map (DequantizeValue math_dequant de) (Values row)))
           matrix.

Inductive worker : Type :=
  | Idle                                            (* waiting on [range jobs] *)
  | Received (cellIdx : nat)                        (* holds a job, has not read [matrix] yet *)
  | Decoded (cellIdx : nat) (res : result SparseRow) (* [decompressCell] returned *)
  | Panicked.                                       (* a run-time panic ended the program *)

Record state : Type :=
  mkState { matrix : list SparseRow; decompressErr : option error;
            jobs : list nat; workers : list worker }.

Definition init (numWorkers : nat) (compressed : CompressedData) : state :=
  let n := Z.to_nat (NumCells (header compressed)) in
  mkState (replicate n (mkRow [] [])) None (seq 0 n) (replicate numWorkers Idle).

Definition set_worker (w : nat) (x : worker) (s : state) : state :=
  mkState (matrix s) (decompressErr s) (jobs s) (<[w := x]> (workers s)).

(** One move of worker [w]; a worker that cannot move leaves the state as it is. *)
Definition step (compressed : CompressedData) (de : DeltaEncoder) (s : state) (w : nat)
    : state :=
  match workers s !! w with
  | Some Idle =>
      match jobs s with
      | cellIdx :: jobs' =>
          mkState (matrix s) (decompressErr s) jobs' (<[w := Received cellIdx]> (workers s))
      | [] => s
      end
  | Some (Received cellIdx) =>
      match CompressedRows compressed !! cellIdx with
      | None => set_worker w Panicked s
      | Some compressedRow =>
          match decompressCell compressedRow (matrix s) de (H_NumGenes (header compressed)) with
          | Err EPanic => set_worker w Panicked s
          | res => set_worker w (Decoded cellIdx res) s
          end
      end
  | Some (Decoded cellIdx (Err e)) =>
      mkState (matrix s)
              (match decompressErr s with None => Some (EWrapped e) | Some e0 => Some e0 end)
              (jobs s) (<[w := Idle]> (workers s))
  | Some (Decoded cellIdx (Ok row)) =>
      mkState (<[cellIdx := row]> (matrix s)) (decompressErr s) (jobs s)
              (<[w := Idle]> (workers s))
  | Some Panicked | None => s
  end.

Definition run (compressed : CompressedData) (de : DeltaEncoder) (schedule : list nat)
    (s : state) : state :=
  foldl (step compressed de) s schedule.

(** [wg.Wait()] returns: the channel is drained and every worker is back
    at [range jobs]. *)
Definition finished (s : state) : bool :=
  bool_decide (jobs s = []) && forallb (fun x => match x with Idle => true | _ => false end) (workers s).

Definition panicked (s : state) : bool :=
  existsb (fun x => match x with Panicked => true | _ => false end) (workers s).

Inductive outcome : Type :=
  | Returned (r : result (list SparseRow * list string * list string))
  | Panic
  | Running.   (* the schedule ended before the workers did *)

Definition Decompress (math_dequant : Z -> Z -> Z) (numWorkers : nat) (schedule : list nat)
    (compressed : CompressedData) : outcome :=
  let de := NewDeltaEncoder (IsLossy (header compressed)) (Threshold (header compressed))
                            (QuantLevels (header compressed)) in
  let s := run compressed de schedule (init numWorkers compressed) in
  if panicked s then Panic
  else if negb (finished s) then Running
  else match decompressErr s with
       | Some e => Returned (Err e)
       | None =>
           let matrix := if IsLossy (header compressed)
                         then applyDequantization math_dequant (matrix s) de
                         else matrix s in
           Returned (Ok (matrix, GeneNames compressed, CellNames compressed))
       end.

(** The schedule of a single worker: receive, decode, publish, [n] times. *)
Definition sequential (n : nat) : list nat := replicate (3 * n) 0%nat.

End Driver.

(** ** Row encoder and compressor *)

Module Compressor.
Import EliasFano Delta.

(** [QuantizeValue]; [math_quant] stands for its floating-point core, used
    in lossy mode only. *)
Definition QuantizeValue (math_quant : Z -> Z -> Z) (de : DeltaEncoder) (value : Z) : Z :=
  if negb (lossy de) || (value =? 0) then value
  else math_quant (quantLevels de) value.

(** Modelled from the spec: the row encoder ([compressor.go] ends after
    [NewCompressor]; the body of the compressor is not among the sources).
    Section 4.G, Encode: Elias-Fano-encode the indices with universe
    [num_genes] and count [len(indices)]; select a reference among the rows
    encoded so far; the deltas are [compute_delta] against the reference,
    or else the (quantized) values themselves; compress them; emit the
    record.  The Elias-Fano coder, the selector, [ComputeDelta] and
    [CompressDeltas] are the ones of the sources.  [None]: the encoder
    constructor is still running when [fuel] is used up. *)
Definition compressCell (math_quant : Z -> Z -> Z) (fuel : nat) (de : DeltaEncoder)
    (num_genes : Z) (row : SparseRow) (encoded_so_far : list SparseRow)
    : option (result CompressedRow) :=
  let k := wrap32 (Z.of_nat (length (Indices row))) in
  e ← NewEliasEncoder fuel num_genes k;
  Some (
    ef_bytes ← Encode e (Indices row);
    ref ← FindBestReference row encoded_so_far
            (map Z.of_nat (seq 0 (length encoded_so_far)));
    deltas ←
      (if 0 <=? ref then
         match encoded_so_far !! Z.to_nat ref with
         | Some reference => ComputeDelta de row reference
         | None => Err EPanic
         end
       else Ok (map (fun v => int32_of (QuantizeValue math_quant de v)) (Values row)));
    Ok (mkCRow ef_bytes (CompressDeltas deltas) ref k num_genes)).

(** Modelled from the spec: the rows are encoded in index order, each
    against the rows before it (section 4.H, Compression). *)
Fixpoint compress_rows (math_quant : Z -> Z -> Z) (fuel : nat) (de : DeltaEncoder)
    (num_genes : Z) (encoded_so_far rows : list SparseRow)
    : option (result (list CompressedRow)) :=
  match rows with
  | [] => Some (Ok [])
  | row :: rows' =>
      r ← compressCell math_quant fuel de num_genes row encoded_so_far;
      rs ← compress_rows math_quant fuel de num_genes (encoded_so_far ++ [row]) rows';
      Some (c ← r; cs ← rs; Ok (c :: cs))
  end.

(** Modelled from the spec: [Compressor.Compress] (section 3, CompressedData:
    header, the two name lists, one compressed row per cell). *)
Definition Compress (math_quant : Z -> Z -> Z) (fuel : nat) (de : DeltaEncoder)
    (version timestamp : Z) (rows : list SparseRow) (gene_names cell_names : list string)
    : option (result CompressedData) :=
  let num_genes := Z.of_nat (length gene_names) in
  rs ← compress_rows math_quant fuel de num_genes [] rows;
  Some (cs ← rs;
        Ok (mkData (mkHeader version (Z.of_nat (length rows)) num_genes (lossy de)
                             (threshold de) (quantLevels de) timestamp)
                   gene_names cell_names cs)).

End Compressor.

(** ** What the selector returns, by the similarities the code computes *)

(** [selected targetCell candidateIndices l r]: among the candidates [l],
    [r] is [-1] because no similarity exceeds 0.1, or [r] is the index
    given for a candidate whose similarity exceeds 0.1, that no candidate
    exceeds and no earlier candidate reaches. *)
Definition selected (targetCell : SparseRow) (candidateIndices : list Z)
    (l : list SparseRow) (r : Z) : Prop :=
  let J c := Delta.JaccardSimilarity (Indices targetCell) (Indices c) in
  (r = -1 /\ forall c, c ∈ l -> (0.1 <? J c)%float = false)
  \/ (exists (i : nat) (c : SparseRow),
        l !! i = Some c /\ candidateIndices !! i = Some r
        /\ (0.1 <? J c)%float = true
        /\ (forall c', c' ∈ l -> (J c <? J c')%float = false)
        /\ (forall (j : nat) c', (j < i)%nat -> l !! j = Some c' -> (J c <=? J c')%float = false)).

(** The invariant of the selector's loop: [selected] for the candidates
    seen so far, with [best] the similarity of the chosen one. *)
Definition selecting (targetCell : SparseRow) (candidateIndices : list Z)
    (pre : list SparseRow) (best : float) (r : Z) : Prop :=
  let J c := Delta.JaccardSimilarity (Indices targetCell) (Indices c) in
  (best = (-1.0)%float /\ r = -1 /\ forall c, c ∈ pre -> (0.1 <? J c)%float = false)
  \/ (exists (i : nat) (c : SparseRow),
        pre !! i = Some c /\ candidateIndices !! i = Some r /\ best = J c
        /\ (0.1 <? J c)%float = true
        /\ (forall c', c' ∈ pre -> (J c <? J c')%float = false)
        /\ (forall (j : nat) c', (j < i)%nat -> pre !! j = Some c' -> (J c <=? J c')%float = false)).

(** ** The selector against the Jaccard similarity of the index sets *)

(** Following the spec: the Jaccard similarity [|A ∩ B| / |A ∪ B|] of two
    index sets, as a float64 quotient; two empty sets give 1.0, exactly
    one empty set gives 0.0. *)
Definition spec_jaccard (A B : gset Z) : float :=
  if decide (A = ∅ ∧ B = ∅) then 1.0%float
  else if decide (A = ∅ ∨ B = ∅) then 0.0%float
  else PrimFloat.div (Delta.float64_of_int (Z.of_nat (size (A ∩ B))))
                     (Delta.float64_of_int (Z.of_nat (size (A ∪ B)))).

(** Following the spec: [r] is [-1] because no candidate's Jaccard
    similarity with the target exceeds 0.1, or [r] is the index given for
    a candidate whose similarity exceeds 0.1, is maximal in the pool, and
    is not reached by any earlier candidate. *)
Definition spec_selected (targetCell : SparseRow) (candidateIndices : list Z)
    (l : list SparseRow) (r : Z) : Prop :=
  let J c := spec_jaccard (list_to_set (Indices targetCell)) (list_to_set (Indices c)) in
  (r = -1 /\ forall c, c ∈ l -> (0.1 <? J c)%float = false)
  \/ (exists (i : nat) (c : SparseRow),
        l !! i = Some c /\ candidateIndices !! i = Some r
        /\ (0.1 <? J c)%float = true
        /\ (forall c', c' ∈ l -> (J c <? J c')%float = false)
        /\ (forall (j : nat) c', (j < i)%nat -> l !! j = Some c' -> (J c <=? J c')%float = false)).

(** ** A slot of the driver that is never filled *)

(** Slot 0 of the shared matrix still holds the empty row it was created
    with, and no worker holds a decoded row for it. *)
Definition slot0_empty (s : Driver.state) : Prop :=
  Driver.matrix s !! 0%nat = Some (mkRow [] [])
  /\ forall w row, Driver.workers s !! w <> Some (Driver.Decoded 0 (Ok row)).

(** ** Concrete inputs *)

Module Scenario.
Import Delta.

(** The command line's defaults in lossless mode. *)
Definition lossless : DeltaEncoder := NewDeltaEncoder false 0.1%float 256.

(** Stands for the floating-point cores of the quantizer and dequantizer;
    they are not called in lossless mode. *)
Definition no_quant : Z -> Z -> Z := fun _ v => v.

(** Scenario 4 of the specification: two cells over ten genes. *)
Definition cellA : SparseRow := mkRow [1; 4; 7] [2; 5; 1].
Definition cellB : SparseRow := mkRow [1; 4; 9] [3; 5; 2].
Definition gene_names : list string := replicate 10 "g"%string.
Definition cell_names : list string := ["A"; "B"]%string.

(** What the compressor makes of them. *)
Definition compressedAB : CompressedData :=
  mkData (mkHeader 1 2 10 false 0.1%float 256 0) gene_names cell_names
    [ mkCRow [10; 0; 0; 0; 3; 0; 0; 0; 1; 0; 0; 0; 3; 0; 0; 0; 5; 0; 0; 0; 0; 0; 0; 0;
              9; 0; 0; 0; 137; 0; 0; 0; 0; 0; 0; 0]
             [4; 10; 2; 1; 0; 0; 255; 255] (-1) 3 10;
      mkCRow [10; 0; 0; 0; 3; 0; 0; 0; 1; 0; 0; 0; 3; 0; 0; 0; 5; 0; 0; 0; 0; 0; 0; 0;
              9; 0; 0; 0; 9; 1; 0; 0; 0; 0; 0; 0]
             [2; 0; 1; 4; 1; 0; 0; 255; 255] 0 3 10 ].

(** A DEFLATE stream that inflates to [payload]: one final stored block
    (for payloads below 65536 bytes). *)
Definition stored (payload : list Z) : list Z :=
  let n := Z.of_nat (length payload) in
  [1] ++ le_bytes 2 n ++ le_bytes 2 (Z.lxor n 0xFFFF) ++ payload.

(** The encoder's bytes for [[1; 3; 5]] in universe 8 (scenario 1),
    [[1; 4]], [[1; 9]] and [[5]] in universe 10. *)
Definition ef_1_3_5 : list Z :=
  [8; 0; 0; 0; 3; 0; 0; 0; 0; 0; 0; 0; 0; 0; 0; 0; 12; 0; 0; 0; 34; 8; 0; 0; 0; 0; 0; 0].
Definition ef_1_4 : list Z :=
  [10; 0; 0; 0; 2; 0; 0; 0; 2; 0; 0; 0; 4; 0; 0; 0; 1; 0; 0; 0; 0; 0; 0; 0;
   5; 0; 0; 0; 5; 0; 0; 0; 0; 0; 0; 0].
Definition ef_1_9 : list Z :=
  [10; 0; 0; 0; 2; 0; 0; 0; 2; 0; 0; 0; 4; 0; 0; 0; 5; 0; 0; 0; 0; 0; 0; 0;
   5; 0; 0; 0; 9; 0; 0; 0; 0; 0; 0; 0].
Definition ef_5 : list Z :=
  [10; 0; 0; 0; 1; 0; 0; 0; 3; 0; 0; 0; 3; 0; 0; 0; 5; 0; 0; 0; 0; 0; 0; 0;
   3; 0; 0; 0; 1; 0; 0; 0; 0; 0; 0; 0].

(** A reference cell with genes 1 and 4, and a cell with genes 1 and 9
    encoded against it: the deltas [[1; -5; 2]] run over the union
    [[1; 4; 9]], as [ComputeDelta] produces them. *)
Definition refCell : SparseRow := mkRow [1; 4] [2; 5].
Definition targetCell : SparseRow := mkRow [1; 9] [3; 2].
Definition targetRow : CompressedRow :=
  mkCRow ef_1_9 (stored (concat (map Varint.writeVarint [1; -5; 2]))) 0 2 10.

(** Two cells with the same genes, the second encoded against the first. *)
Definition twoCells : CompressedData :=
  mkData (mkHeader 1 2 10 false 0.1%float 256 0) gene_names cell_names
    [ mkCRow ef_1_4 (stored (concat (map Varint.writeVarint [2; 5]))) (-1) 2 10;
      mkCRow ef_1_4 (stored (concat (map Varint.writeVarint [1; 2]))) 0 2 10 ].

(** A delta stream whose second varint runs to six bytes. *)
Definition overlong : list Z := stored ([2] ++ [128; 128; 128; 128; 128; 1]).

(** A row with one gene and no delta bytes. *)
Definition indicesOnly : CompressedRow := mkCRow ef_5 [] (-1) 1 10.

End Scenario.

(** ** Random access into an Elias-Fano sequence *)

Module EliasAccess.
Import BitArray EliasFano.

(** The errors of [Access]; a panic inside the bit vectors passes through. *)
Inductive access_result : Type :=
  | Accessed (v : Z)
  | IndexOutOfRange      (* "index %d out of range [0, %d)" *)
  | EmptySequence        (* "empty sequence" *)
  | AccessPanic.

(** The loop of [findHighValue]: [n] positions remain before [Size]. *)
Fixpoint findHighValue_loop (n : nat) (high : t) (index pos setBitsCount : Z) : result Z :=
  match n with
  | O => Ok 0
  | S n' =>
      if (pos <? Size high) && (setBitsCount <=? index) then
        b ← GetBit high pos;
        if b : bool then
          if setBitsCount =? index then Ok (wrap32 (pos - setBitsCount))
          else findHighValue_loop n' high index (wrap32 (pos + 1)) (wrap32 (setBitsCount + 1))
        else findHighValue_loop n' high index (wrap32 (pos + 1)) setBitsCount
      else Ok 0
  end.

Definition findHighValue (high : t) (index : Z) : result Z :=
  findHighValue_loop (Z.to_nat (Size high)) high index 0 0.

Definition Access (d : EliasDecoder) (index : Z) : access_result :=
  if d_count d <=? index then IndexOutOfRange
  else if d_count d =? 0 then EmptySequence
  else match lowArray d, highArray d with
       | Some low, Some high =>
           match ReadBits low (wrap32 (index * d_lowBits d)) (d_lowBits d) with
           | Err _ => AccessPanic
           | Ok lowValue =>
               match findHighValue high index with
               | Err _ => AccessPanic
               | Ok highValue =>
                   Accessed (Z.lor (shl32 highValue (d_lowBits d)) (wrap32 lowValue))
               end
           end
       | _, _ => AccessPanic
       end.

End EliasAccess.

(** ** The container's length-prefixed fields ([io.go]) *)

Module IO.

(** [bytes.Reader.Read(data)] with [len(data) = n]: [io.EOF] when nothing
    is left to read, even for [n = 0]; otherwise as many bytes as there
    are, at most [n], and no error.  [data] was made by [make]: what is
    not read stays zero. *)
Definition Read (n : nat) (r : list Z) : result (list Z * list Z) :=
  if decide (r = []) then Err EEOF
  else Ok (take n r ++ replicate (n - length r) 0, drop n r).

(** A Go string is its bytes. *)
Definition writeString (s : list Z) : list Z :=
  le_bytes 4 (wrap32 (Z.of_nat (length s))) ++ s.

Definition readString (r : list Z) : result (list Z * list Z) :=
  '(len, r1) ← read_le 4 r;
  Read (Z.to_nat len) r1.

Definition writeStringSlice (strings : list (list Z)) : list Z :=
  le_bytes 4 (wrap32 (Z.of_nat (length strings))) ++ concat (map writeString strings).

(** [for i := uint32(0); i < count; i++ { strings[i] = readString(...) }]. *)
Fixpoint readStrings (n : nat) (r : list Z) : result (list (list Z) * list Z) :=
  match n with
  | O => Ok ([], r)
  | S n' =>
      '(s, r1) ← readString r;
      '(strings, r2) ← readStrings n' r1;
      Ok (s :: strings, r2)
  end.

Definition readStringSlice (r : list Z) : result (list (list Z) * list Z) :=
  '(count, r1) ← read_le 4 r;
  readStrings (Z.to_nat count) r1.

Definition writeCompressedRow (row : CompressedRow) : list Z :=
  le_bytes 4 (wrap32 (RefCell row))
  ++ le_bytes 4 (NumGenes row)
  ++ le_bytes 4 (MaxGeneIndex row)
  ++ le_bytes 4 (wrap32 (Z.of_nat (length (EliasGenes row)))) ++ EliasGenes row
  ++ le_bytes 4 (wrap32 (Z.of_nat (length (DeltaValues row)))) ++ DeltaValues row.

Definition readCompressedRow (r : list Z) : result (CompressedRow * list Z) :=
  '(refCell, r1) ← read_le 4 r;
  '(numGenes, r2) ← read_le 4 r1;
  '(maxGeneIndex, r3) ← read_le 4 r2;
  '(eliasLen, r4) ← read_le 4 r3;
  '(eliasGenes, r5) ← Read (Z.to_nat eliasLen) r4;
  '(deltaLen, r6) ← read_le 4 r5;
  '(deltaValues, r7) ← Read (Z.to_nat deltaLen) r6;
  Ok (mkCRow eliasGenes deltaValues (int32_of refCell) numGenes maxGeneIndex, r7).

End IO.

(** ** Well-formed bit arrays *)

(** What [NewBitArray] and [ReadFrom] establish and [SetBit] keeps: one
    64-bit word per 64 bits of [Size], with [Size + 63] a [uint32]. *)
Definition bitarray_wf (ba : BitArray.t) : Prop :=
  0 <= BitArray.Size ba /\ BitArray.Size ba + 63 < 2 ^ 32
  /\ length (BitArray.Data ba) = Z.to_nat ((BitArray.Size ba + 63) / 64)
  /\ Forall (fun w => 0 <= w < 2 ^ 64) (BitArray.Data ba).

(** Bit [p] of the array, as [GetBit] reports it. *)
Definition bitAt (ba : BitArray.t) (p : Z) : bool :=
  if BitArray.Size ba <=? p then false
  else Z.testbit (default 0 (BitArray.Data ba !! Z.to_nat (p / 64))) (p mod 64).

(** The genes over which [ComputeDelta] works: the sorted union of the
    indices of the two rows ([allGenes], then [sort.Slice]). *)
Definition union_genes (target reference : SparseRow) : list Z :=
  merge_sort Z.le
    (elements (list_to_set (Indices target) ∪ list_to_set (Indices reference) : gset Z)).

(** ** The parallel driver on data without references

    What every reachable state of the driver satisfies when no row names a
    reference cell: the cells handed out so far are each held by a worker
    or settled (published, or recorded as failed). *)

Section DriverInvariant.
Variable compressed : CompressedData.

Definition driver_encoder : Delta.DeltaEncoder :=
  Delta.NewDeltaEncoder (IsLossy (header compressed)) (Threshold (header compressed))
    (QuantLevels (header compressed)).

Definition driver_cells : nat := Z.to_nat (NumCells (header compressed)).

(** A cell decoded on its own, against an empty matrix. *)
Definition decode_alone (row : CompressedRow) : result SparseRow :=
  Decompressor.decompressCell row [] driver_encoder (H_NumGenes (header compressed)).

Definition holds (s : Driver.state) (w idx : nat) : Prop :=
  Driver.workers s !! w = Some (Driver.Received idx)
  \/ exists res, Driver.workers s !! w = Some (Driver.Decoded idx res).

Definition settled (s : Driver.state) (idx : nat) : Prop :=
  exists row,
    CompressedRows compressed !! idx = Some row
    /\ match decode_alone row with
       | Ok r => Driver.matrix s !! idx = Some r
       | Err _ => Driver.decompressErr s <> None
       end.

Definition has_panicked (s : Driver.state) : Prop :=
  exists w, Driver.workers s !! w = Some Driver.Panicked.

(** Why a worker can panic: a cell index past the rows, or a row whose
    decoding panics. *)
Definition panic_cause : Prop :=
  (length (CompressedRows compressed) < driver_cells)%nat
  \/ exists idx row,
       (idx < driver_cells)%nat /\ CompressedRows compressed !! idx = Some row
       /\ decode_alone row = Err EPanic.

Record driver_inv (s : Driver.state) : Prop := mkDriverInv {
  inv_matrix : length (Driver.matrix s) = driver_cells;
  inv_jobs :
    exists j, (j <= driver_cells)%nat /\ Driver.jobs s = seq j (driver_cells - j)
      /\ (~ has_panicked s ->
          forall idx, (idx < j)%nat -> (exists w, holds s w idx) \/ settled s idx);
  inv_received :
    forall w idx, Driver.workers s !! w = Some (Driver.Received idx) ->
                  (idx < driver_cells)%nat;
  inv_decoded :
    forall w idx res, Driver.workers s !! w = Some (Driver.Decoded idx res) ->
      (idx < driver_cells)%nat
      /\ exists row, CompressedRows compressed !! idx = Some row /\ res = decode_alone row;
  inv_err :
    forall e, Driver.decompressErr s = Some e ->
      exists idx row e',
        (idx < driver_cells)%nat /\ CompressedRows compressed !! idx = Some row
        /\ decode_alone row = Err e' /\ e = EWrapped e';
  inv_panic : has_panicked s -> panic_cause
}.

End DriverInvariant.

(** Two cells, neither encoded against a reference. *)
Definition independent_cells : CompressedData :=
  mkData (mkHeader 1 2 10 false 0.1%float 256 0) Scenario.gene_names Scenario.cell_names
    [ mkCRow Scenario.ef_1_4 (Scenario.stored (concat (map Varint.writeVarint [2; 5])))
        (-1) 2 10;
      mkCRow Scenario.ef_1_9 (Scenario.stored (concat (map Varint.writeVarint [3; 2])))
        (-1) 2 10 ].

(** ** What the Elias-Fano coder computes

    [Encode] advances the position in the high vector by the whole high
    part of each element; [Decode] reads the number of zeros before the
    [i]-th set bit as the high part of element [i].  Element [i] so comes
    back with the sum of the high parts up to [i] in place of its own. *)

Fixpoint accumulated (l acc : Z) (sequence : list Z) : list Z :=
  match sequence with
  | [] => []
  | val :: rest =>
      let high := acc + Z.shiftr val l in
      Z.lor (shl32 high l) (val mod 2 ^ l) :: accumulated l high rest
  end.

Definition high_sum (l : Z) (sequence : list Z) : Z :=
  foldr (fun val s => Z.shiftr val l + s) 0 sequence.

(** The high vector as the encoder's loop leaves it from position [pos] on. *)
Fixpoint laid_out (l : Z) (high : BitArray.t) (pos : Z) (sequence : list Z) : Prop :=
  match sequence with
  | [] => True
  | val :: rest =>
      let p := pos + Z.shiftr val l in
      (forall q, pos <= q < p -> bitAt high q = false)
      /\ bitAt high p = true /\ p < BitArray.Size high
      /\ laid_out l high (p + 1) rest
  end.

(** * Properties *)

(** ** Machine-integer facts *)

Lemma wrap32_small z : 0 <= z < 2 ^ 32 -> wrap32 z = z.
Proof. intros H. unfold wrap32. apply Z.mod_small. exact H. Qed.

Lemma shl32_1 l : 0 <= l < 32 -> shl32 1 l = 2 ^ l.
Proof.
  intros H. unfold shl32.
  destruct (Z.leb_spec 32 l) as [Hl|_]; [lia|].
  rewrite Z.shiftl_1_l. apply wrap32_small. split.
  - apply Z.pow_nonneg. lia.
  - apply Z.pow_lt_mono_r; lia.
Qed.

Lemma shl32_le_pow31 l : 0 <= l -> shl32 1 l <= 2 ^ 31.
Proof.
  intros H. unfold shl32.
  destruct (Z.leb_spec 32 l) as [Hl|Hl]; [lia|].
  rewrite Z.shiftl_1_l, wrap32_small.
  - apply Z.pow_le_mono_r; lia.
  - split; [apply Z.pow_nonneg; lia | apply Z.pow_lt_mono_r; lia].
Qed.

(** ** Elias-Fano: the low-bit width *)

Section LowBits.
Import EliasFano.

(** From [l] on, the loop stops at the least [l'] with [ratio <= 2^l']. *)
Lemma lowBits_loop_log2_up ratio :
  1 <= ratio <= 2 ^ 31 ->
  forall (fuel : nat) (l : Z),
    0 <= l <= Z.log2_up ratio ->
    (Z.log2_up ratio - l < Z.of_nat fuel) ->
    lowBits_loop fuel ratio l = Some (Z.log2_up ratio).
Proof.
  intros Hr.
  assert (Hup : Z.log2_up ratio <= 31).
  { apply Z.log2_up_le_pow2; lia. }
  induction fuel as [|fuel IH]; intros l Hl Hfuel; [lia|].
  cbn [lowBits_loop]. rewrite shl32_1 by lia.
  destruct (Z.ltb_spec (2 ^ l) ratio) as [Hlt|Hge].
  - assert (l < Z.log2_up ratio).
    { destruct (Z.lt_ge_cases l (Z.log2_up ratio)) as [?|Hc]; [assumption|].
      apply Z.log2_up_le_pow2 in Hc; lia. }
    rewrite wrap32_small by lia. apply IH; lia.
  - f_equal. apply Z.le_antisymm; [lia|].
    apply Z.log2_up_le_pow2; lia.
Qed.

(** Past [2^31] the test [(1 << lowBits) < ratio] never fails. *)
Lemma lowBits_loop_diverges ratio :
  2 ^ 31 < ratio ->
  forall (fuel : nat) (l : Z), 0 <= l -> lowBits_loop fuel ratio l = None.
Proof.
  intros Hr. induction fuel as [|fuel IH]; intros l Hl; [reflexivity|].
  cbn [lowBits_loop].
  pose proof (shl32_le_pow31 l Hl).
  destruct (Z.ltb_spec (shl32 1 l) ratio); [|lia].
  apply IH. unfold wrap32. apply Z.mod_pos_bound. lia.
Qed.

End LowBits.

(** ** Varints: bit-level facts *)

Ltac euclid := Z.to_euclidean_division_equations; lia.

Lemma testbit_small x k n : 0 <= x < 2 ^ k -> k <= n -> Z.testbit x n = false.
Proof.
  intros [H0 Hk] Hn.
  destruct (Z.eq_dec x 0) as [->|Hx]; [apply Z.testbit_0_l|].
  apply Z.bits_above_log2; [lia|].
  assert (Z.log2 x < k); [|lia].
  apply Z.log2_lt_pow2; lia.
Qed.

Lemma lor_disjoint acc x s :
  0 <= s -> 0 <= acc < 2 ^ s -> Z.lor acc (x * 2 ^ s) = acc + x * 2 ^ s.
Proof.
  intros Hs Hacc.
  assert (Hl : Z.land acc (x * 2 ^ s) = 0).
  { apply Z.bits_inj'. intros n Hn. rewrite Z.land_spec, Z.bits_0.
    destruct (Z.lt_ge_cases n s).
    - rewrite Z.mul_pow2_bits_low by lia. apply andb_false_r.
    - rewrite (testbit_small acc s n) by lia. reflexivity. }
  rewrite <- Z.lxor_lor by exact Hl. symmetry. apply Z.add_nocarry_lxor. exact Hl.
Qed.

Lemma byte_continuation u : Varint.byte (Z.lor u 0x80) = u mod 128 + 128.
Proof.
  unfold Varint.byte.
  transitivity (Z.lor (u mod 2 ^ 7) (1 * 2 ^ 7)).
  - change 256 with (2 ^ 8). change 0x80 with (2 ^ 7). change (1 * 2 ^ 7) with (2 ^ 7).
    apply Z.bits_inj'. intros n Hn.
    rewrite Z.lor_spec, !Z.testbit_mod_pow2, Z.lor_spec by lia.
    rewrite !Z.pow2_bits_eqb by lia.
    destruct (Z.ltb_spec n 8), (Z.ltb_spec n 7), (Z.eqb_spec 7 n);
      cbn; try lia; rewrite ?orb_true_r, ?orb_false_r; reflexivity.
  - rewrite lor_disjoint; [reflexivity|lia|].
    change (2 ^ 7) with 128. euclid.
Qed.

Lemma land_7F b : Z.land b 0x7F = b mod 128.
Proof. change 0x7F with (Z.ones 7). rewrite Z.land_ones by lia. reflexivity. Qed.

Lemma land_1 b : Z.land b 1 = b mod 2.
Proof. change 1 with (Z.ones 1). rewrite Z.land_ones by lia. reflexivity. Qed.

Lemma lxor_ones32 x : 0 <= x < 2 ^ 32 -> Z.lxor x (2 ^ 32 - 1) = 2 ^ 32 - 1 - x.
Proof.
  intros Hx.
  transitivity (Z.lnot x mod 2 ^ 32).
  - apply Z.bits_inj'. intros n Hn.
    change (2 ^ 32 - 1) with (Z.ones 32).
    rewrite Z.lxor_spec, Z.testbit_ones_nonneg, Z.testbit_mod_pow2, Z.lnot_spec by lia.
    destruct (Z.ltb_spec n 32).
    + destruct (Z.leb_spec 0 n); [|lia]. cbn. apply xorb_true_r.
    + rewrite (testbit_small x 32 n) by lia. destruct (0 <=? n); reflexivity.
  - unfold Z.lnot. change (2 ^ 32) with 4294967296 in *. euclid.
Qed.

Lemma int32_of_wrap y : wrap32 (int32_of y) = wrap32 y.
Proof.
  unfold int32_of, wrap32. change (2 ^ 32) with 4294967296. change (2 ^ 31) with 2147483648.
  destruct (Z.ltb_spec (y mod 4294967296) 2147483648); euclid.
Qed.

Lemma int32_of_small y : is_i32 y -> int32_of y = y.
Proof.
  unfold is_i32, int32_of, wrap32. change (2 ^ 32) with 4294967296.
  change (2 ^ 31) with 2147483648. intros Hy.
  destruct (Z.ltb_spec (y mod 4294967296) 2147483648); euclid.
Qed.

Section VarintFacts.
Import Varint.

Lemma zigzag_spec v : is_i32 v -> zigzag v = if 0 <=? v then 2 * v else - 2 * v - 1.
Proof.
  unfold is_i32, zigzag. change (2 ^ 31) with 2147483648. intros Hv.
  rewrite Z.shiftl_mul_pow2, Z.shiftr_div_pow2 by lia.
  change (2 ^ 1) with 2. change (2 ^ 31) with 2147483648.
  destruct (Z.leb_spec 0 v).
  - replace (v / 2147483648) with 0 by euclid.
    rewrite Z.lxor_0_r, int32_of_wrap.
    rewrite wrap32_small by (change (2 ^ 32) with 4294967296; lia). lia.
  - replace (v / 2147483648) with (-1) by euclid.
    rewrite Z.lxor_m1_r. unfold Z.lnot.
    replace (Z.pred (- int32_of (v * 2))) with (- int32_of (v * 2) - 1) by lia.
    pose proof (int32_of_wrap (v * 2)) as Hw. revert Hw.
    unfold wrap32. change (2 ^ 32) with 4294967296. intros Hw. euclid.
Qed.

Lemma zigzag_range v : is_i32 v -> 0 <= zigzag v < 2 ^ 32.
Proof.
  intros Hv. rewrite zigzag_spec by exact Hv. unfold is_i32 in Hv.
  change (2 ^ 31) with 2147483648 in Hv. change (2 ^ 32) with 4294967296.
  destruct (Z.leb_spec 0 v); lia.
Qed.

Lemma unzigzag_zigzag v : is_i32 v -> unzigzag (zigzag v) = v.
Proof.
  intros Hv. rewrite zigzag_spec by exact Hv. unfold unzigzag.
  unfold is_i32 in Hv. change (2 ^ 31) with 2147483648 in Hv.
  rewrite Z.shiftr_div_pow2 by lia. change (2 ^ 1) with 2.
  rewrite land_1.
  destruct (Z.leb_spec 0 v).
  - replace ((2 * v) mod 2) with 0 by euclid.
    replace (2 * v / 2) with v by euclid.
    change (wrap32 (- 0)) with 0. rewrite Z.lxor_0_r.
    apply int32_of_small. unfold is_i32. change (2 ^ 31) with 2147483648. lia.
  - replace ((- 2 * v - 1) mod 2) with 1 by euclid.
    replace ((- 2 * v - 1) / 2) with (- v - 1) by euclid.
    change (wrap32 (- 1)) with (2 ^ 32 - 1).
    rewrite lxor_ones32 by (change (2 ^ 32) with 4294967296; lia).
    unfold int32_of, wrap32. change (2 ^ 32) with 4294967296.
    change (2 ^ 31) with 2147483648.
    destruct (Z.ltb_spec ((4294967296 - 1 - (- v - 1)) mod 4294967296) 2147483648); euclid.
Qed.

(** Reading back what the write loop wrote: the accumulator gains [u]
    at bit [shift]. *)
Lemma readVarint_loop_write (fuel : nat) :
  forall u acc shift rest,
    0 <= u < 2 ^ (7 * (Z.of_nat fuel + 1)) ->
    0 <= shift -> u * 2 ^ shift < 2 ^ 32 -> 0 <= acc < 2 ^ shift ->
    readVarint_loop (writeVarint_loop fuel u ++ rest) acc shift
    = Ok (acc + u * 2 ^ shift, rest).
Proof.
  induction fuel as [|fuel IH]; intros u acc shift rest Hu Hs Hfit Hacc.
  - change (2 ^ (7 * (Z.of_nat 0 + 1))) with 128 in Hu.
    cbn [writeVarint_loop]. destruct (Z.leb_spec 0x80 u); [lia|].
    cbn [app readVarint_loop]. unfold byte.
    rewrite (Z.mod_small u 256) by lia.
    destruct (Z.ltb_spec u 0x80); [|lia].
    rewrite land_7F, (Z.mod_small u 128) by lia.
    assert (Hs32 : shift < 32 \/ u = 0).
    { destruct (Z.eq_dec u 0); [right; assumption|left].
      destruct (Z.lt_ge_cases shift 32); [assumption|].
      assert (2 ^ 32 <= 2 ^ shift) by (apply Z.pow_le_mono_r; lia). nia. }
    assert (Hshl : shl32 u shift = u * 2 ^ shift).
    { unfold shl32. destruct (Z.leb_spec 32 shift).
      - destruct Hs32 as [?| ->]; [lia|]. lia.
      - rewrite Z.shiftl_mul_pow2 by lia. apply wrap32_small.
        split; [|assumption]. apply Z.mul_nonneg_nonneg; [lia|]. apply Z.pow_nonneg. lia. }
    rewrite Hshl, lor_disjoint by lia. reflexivity.
  - cbn [writeVarint_loop]. destruct (Z.leb_spec 0x80 u) as [Hbig|Hsmall].
    + cbn [app readVarint_loop].
      rewrite byte_continuation, land_7F.
      replace ((u mod 128 + 128) mod 128) with (u mod 128) by euclid.
      destruct (Z.ltb_spec (u mod 128 + 128) 0x80); [euclid|].
      assert (Hp : 0 < 2 ^ shift) by (apply Z.pow_pos_nonneg; lia).
      assert (Hs25 : shift + 7 < 32).
      { destruct (Z.lt_ge_cases (shift + 7) 32); [assumption|].
        assert (2 ^ 32 <= 2 ^ (shift + 7)) by (apply Z.pow_le_mono_r; lia).
        rewrite Z.pow_add_r in * by lia. change (2 ^ 7) with 128 in *. nia. }
      destruct (Z.leb_spec 32 (shift + 7)); [lia|].
      assert (Hshl : shl32 (u mod 128) shift = u mod 128 * 2 ^ shift).
      { unfold shl32. destruct (Z.leb_spec 32 shift); [lia|].
        rewrite Z.shiftl_mul_pow2 by lia. apply wrap32_small.
        assert (0 <= u mod 128 < 128) by (apply Z.mod_pos_bound; lia).
        split; [nia|]. nia. }
      rewrite Hshl, lor_disjoint by lia.
      rewrite Z.shiftr_div_pow2 by lia. change (2 ^ 7) with 128.
      assert (Hpow : 2 ^ (shift + 7) = 2 ^ shift * 128).
      { rewrite Z.pow_add_r by lia. reflexivity. }
      assert (Hu' : 2 ^ (7 * (Z.of_nat (S fuel) + 1)) = 128 * 2 ^ (7 * (Z.of_nat fuel + 1))).
      { replace (7 * (Z.of_nat (S fuel) + 1)) with (7 + 7 * (Z.of_nat fuel + 1)) by lia.
        rewrite Z.pow_add_r by lia. reflexivity. }
      assert (Hdm : u = 128 * (u / 128) + u mod 128) by (apply Z.div_mod; lia).
      assert (Hm : 0 <= u mod 128 < 128) by (apply Z.mod_pos_bound; lia).
      rewrite IH.
      * f_equal. f_equal. rewrite Hpow. nia.
      * split; [apply Z.div_pos; lia|]. apply Z.div_lt_upper_bound; lia.
      * lia.
      * rewrite Hpow. nia.
      * rewrite Hpow. nia.
    + cbn [app readVarint_loop]. unfold byte.
      rewrite (Z.mod_small u 256) by lia.
      destruct (Z.ltb_spec u 0x80); [|lia].
      rewrite land_7F, (Z.mod_small u 128) by lia.
      assert (Hshl : shl32 u shift = u * 2 ^ shift).
      { unfold shl32. destruct (Z.leb_spec 32 shift).
        - destruct (Z.eq_dec u 0) as [->|]; [lia|].
          assert (2 ^ 32 <= 2 ^ shift) by (apply Z.pow_le_mono_r; lia). nia.
        - rewrite Z.shiftl_mul_pow2 by lia. apply wrap32_small.
          split; [|assumption]. apply Z.mul_nonneg_nonneg; [lia|]. apply Z.pow_nonneg. lia. }
      rewrite Hshl, lor_disjoint by lia. reflexivity.
Qed.

End VarintFacts.

Section VarintShape.
Import Varint.

(** The write loop emits as many bytes as [u] has 7-bit groups. *)
Lemma writeVarint_loop_shape u :
  0 <= u < 2 ^ 32 ->
  let bs := writeVarint_loop 4 u in
  let n := Z.of_nat (length bs) in
  1 <= n <= 5 /\ u < 2 ^ (7 * n) /\
  (1 < n -> 2 ^ (7 * (n - 1)) <= u /\ last bs <> Some 0).
Proof.
  change (2 ^ 32) with 4294967296. intros Hu.
  cbn [writeVarint_loop]. rewrite !Z.shiftr_div_pow2 by lia. change (2 ^ 7) with 128.
  unfold byte.
  destruct (Z.leb_spec 0x80 u);
  [destruct (Z.leb_spec 0x80 (u / 128));
   [destruct (Z.leb_spec 0x80 (u / 128 / 128));
    [destruct (Z.leb_spec 0x80 (u / 128 / 128 / 128));
     [destruct (Z.leb_spec 0x80 (u / 128 / 128 / 128 / 128))|]|]|]|];
  cbn [length last]; cbv zeta;
  repeat match goal with
         | |- context [2 ^ ?e] => let v := eval vm_compute in (2 ^ e) in change (2 ^ e) with v
         | |- context [Z.of_nat ?e] => let v := eval vm_compute in (Z.of_nat e) in change (Z.of_nat e) with v
         end;
  (split; [lia|split; [euclid|]]); intros Hn; try lia;
  (split; [euclid|]); intros Hl; injection Hl as Hl; euclid.
Qed.

End VarintShape.

(** Reading a varint back returns the value and leaves the bytes after it. *)
Lemma readVarint_writeVarint (v : Z) (rest : list Z) :
  is_i32 v -> Varint.readVarint (Varint.writeVarint v ++ rest) = Ok (v, rest).
Proof.
  intros Hv. pose proof (zigzag_range v Hv) as Hz.
  unfold Varint.readVarint, Varint.writeVarint.
  rewrite readVarint_loop_write.
  - replace (0 + Varint.zigzag v * 2 ^ 0) with (Varint.zigzag v)
      by (change (2 ^ 0) with 1; lia).
    unfold mbind, result_bind. rewrite unzigzag_zigzag by exact Hv. reflexivity.
  - change (2 ^ (7 * (Z.of_nat 4 + 1))) with (2 ^ 35).
    assert (2 ^ 32 < 2 ^ 35) by (apply Z.pow_lt_mono_r; lia). lia.
  - lia.
  - rewrite Z.mul_1_r. lia.
  - change (2 ^ 0) with 1. lia.
Qed.

(** C6.  For every [int32] value [v], reading the varint that
    [writeVarint] wrote returns [v] and leaves the reader at the bytes that
    follow.  The encoding is the shortest one: it has between one and five
    bytes, as many as the zig-zag value has 7-bit groups, so its last byte
    is not a zero that a shorter encoding would drop.  The encodings of
    0, -1, 1, 2147483647 and -2147483648 take 1, 1, 1, 5 and 5 bytes. *)
Theorem varint_roundtrip_shortest (v : Z) (rest : list Z) :
  is_i32 v ->
  let bs := Varint.writeVarint v in
  let n := Z.of_nat (length bs) in
  Varint.readVarint (bs ++ rest) = Ok (v, rest)
  /\ 1 <= n <= 5
  /\ Varint.zigzag v < 2 ^ (7 * n)
  /\ (1 < n -> 2 ^ (7 * (n - 1)) <= Varint.zigzag v /\ last bs <> Some 0)
  /\ map (fun x => length (Varint.writeVarint x))
         [0; -1; 1; 2147483647; -2147483648] = [1; 1; 1; 5; 5]%nat.
Proof.
  intros Hv bs n. pose proof (zigzag_range v Hv) as Hz.
  split; [|split; [|split; [|split]]].
  - apply readVarint_writeVarint, Hv.
  - apply (writeVarint_loop_shape _ Hz).
  - apply (writeVarint_loop_shape _ Hz).
  - apply (writeVarint_loop_shape _ Hz).
  - vm_compute. reflexivity.
Qed.

Lemma varint_roundtrip_shortest_witness :
  Varint.readVarint (Varint.writeVarint (-300) ++ [7]) = Ok (-300, [7]).
Proof.
  refine (proj1 (varint_roundtrip_shortest (-300) [7] _)).
  unfold is_i32. change (2 ^ 31) with 2147483648. lia.
Defined.

(** C3 (as amended).  For a universe [u] and a count [k] with [0 < k < u]
    and [u / k <= 2^31], the encoder's low-bit width is
    [max(0, ceil(log2(u / k)) - 1)]: the least [l'] with [2^l' >= u / k],
    less one when it is positive.  When [k = 0] or [u <= k] the width is 0.
    The constructor returns within 33 iterations of its loop. *)
Theorem elias_lowBits_width (universe count : Z) (fuel : nat) :
  (33 <= fuel)%nat ->
  (0 < count < universe -> universe / count <= 2 ^ 31 ->
   EliasFano.NewEliasEncoder fuel universe count
   = Some (EliasFano.mkEncoder universe count
             (Z.max 0 (Z.log2_up (universe / count) - 1))))
  /\ (~ 0 < count < universe ->
      EliasFano.NewEliasEncoder fuel universe count
      = Some (EliasFano.mkEncoder universe count 0)).
Proof.
  intros Hfuel. unfold EliasFano.NewEliasEncoder. split.
  - intros Hk Hr.
    destruct (Z.ltb_spec 0 count); [|lia].
    destruct (Z.ltb_spec count universe); [|lia]. cbn [andb].
    assert (Hratio : 1 <= universe / count).
    { apply Z.div_le_lower_bound; lia. }
    assert (Hup : 0 <= Z.log2_up (universe / count) <= 31).
    { split; [apply Z.log2_up_nonneg|apply Z.log2_up_le_pow2; lia]. }
    rewrite (lowBits_loop_log2_up (universe / count)) by lia.
    f_equal. f_equal.
    destruct (Z.ltb_spec 0 (Z.log2_up (universe / count))); lia.
  - intros Hk.
    destruct (Z.ltb_spec 0 count); [|reflexivity].
    destruct (Z.ltb_spec count universe); [lia|reflexivity].
Qed.

(** For [u = 1_000_000] and [k = 4] the width is 17. *)
Lemma elias_lowBits_width_witness :
  EliasFano.NewEliasEncoder 33 1000000 4 = Some (EliasFano.mkEncoder 1000000 4 17).
Proof.
  refine (proj1 (elias_lowBits_width 1000000 4 33 _) _ _).
  - lia.
  - lia.
  - vm_compute. discriminate.
Defined.

(** The width the encoder chooses for [u = 1_000_000], [k = 4] is 17, and
    not the 16 that [max(0, floor(log2(u / k)) - 1)] gives. *)
Lemma elias_lowBits_floor_formula_fails :
  EliasFano.NewEliasEncoder 33 1000000 4 = Some (EliasFano.mkEncoder 1000000 4 17)
  /\ Z.max 0 (Z.log2 (1000000 / 4) - 1) = 16.
Proof. split; vm_compute; reflexivity. Qed.

(** A ratio above [2^31] is never reached by [1 << lowBits]: the
    constructor does not return, whatever the fuel. *)
Lemma elias_constructor_diverges (fuel : nat) :
  EliasFano.NewEliasEncoder fuel 4294967295 1 = None.
Proof.
  unfold EliasFano.NewEliasEncoder. cbn [Z.ltb Z.compare Pos.compare Pos.compare_cont andb].
  rewrite lowBits_loop_diverges; [reflexivity| |lia].
  vm_compute. reflexivity.
Qed.

(** ** Order facts about [float64] comparisons *)

Section FloatOrder.
Import SpecFloat.

Ltac sf_cases :=
  repeat match goal with
         | x : spec_float |- _ => destruct x as [[]|[]| |[] ? ?]
         end;
  cbn [SFcompare]; try congruence.

Ltac cmp_cases :=
  repeat match goal with
         | |- context [Z.compare ?a ?b] => destruct (Z.compare_spec a b)
         | H : context [Z.compare ?a ?b] |- _ => destruct (Z.compare_spec a b)
         | |- context [Pos.compare_cont Eq ?a ?b] =>
             change (Pos.compare_cont Eq a b) with (Pos.compare a b)
         | H : context [Pos.compare_cont Eq ?a ?b] |- _ =>
             change (Pos.compare_cont Eq a b) with (Pos.compare a b) in H
         | |- context [Pos.compare ?a ?b] => destruct (Pos.compare_spec a b)
         | H : context [Pos.compare ?a ?b] |- _ => destruct (Pos.compare_spec a b)
         end.

Lemma SFcompare_lt_trans a b c :
  SFcompare a b = Some Lt -> SFcompare b c = Some Lt -> SFcompare a c = Some Lt.
Proof. sf_cases; intros H1 H2; cmp_cases; cbn in *; try congruence; lia. Qed.

Lemma SFcompare_lt_eq_trans a b c :
  SFcompare a b = Some Lt -> SFcompare b c = Some Eq -> SFcompare a c = Some Lt.
Proof. sf_cases; intros H1 H2; cmp_cases; cbn in *; try congruence; lia. Qed.

Lemma SFcompare_lt_irrefl a : SFcompare a a <> Some Lt.
Proof. sf_cases; cmp_cases; cbn in *; try congruence; lia. Qed.

Lemma SFcompare_lt_asym a b : SFcompare a b = Some Lt -> SFcompare b a = Some Gt.
Proof. sf_cases; intros H1; cmp_cases; cbn in *; try congruence; lia. Qed.

Lemma ltb_SFcompare (x y : float) :
  (x <? y)%float = true <-> SFcompare (Prim2SF x) (Prim2SF y) = Some Lt.
Proof.
  rewrite ltb_spec. unfold SFltb.
  destruct (SFcompare (Prim2SF x) (Prim2SF y)) as [[]|]; split; congruence.
Qed.

Lemma leb_SFcompare (x y : float) :
  (x <=? y)%float = true <->
  SFcompare (Prim2SF x) (Prim2SF y) = Some Lt \/ SFcompare (Prim2SF x) (Prim2SF y) = Some Eq.
Proof.
  rewrite leb_spec. unfold SFleb.
  destruct (SFcompare (Prim2SF x) (Prim2SF y)) as [[]|]; split;
    try congruence; intuition congruence.
Qed.

Lemma float_ltb_irrefl (x : float) : (x <? x)%float = false.
Proof.
  destruct (x <? x)%float eqn:E; [|reflexivity].
  apply ltb_SFcompare in E. destruct (SFcompare_lt_irrefl _ E).
Qed.

Lemma float_ltb_trans (x y z : float) :
  (x <? y)%float = true -> (y <? z)%float = true -> (x <? z)%float = true.
Proof. rewrite !ltb_SFcompare. apply SFcompare_lt_trans. Qed.

Lemma float_ltb_leb_trans (x y z : float) :
  (x <? y)%float = true -> (y <=? z)%float = true -> (x <? z)%float = true.
Proof.
  rewrite !ltb_SFcompare, leb_SFcompare. intros H [H'|H'].
  - exact (SFcompare_lt_trans _ _ _ H H').
  - exact (SFcompare_lt_eq_trans _ _ _ H H').
Qed.

Lemma float_ltb_not_leb (x y : float) :
  (x <? y)%float = true -> (y <=? x)%float = false.
Proof.
  intros H. destruct (y <=? x)%float eqn:E; [|reflexivity].
  pose proof (float_ltb_leb_trans _ _ _ H E) as Hxx.
  rewrite float_ltb_irrefl in Hxx. discriminate.
Qed.

End FloatOrder.

(** ** Reference selection *)

Lemma intersection_count (genesA genesB : list Z) :
  NoDup genesB ->
  length (filter (fun gene => gene ∈ (list_to_set genesA : gset Z)) genesB)
  = size ((list_to_set genesA : gset Z) ∩ list_to_set genesB).
Proof.
  intros Hnd.
  rewrite <- (size_list_to_set (C := gset Z)) by (apply NoDup_filter, Hnd).
  f_equal. apply set_eq. intros x.
  rewrite elem_of_list_to_set, list_elem_of_filter, elem_of_intersection.
  rewrite (elem_of_list_to_set (C := gset Z) x genesB). tauto.
Qed.

Lemma union_count (X Y : gset Z) :
  (size X + size Y - size (X ∩ Y) = size (X ∪ Y))%nat.
Proof.
  pose proof (size_union_alt X Y) as H1.
  pose proof (size_difference_alt Y X) as H2.
  assert (Hsub : (size (Y ∩ X) <= size Y)%nat).
  { apply subseteq_size, intersection_subseteq_l. }
  assert (Hcomm : X ∩ Y = Y ∩ X).
  { apply (comm_L (∩)). }
  rewrite Hcomm. lia.
Qed.

(** On a duplicate-free second argument, [JaccardSimilarity] is the
    quotient of the sizes of intersection and union. *)
Lemma JaccardSimilarity_sets (genesA genesB : list Z) :
  genesA <> [] -> genesB <> [] -> NoDup genesB ->
  let setA : gset Z := list_to_set genesA in
  let setB : gset Z := list_to_set genesB in
  Delta.JaccardSimilarity genesA genesB
  = (Delta.float64_of_int (Z.of_nat (size (setA ∩ setB)))
     / Delta.float64_of_int (Z.of_nat (size (setA ∪ setB))))%float.
Proof.
  intros HA HB Hnd setA setB. unfold Delta.JaccardSimilarity.
  destruct (decide (genesA = [] ∧ genesB = [])) as [[? _]|_]; [contradiction|].
  destruct (decide (genesA = [] ∨ genesB = [])) as [[?|?]|_]; [contradiction..|].
  rewrite intersection_count by exact Hnd. fold setA setB.
  pose proof (union_count setA setB) as Hu.
  assert (Hle : (size (setA ∩ setB) <= size setA)%nat).
  { apply subseteq_size, intersection_subseteq_l. }
  replace (Z.of_nat (size setA) + Z.of_nat (size setB) - Z.of_nat (size (setA ∩ setB)))
    with (Z.of_nat (size (setA ∪ setB))) by lia.
  assert (Hpos : (0 < size (setA ∪ setB))%nat).
  { destruct genesA as [|a genesA']; [contradiction|].
    destruct (size (setA ∪ setB)) eqn:E; [|lia].
    apply size_empty_iff in E. exfalso. apply (not_elem_of_empty (C := gset Z) a).
    apply E, elem_of_union_l, elem_of_list_to_set. left. }
  destruct (Z.eqb_spec (Z.of_nat (size (setA ∪ setB))) 0); [lia|reflexivity].
Qed.

Section Selector.
Import Delta.
Variable targetCell : SparseRow.
Variable candidateIndices : list Z.

Local Abbreviation J c := (JaccardSimilarity (Indices targetCell) (Indices c)).

Local Abbreviation selected := (selected targetCell candidateIndices).
Local Abbreviation selecting := (selecting targetCell candidateIndices).

Lemma selecting_selected pre best r : selecting pre best r -> selected pre r.
Proof.
  intros [(_ & Hr & Hnone)|(i & c & Hi & Hix & _ & H)].
  - left. split; assumption.
  - right. exists i, c. repeat split; try assumption; apply H.
Qed.

Lemma selecting_update pre best r c ix :
  selecting pre best r ->
  candidateIndices !! length pre = Some ix ->
  (best <? J c)%float = true -> (0.1 <? J c)%float = true ->
  selecting (pre ++ [c]) (J c) ix.
Proof.
  intros Hinv Hix Hbest Hthr. right. exists (length pre), c.
  assert (Hold : forall c', c' ∈ pre ->
            (J c <? J c')%float = false /\ (J c <=? J c')%float = false).
  { intros c' Hc'.
    assert (Hbelow : exists b, (b <? J c)%float = true /\ (b <? J c')%float = false).
    { destruct Hinv as [(_ & _ & Hnone)|(i & c0 & _ & _ & -> & _ & Hmax & _)].
      - exists 0.1%float. split; [assumption|apply Hnone, Hc'].
      - exists (J c0). split; [assumption|apply Hmax, Hc']. }
    destruct Hbelow as (b & Hb1 & Hb2). split.
    - destruct (J c <? J c')%float eqn:E; [|reflexivity].
      rewrite (float_ltb_trans _ _ _ Hb1 E) in Hb2. discriminate.
    - destruct (J c <=? J c')%float eqn:E; [|reflexivity].
      rewrite (float_ltb_leb_trans _ _ _ Hb1 E) in Hb2. discriminate. }
  split; [|split; [|split; [|split; [|split]]]].
  - rewrite lookup_app_r by lia. rewrite Nat.sub_diag. reflexivity.
  - exact Hix.
  - reflexivity.
  - exact Hthr.
  - intros c' Hc'. apply elem_of_app in Hc' as [Hc'|Hc'].
    + apply Hold, Hc'.
    + apply list_elem_of_singleton in Hc' as ->. apply float_ltb_irrefl.
  - intros j c' Hj Hc'. rewrite lookup_app_l in Hc' by exact Hj.
    apply Hold. eapply list_elem_of_lookup_2, Hc'.
Qed.

Lemma selecting_keep pre best r c :
  selecting pre best r ->
  (best <? J c)%float && (0.1 <? J c)%float = false ->
  selecting (pre ++ [c]) best r.
Proof.
  intros Hinv Hno. destruct Hinv as [(-> & -> & Hnone)|(i & c0 & Hi & Hix & -> & Hthr & Hmax & Hearly)].
  - left. repeat split; try reflexivity.
    intros c' Hc'. apply elem_of_app in Hc' as [Hc'|Hc']; [apply Hnone, Hc'|].
    apply list_elem_of_singleton in Hc' as ->.
    destruct (0.1 <? J c)%float eqn:E; [|reflexivity].
    rewrite (float_ltb_trans (-1.0)%float 0.1%float (J c) eq_refl E) in Hno.
    discriminate.
  - right. exists i, c0. split; [|split; [|split; [|split; [|split]]]].
    + rewrite lookup_app_l; [exact Hi|]. eapply lookup_lt_Some, Hi.
    + exact Hix.
    + reflexivity.
    + exact Hthr.
    + intros c' Hc'. apply elem_of_app in Hc' as [Hc'|Hc']; [apply Hmax, Hc'|].
      apply list_elem_of_singleton in Hc' as ->.
      destruct (J c0 <? J c)%float eqn:E; [|reflexivity].
      rewrite (float_ltb_trans _ _ _ Hthr E) in Hno. discriminate.
    + intros j c' Hj Hc'. apply (Hearly j c' Hj).
      rewrite lookup_app_l in Hc'; [exact Hc'|].
      apply lookup_lt_Some in Hi. lia.
Qed.

Lemma FindBestReference_loop_selected candidates :
  forall pre best r,
    length candidateIndices = length (pre ++ candidates) ->
    selecting pre best r ->
    exists r', FindBestReference_loop targetCell candidates candidateIndices
                 (length pre) best r = Ok r'
               /\ selected (pre ++ candidates) r'.
Proof.
  induction candidates as [|c cs IH]; intros pre best r Hlen Hinv.
  - exists r. rewrite app_nil_r. split; [reflexivity|]. eapply selecting_selected, Hinv.
  - cbn [FindBestReference_loop].
    replace (pre ++ c :: cs) with ((pre ++ [c]) ++ cs) in * by (rewrite <- app_assoc; reflexivity).
    replace (S (length pre)) with (length (pre ++ [c])) by (rewrite length_app; cbn; lia).
    destruct ((best <? J c)%float && (0.1 <? J c)%float) eqn:E.
    + apply andb_true_iff in E as [E1 E2].
      destruct (candidateIndices !! length pre) as [ix|] eqn:Hix.
      * apply IH; [exact Hlen|]. eapply selecting_update; eassumption.
      * apply lookup_ge_None in Hix. rewrite Hlen, !length_app in Hix. cbn in Hix. lia.
    + apply IH; [exact Hlen|]. apply selecting_keep; assumption.
Qed.

End Selector.

(** What the loop returns, in terms of the similarities the code computes. *)
Lemma FindBestReference_selected (targetCell : SparseRow) (candidates : list SparseRow)
    (candidateIndices : list Z) :
  length candidateIndices = length candidates ->
  exists r,
    Delta.FindBestReference targetCell candidates candidateIndices = Ok r
    /\ selected targetCell candidateIndices candidates r.
Proof.
  intros Hlen.
  destruct (FindBestReference_loop_selected targetCell candidateIndices candidates
              [] (-1.0)%float (-1)) as (r & Hr & Hsel).
  - exact Hlen.
  - left. repeat split; try reflexivity. intros c Hc. inversion Hc.
  - exists r. split; [exact Hr|exact Hsel].
Qed.

Lemma list_to_set_empty_iff (l : list Z) : (list_to_set l : gset Z) = ∅ <-> l = [].
Proof.
  split; [|intros ->; reflexivity].
  destruct l as [|a l]; [reflexivity|]. intros E. exfalso.
  apply (not_elem_of_empty (C := gset Z) a). rewrite <- E.
  apply elem_of_list_to_set. left.
Qed.

(** On a duplicate-free second list, the value the code computes is the
    Jaccard similarity of the two index sets, edge cases included. *)
Lemma JaccardSimilarity_spec_jaccard (genesA genesB : list Z) :
  NoDup genesB ->
  Delta.JaccardSimilarity genesA genesB
  = spec_jaccard (list_to_set genesA) (list_to_set genesB).
Proof.
  intros Hnd. unfold spec_jaccard.
  destruct (decide ((list_to_set genesA : gset Z) = ∅ ∧ (list_to_set genesB : gset Z) = ∅))
    as [[EA EB]|Hne].
  { apply list_to_set_empty_iff in EA, EB. subst. reflexivity. }
  destruct (decide ((list_to_set genesA : gset Z) = ∅ ∨ (list_to_set genesB : gset Z) = ∅))
    as [Hone|Hnone].
  { unfold Delta.JaccardSimilarity.
    destruct (decide (genesA = [] ∧ genesB = [])) as [[-> ->]|_].
    - exfalso. apply Hne. split; reflexivity.
    - destruct (decide (genesA = [] ∨ genesB = [])) as [_|Hn]; [reflexivity|].
      exfalso. apply Hn. rewrite <- !list_to_set_empty_iff. exact Hone. }
  apply JaccardSimilarity_sets; [| |exact Hnd].
  - intros ->. apply Hnone. left. reflexivity.
  - intros ->. apply Hnone. right. reflexivity.
Qed.

(** Where a candidate repeats an index the code's similarity is not that of
    the index sets: a candidate with the target's own gene set is passed
    over. *)
Lemma FindBestReference_repeated_index :
  Delta.FindBestReference (mkRow [1] [5]) [mkRow [1; 1; 1] [5; 5; 5]] [0] = Ok (-1)
  /\ spec_jaccard (list_to_set [1]) (list_to_set [1; 1; 1]) = 1%float.
Proof. split; vm_compute; reflexivity. Qed.

(** C7.  For a non-empty pool of candidates, each with its index and with
    indices free of repetition (as the strictly ascending indices of a row
    are), the selector returns [-1] when no candidate's Jaccard similarity
    [|A ∩ B| / |A ∪ B|] with the target exceeds 0.1, and otherwise the
    index of a candidate whose Jaccard similarity exceeds 0.1, that no
    candidate exceeds, and that no earlier candidate reaches.  A
    non-negative result is therefore never the index of a candidate chosen
    with Jaccard similarity [<= 0.1]. *)
Theorem FindBestReference_selects (targetCell : SparseRow) (candidates : list SparseRow)
    (candidateIndices : list Z) :
  candidates <> [] ->
  length candidateIndices = length candidates ->
  Forall (fun c => NoDup (Indices c)) candidates ->
  exists r,
    Delta.FindBestReference targetCell candidates candidateIndices = Ok r
    /\ spec_selected targetCell candidateIndices candidates r
    /\ (0 <= r ->
        exists (i : nat) (c : SparseRow),
          candidates !! i = Some c /\ candidateIndices !! i = Some r
          /\ (spec_jaccard (list_to_set (Indices targetCell)) (list_to_set (Indices c))
              <=? 0.1)%float = false).
Proof.
  intros _ Hlen Hnd.
  destruct (FindBestReference_selected targetCell candidates candidateIndices Hlen)
    as (r & Hr & Hsel).
  assert (HJ : forall c, c ∈ candidates ->
             Delta.JaccardSimilarity (Indices targetCell) (Indices c)
             = spec_jaccard (list_to_set (Indices targetCell)) (list_to_set (Indices c))).
  { intros c Hc. apply JaccardSimilarity_spec_jaccard.
    rewrite Forall_forall in Hnd. apply Hnd, Hc. }
  assert (Hspec : spec_selected targetCell candidateIndices candidates r).
  { destruct Hsel as [(-> & Hnone)|(i & c & Hi & Hix & Hthr & Hmax & Hearly)].
    - left. split; [reflexivity|]. intros c Hc. rewrite <- HJ by exact Hc. apply Hnone, Hc.
    - right. exists i, c.
      pose proof (list_elem_of_lookup_2 _ _ _ Hi) as Hc.
      split; [exact Hi|]. split; [exact Hix|]. rewrite <- (HJ c Hc).
      split; [exact Hthr|]. split.
      + intros c' Hc'. rewrite <- (HJ c' Hc'). apply Hmax, Hc'.
      + intros j c' Hj Hc'. rewrite <- (HJ c' (list_elem_of_lookup_2 _ _ _ Hc')).
        apply (Hearly j c' Hj Hc'). }
  exists r. split; [exact Hr|]. split; [exact Hspec|].
  intros Hpos. destruct Hspec as [(-> & _)|(i & c & Hi & Hix & Hthr & _)]; [lia|].
  exists i, c. repeat split; try assumption.
  apply float_ltb_not_leb, Hthr.
Qed.

Lemma FindBestReference_selects_witness :
  exists r,
    Delta.FindBestReference Scenario.cellB [Scenario.cellA] [0] = Ok r
    /\ spec_selected Scenario.cellB [0] [Scenario.cellA] r
    /\ (0 <= r ->
        exists (i : nat) (c : SparseRow),
          [Scenario.cellA] !! i = Some c /\ [0] !! i = Some r
          /\ (spec_jaccard (list_to_set (Indices Scenario.cellB)) (list_to_set (Indices c))
              <=? 0.1)%float = false).
Proof.
  refine (FindBestReference_selects Scenario.cellB [Scenario.cellA] [0] _ _ _).
  - discriminate.
  - reflexivity.
  - apply Forall_cons. split; [|apply Forall_nil_2].
    apply (bool_decide_unpack _). vm_compute. exact I.
Defined.

(** ** The row decoder *)

Section Truncate.
Import Decompressor.

Lemma truncate_spec (r : SparseRow) :
  let minLen := Nat.min (length (Indices r)) (length (Values r)) in
  truncate r = mkRow (take minLen (Indices r)) (take minLen (Values r)).
Proof.
  cbv zeta. unfold truncate.
  destruct (decide (length (Indices r) = length (Values r))) as [E|_]; [|reflexivity].
  rewrite <- E, Nat.min_id, take_ge by lia.
  rewrite E, take_ge by lia. destruct r; reflexivity.
Qed.

Lemma truncate_lengths (r : SparseRow) :
  length (Indices (truncate r)) = length (Values (truncate r)).
Proof. rewrite truncate_spec. cbn [Indices Values]. rewrite !length_take. lia. Qed.

End Truncate.

(** C10.  Every row that [decompressCell] returns has as many indices as
    values.  Whatever the decoding produced before the final adjustment, a
    row whose two sequences differ in length is not reported as an error:
    both are cut to the shorter length and the call succeeds. *)
Theorem decompressCell_equal_lengths (compressedRow : CompressedRow)
    (matrix : list SparseRow) (deltaEncoder : Delta.DeltaEncoder) (numGenes : Z) :
  (forall r,
      Decompressor.decompressCell compressedRow matrix deltaEncoder numGenes = Ok r ->
      length (Indices r) = length (Values r))
  /\ (forall r0,
         Decompressor.decode_cell compressedRow matrix deltaEncoder = Ok r0 ->
         let minLen := Nat.min (length (Indices r0)) (length (Values r0)) in
         Decompressor.decompressCell compressedRow matrix deltaEncoder numGenes
         = Ok (mkRow (take minLen (Indices r0)) (take minLen (Values r0)))).
Proof.
  unfold Decompressor.decompressCell. split.
  - intros r. destruct (Decompressor.decode_cell _ _ _) as [r0|e]; [|discriminate].
    cbn. intros [= <-]. apply truncate_lengths.
  - intros r0 ->. cbn. rewrite truncate_spec. reflexivity.
Qed.

(** A row with one decoded index and no delta bytes comes back empty. *)
Lemma decompressCell_equal_lengths_witness :
  Decompressor.decompressCell Scenario.indicesOnly [] Scenario.lossless 10
  = Ok (mkRow [] []).
Proof.
  refine (proj2 (decompressCell_equal_lengths Scenario.indicesOnly [] Scenario.lossless 10)
                (mkRow [5] []) _).
  vm_compute. reflexivity.
Defined.

(** ** The codecs at concrete inputs *)

(** C2.  Scenario 1 of the specification: [[1; 3; 5]] in universe 8 is
    accepted by the encoder, and decoding the bytes it produces succeeds
    with [[1; 4; 9]], not with the sequence that was encoded.  The encoder
    advances its position in the high-bits vector by each element's whole
    high part, where the decoder (and the vector's size) count the zeros as
    the high part itself. *)
Theorem elias_fano_roundtrip_scenario1 :
  EliasFano.ef_encode 33 8 [1; 3; 5] = Some (Ok Scenario.ef_1_3_5)
  /\ EliasFano.ef_decode Scenario.ef_1_3_5 = Ok [1; 4; 9].
Proof. split; vm_compute; reflexivity. Qed.

(** The decoder reads the layout in which element [i] sets bit
    [(seq[i] >> l) + i] of the high vector: with the bits 1, 4 and 7 set
    (the word 146) in place of the encoder's 1, 5 and 11 it returns
    [[1; 3; 5]]. *)
Lemma elias_fano_decoder_layout :
  EliasFano.ef_decode
    [8; 0; 0; 0; 3; 0; 0; 0; 0; 0; 0; 0; 0; 0; 0; 0; 12; 0; 0; 0; 146; 0; 0; 0; 0; 0; 0; 0]
  = Ok [1; 3; 5].
Proof. vm_compute. reflexivity. Qed.

(** Scenario 2 survives: with width 17 every element but the last has
    high part 0, so the positions agree with the decoder's. *)
Lemma elias_fano_roundtrip_scenario2 :
  (r ← EliasFano.ef_encode 33 1000000 [7; 42; 100000; 999999];
   Some (r ≫= EliasFano.ef_decode))
  = Some (Ok [7; 42; 100000; 999999]).
Proof. vm_compute. reflexivity. Qed.

(** The index sets of scenario 4 do not. *)
Lemma elias_fano_roundtrip_scenario4 :
  (r ← EliasFano.ef_encode 33 10 [1; 4; 7]; Some (r ≫= EliasFano.ef_decode))
  = Some (Ok [1; 4; 11])
  /\ (r ← EliasFano.ef_encode 33 10 [1; 4; 9]; Some (r ≫= EliasFano.ef_decode))
     = Some (Ok [1; 4; 13]).
Proof. split; vm_compute; reflexivity. Qed.

(** The empty sequence is encoded as no bytes at all, which the decoder's
    constructor rejects; the row decoder does not call it on empty bytes. *)
Lemma elias_fano_empty :
  EliasFano.ef_encode 33 8 [] = Some (Ok [])
  /\ EliasFano.ef_decode [] = Err ETooShort.
Proof. split; vm_compute; reflexivity. Qed.

(** C4.  [CompressDeltas] returns the varints of the deltas as they are,
    followed by the five bytes of an empty DEFLATE stream: for the deltas
    [[2; 5; 1]] the bytes [04 0a 02] and [01 00 00 ff ff].
    [DecompressDeltas] reads these bytes as a DEFLATE stream, here a
    dynamic block whose code-length code is incomplete, and fails. *)
Theorem CompressDeltas_not_deflated :
  Delta.CompressDeltas [2; 5; 1] = [4; 10; 2] ++ Flate.empty_stream
  /\ concat (map Varint.writeVarint [2; 5; 1]) = [4; 10; 2]
  /\ Delta.DecompressDeltas (Delta.CompressDeltas [2; 5; 1]) = Err ECorruptInput.
Proof. repeat split; vm_compute; reflexivity. Qed.

(** For every non-empty list of deltas the output starts with the raw
    varints and ends with the empty stream. *)
Lemma CompressDeltas_raw (deltas : list Z) :
  deltas <> [] ->
  Delta.CompressDeltas deltas = concat (map Varint.writeVarint deltas) ++ Flate.empty_stream.
Proof.
  intros H. unfold Delta.CompressDeltas. destruct (decide (deltas = [])); [contradiction|reflexivity].
Qed.

(** When the varints do pass through DEFLATE, the decoder returns them. *)
Lemma DecompressDeltas_stored :
  Delta.DecompressDeltas (Scenario.stored (concat (map Varint.writeVarint [2; 5; 1])))
  = Ok [2; 5; 1].
Proof. vm_compute. reflexivity. Qed.

(** With a reference in range, the row decoder is [ReconstructFromDelta]
    on the reference, the decoded deltas and the row's own decoded indices. *)
Lemma decode_cell_with_reference (compressedRow : CompressedRow) (matrix : list SparseRow)
    (deltaEncoder : Delta.DeltaEncoder) (refCell : SparseRow) (geneIndices deltas : list Z) :
  EliasGenes compressedRow <> [] ->
  EliasFano.ef_decode (EliasGenes compressedRow) = Ok geneIndices ->
  DeltaValues compressedRow <> [] ->
  Delta.DecompressDeltas (DeltaValues compressedRow) = Ok deltas ->
  0 <= RefCell compressedRow ->
  matrix !! Z.to_nat (RefCell compressedRow) = Some refCell ->
  Decompressor.decode_cell compressedRow matrix deltaEncoder
  = Delta.ReconstructFromDelta refCell deltas geneIndices.
Proof.
  intros Hg Hef Hd Hdelta Href Hm. unfold Decompressor.decode_cell.
  destruct (decide (EliasGenes compressedRow = [])); [contradiction|].
  unfold EliasFano.ef_decode in Hef.
  destruct (EliasFano.NewEliasDecoder (EliasGenes compressedRow)) as [d|e]; [|discriminate].
  cbn in Hef |- *. rewrite Hef. cbn.
  destruct (decide (DeltaValues compressedRow = [])); [contradiction|].
  rewrite Hdelta. cbn.
  assert (Hlt : RefCell compressedRow < Z.of_nat (length matrix)).
  { apply lookup_lt_Some in Hm. lia. }
  destruct (Z.leb_spec 0 (RefCell compressedRow)); [|lia].
  destruct (Z.ltb_spec (RefCell compressedRow) (Z.of_nat (length matrix))); [|lia].
  cbn. rewrite Hm. reflexivity.
Qed.

(** C5.  A cell with genes 1 and 9, encoded against a reference with genes
    1 and 4: the deltas [[1; -5; 2]] run over the union [[1; 4; 9]].  The
    row decoder hands the cell's own indices [[1; 9]] to
    [ReconstructFromDelta], which pairs gene 9 with the delta of gene 4:
    the decoded row has gene 1 only.  Over the sorted union the same
    deltas give the cell back. *)
Theorem decompressCell_reconstructs_over_own_indices :
  Delta.ComputeDelta Scenario.lossless Scenario.targetCell Scenario.refCell = Ok [1; -5; 2]
  /\ EliasFano.ef_decode (EliasGenes Scenario.targetRow) = Ok [1; 9]
  /\ Delta.DecompressDeltas (DeltaValues Scenario.targetRow) = Ok [1; -5; 2]
  /\ Decompressor.decompressCell Scenario.targetRow [Scenario.refCell] Scenario.lossless 10
     = Delta.ReconstructFromDelta Scenario.refCell [1; -5; 2] [1; 9]
  /\ Decompressor.decompressCell Scenario.targetRow [Scenario.refCell] Scenario.lossless 10
     = Ok (mkRow [1] [3])
  /\ Delta.ReconstructFromDelta Scenario.refCell [1; -5; 2] [1; 4; 9]
     = Ok Scenario.targetCell.
Proof. repeat split; vm_compute; reflexivity. Qed.

(** A varint whose first five bytes all carry the continuation bit is
    rejected. *)
Lemma readVarint_overlong (b0 b1 b2 b3 b4 : Z) (rest : list Z) :
  0x80 <= b0 -> 0x80 <= b1 -> 0x80 <= b2 -> 0x80 <= b3 -> 0x80 <= b4 ->
  Varint.readVarint (b0 :: b1 :: b2 :: b3 :: b4 :: rest) = Err ETooLarge.
Proof.
  intros H0 H1 H2 H3 H4. unfold Varint.readVarint. cbn [Varint.readVarint_loop].
  destruct (Z.ltb_spec b0 0x80); [lia|].
  destruct (Z.ltb_spec b1 0x80); [lia|].
  destruct (Z.ltb_spec b2 0x80); [lia|].
  destruct (Z.ltb_spec b3 0x80); [lia|].
  destruct (Z.ltb_spec b4 0x80); [lia|].
  reflexivity.
Qed.

Lemma writeVarint_nonempty (v : Z) : is_i32 v -> (1 <= length (Varint.writeVarint v))%nat.
Proof.
  intros Hv. pose proof (writeVarint_loop_shape _ (zigzag_range v Hv)) as [H _].
  unfold Varint.writeVarint. cbv zeta in H. lia.
Qed.

(** The delta loop returns the deltas it read before the first varint it
    cannot read, whatever the reason. *)
Lemma read_deltas_stops (deltas : list Z) (bad : list Z) (e : error) :
  Forall is_i32 deltas -> bad <> [] -> Varint.readVarint bad = Err e ->
  forall fuel,
    (length (concat (map Varint.writeVarint deltas) ++ bad) <= fuel)%nat ->
    Delta.read_deltas fuel (concat (map Varint.writeVarint deltas) ++ bad) = deltas.
Proof.
  intros Hds Hbad Herr. induction Hds as [|v ds Hv Hds IH]; intros fuel Hfuel.
  - cbn [map concat app] in *.
    destruct fuel as [|fuel]; [destruct bad; [contradiction|cbn in Hfuel; lia]|].
    cbn [Delta.read_deltas]. destruct (decide (bad = [])); [contradiction|].
    rewrite Herr. reflexivity.
  - cbn [map concat] in *. rewrite <- app_assoc in *.
    pose proof (writeVarint_nonempty v Hv) as Hlen.
    rewrite length_app in Hfuel.
    destruct fuel as [|fuel]; [lia|].
    cbn [Delta.read_deltas].
    destruct (decide (Varint.writeVarint v ++ concat (map Varint.writeVarint ds) ++ bad = []))
      as [Hnil|_].
    { apply (f_equal length) in Hnil. rewrite length_app in Hnil. cbn [length] in Hnil. lia. }
    rewrite readVarint_writeVarint by exact Hv.
    f_equal. apply IH. lia.
Qed.

(** C8.  A varint of six bytes makes [readVarint] fail with
    [bytes.ErrTooLarge].  [DecompressDeltas] leaves its loop on that error
    and returns the deltas read before it, with no error: here [[1]], and
    the row decoder accepts the row. *)
Theorem DecompressDeltas_swallows_overflow :
  Varint.readVarint [128; 128; 128; 128; 128; 1] = Err ETooLarge
  /\ Flate.inflate Scenario.overlong = Ok [2; 128; 128; 128; 128; 128; 1]
  /\ Delta.DecompressDeltas Scenario.overlong = Ok [1]
  /\ Decompressor.decompressCell (mkCRow Scenario.ef_5 Scenario.overlong (-1) 1 10) []
       Scenario.lossless 10
     = Ok (mkRow [5] [1]).
Proof. repeat split; vm_compute; reflexivity. Qed.

(** ** The parallel driver *)

(** C9.  Two cells, the second encoded against the first.  With two
    workers the schedule in which worker 1 decodes cell 1 before worker 0
    has published cell 0 is a run of the driver: cell 1 is then decoded
    against the empty slot, and the run returns, without error, other values
    for cell 1 than the run in which one worker does everything.  Nothing
    in the driver holds a cell back until its reference is published. *)
Theorem Decompress_depends_on_schedule :
  Driver.Decompress Scenario.no_quant 2 (Driver.sequential 2) Scenario.twoCells
  = Driver.Returned (Ok ([mkRow [1; 4] [2; 5]; mkRow [1; 4] [3; 7]],
                         Scenario.gene_names, Scenario.cell_names))
  /\ Driver.Decompress Scenario.no_quant 1 (Driver.sequential 2) Scenario.twoCells
     = Driver.Returned (Ok ([mkRow [1; 4] [2; 5]; mkRow [1; 4] [3; 7]],
                            Scenario.gene_names, Scenario.cell_names))
  /\ Driver.run Scenario.twoCells Scenario.lossless [0; 1; 0; 1]%nat
       (Driver.init 2 Scenario.twoCells)
     = Driver.mkState [mkRow [] []; mkRow [] []] None []
         [Driver.Decoded 0 (Ok (mkRow [1; 4] [2; 5]));
          Driver.Decoded 1 (Ok (mkRow [1; 4] [1; 2]))]
  /\ Driver.Decompress Scenario.no_quant 2 [0; 1; 0; 1; 0; 1]%nat Scenario.twoCells
     = Driver.Returned (Ok ([mkRow [1; 4] [2; 5]; mkRow [1; 4] [1; 2]],
                            Scenario.gene_names, Scenario.cell_names)).
Proof. repeat split; vm_compute; reflexivity. Qed.

(** A cell whose decoding fails whatever the matrix holds is never
    published: its slot keeps the empty row in every run. *)
Section FailingCell.
Import Driver.
Variable compressed : CompressedData.
Variable de : Delta.DeltaEncoder.
Hypothesis cell0_fails :
  forall compressedRow matrix,
    CompressedRows compressed !! 0%nat = Some compressedRow ->
    is_Ok (Decompressor.decompressCell compressedRow matrix de
             (H_NumGenes (header compressed))) = false.

Lemma step_slot0_empty (s : state) (w : nat) :
  slot0_empty s -> slot0_empty (step compressed de s w).
Proof.
  intros [Hm Hw]. unfold step.
  destruct (workers s !! w) as [[|cellIdx|cellIdx [row|e]|]|] eqn:Ew; try (split; assumption).
  - destruct (jobs s) as [|j js]; [split; assumption|].
    split; [exact Hm|]. cbn [workers]. intros w' row H.
    apply list_lookup_insert_Some in H as [(_ & H & _)|(_ & H)]; [discriminate|].
    exact (Hw _ _ H).
  - assert (Hset : forall x, (forall row, x <> Decoded 0 (Ok row)) ->
                     slot0_empty (set_worker w x s)).
    { intros x Hx. split; [exact Hm|]. cbn [set_worker workers]. intros w' row H.
      apply list_lookup_insert_Some in H as [(_ & H & _)|(_ & H)].
      - exact (Hx _ H).
      - exact (Hw _ _ H). }
    destruct (CompressedRows compressed !! cellIdx) as [compressedRow|] eqn:Er.
    + pose proof (cell0_fails compressedRow (matrix s)) as Hf.
      destruct (Decompressor.decompressCell compressedRow (matrix s) de
                  (H_NumGenes (header compressed))) as [row|e] eqn:Ed.
      * apply Hset. intros row' [= -> _]. specialize (Hf Er). discriminate.
      * destruct e; apply Hset; discriminate.
    + apply Hset. discriminate.
  - split; cbn [matrix workers].
    + rewrite list_lookup_insert_ne; [exact Hm|].
      intros ->. exact (Hw _ _ Ew).
    + intros w' row' H.
      apply list_lookup_insert_Some in H as [(_ & H & _)|(_ & H)]; [discriminate|].
      exact (Hw _ _ H).
  - split; [exact Hm|]. cbn [workers]. intros w' row' H.
    apply list_lookup_insert_Some in H as [(_ & H & _)|(_ & H)]; [discriminate|].
    exact (Hw _ _ H).
Qed.

Lemma run_slot0_empty (schedule : list nat) :
  forall s, slot0_empty s -> slot0_empty (run compressed de schedule s).
Proof.
  unfold run. induction schedule as [|w schedule IH]; intros s Hs; [exact Hs|].
  cbn [foldl]. apply IH, step_slot0_empty, Hs.
Qed.

Lemma init_slot0_empty (numWorkers : nat) :
  0 < NumCells (header compressed) -> slot0_empty (init numWorkers compressed).
Proof.
  intros Hn. unfold init. split; cbn [matrix workers].
  - apply lookup_replicate_2. lia.
  - intros w row H. apply lookup_replicate_1 in H as [H _]. discriminate.
Qed.

End FailingCell.

Lemma Decompress_slot0_empty (compressed : CompressedData) :
  IsLossy (header compressed) = false ->
  0 < NumCells (header compressed) ->
  (forall compressedRow matrix,
      CompressedRows compressed !! 0%nat = Some compressedRow ->
      is_Ok (Decompressor.decompressCell compressedRow matrix
               (Delta.NewDeltaEncoder false (Threshold (header compressed))
                  (QuantLevels (header compressed)))
               (H_NumGenes (header compressed))) = false) ->
  forall math_dequant numWorkers schedule rows genes cells,
    Driver.Decompress math_dequant numWorkers schedule compressed
    = Driver.Returned (Ok (rows, genes, cells)) ->
    rows !! 0%nat = Some (mkRow [] []).
Proof.
  intros Hlossy Hn Hfail math_dequant numWorkers schedule rows genes cells.
  unfold Driver.Decompress. rewrite Hlossy.
  pose proof (run_slot0_empty compressed _ Hfail schedule _
                (init_slot0_empty compressed numWorkers Hn)) as [Hm _].
  destruct (Driver.panicked _); [discriminate|].
  destruct (negb (Driver.finished _)); [discriminate|].
  destruct (Driver.decompressErr _); [discriminate|].
  intros [= <- _ _]. exact Hm.
Qed.

(** C1.  Scenario 4 of the specification in lossless mode: the compressor
    accepts the two cells, and no run of the decompressor on what it
    produces returns them.  With one worker the decompressor returns an
    error for cell 0; with any number of workers and any schedule, the slot
    of cell 0 is never filled, since its delta bytes are not a DEFLATE
    stream. *)
Theorem lossless_roundtrip_scenario4 :
  Compressor.Compress Scenario.no_quant 33 Scenario.lossless 1 0
    [Scenario.cellA; Scenario.cellB] Scenario.gene_names Scenario.cell_names
  = Some (Ok Scenario.compressedAB)
  /\ Driver.Decompress Scenario.no_quant 1 (Driver.sequential 2) Scenario.compressedAB
     = Driver.Returned (Err (EWrapped (EWrapped ECorruptInput)))
  /\ forall math_dequant numWorkers schedule,
       Driver.Decompress math_dequant numWorkers schedule Scenario.compressedAB
       <> Driver.Returned (Ok ([Scenario.cellA; Scenario.cellB],
                               Scenario.gene_names, Scenario.cell_names)).
Proof.
  split; [vm_compute; reflexivity|]. split; [vm_compute; reflexivity|].
  intros math_dequant numWorkers schedule H.
  apply Decompress_slot0_empty in H; [discriminate|reflexivity|reflexivity|].
  intros compressedRow matrix [= <-]. vm_compute. reflexivity.
Qed.

(** * Further properties of the code *)

(** ** Little-endian fields *)

Lemma length_le_bytes (n : nat) (z : Z) : length (le_bytes n z) = n.
Proof. revert z. induction n as [|n IH]; intros z; cbn; [reflexivity|]. rewrite IH. reflexivity. Qed.

Lemma le_value_le_bytes (n : nat) :
  forall z, 0 <= z < 256 ^ Z.of_nat n -> le_value (le_bytes n z) = z.
Proof.
  induction n as [|n IH]; intros z Hz.
  - cbn in *. lia.
  - cbn [le_bytes le_value]. rewrite IH.
    + pose proof (Z.div_mod z 256). lia.
    + rewrite Nat2Z.inj_succ, Z.pow_succ_r in Hz by lia.
      split; [apply Z.div_pos; lia|apply Z.div_lt_upper_bound; lia].
Qed.

Lemma read_le_le_bytes (n : nat) (z : Z) (rest : list Z) :
  (0 < n)%nat -> 0 <= z < 256 ^ Z.of_nat n ->
  read_le n (le_bytes n z ++ rest) = Ok (z, rest).
Proof.
  intros Hn Hz. unfold read_le.
  destruct (decide (le_bytes n z ++ rest = [])) as [E|_].
  { apply (f_equal length) in E. rewrite length_app, length_le_bytes in E. cbn in E. lia. }
  destruct (decide (length (le_bytes n z ++ rest) < n)%nat) as [E|_].
  { rewrite length_app, length_le_bytes in E. lia. }
  rewrite take_app_length' by (symmetry; apply length_le_bytes).
  rewrite drop_app_length' by (symmetry; apply length_le_bytes).
  rewrite le_value_le_bytes by exact Hz. reflexivity.
Qed.

Lemma read_le32 (z : Z) (rest : list Z) :
  0 <= z < 2 ^ 32 -> read_le 4 (le_bytes 4 z ++ rest) = Ok (z, rest).
Proof. intros Hz. apply read_le_le_bytes; [lia|exact Hz]. Qed.

(** ** Strings and rows of the container *)

Section Container.
Import IO.

Lemma Read_exact (s rest : list Z) :
  s <> [] \/ rest <> [] -> Read (length s) (s ++ rest) = Ok (s, rest).
Proof.
  intros H. unfold Read.
  destruct (decide (s ++ rest = [])) as [E|_].
  { apply app_eq_nil in E as [-> ->]. destruct H; contradiction. }
  rewrite take_app_length, drop_app_length, length_app.
  replace (length s - (length s + length rest))%nat with 0%nat by lia.
  cbn. rewrite app_nil_r. reflexivity.
Qed.

Lemma readString_writeString (s rest : list Z) :
  Z.of_nat (length s) < 2 ^ 32 -> s <> [] \/ rest <> [] ->
  readString (writeString s ++ rest) = Ok (s, rest).
Proof.
  intros Hlen H. unfold readString, writeString.
  rewrite wrap32_small by lia. rewrite <- app_assoc, read_le32 by lia.
  cbn. rewrite Nat2Z.id. apply Read_exact, H.
Qed.

End Container.

(** X1.  A string written by [writeString] is read back by [readString],
    which leaves the reader at the bytes that follow, provided the string
    is not empty or is not the last thing in the input: an empty string at
    the very end of the input makes [readString] fail with [io.EOF],
    because [bytes.Reader.Read] reports end of input before it looks at the
    length of the buffer it is to fill. *)
Theorem readString_roundtrip (s rest : list Z) :
  Z.of_nat (length s) < 2 ^ 32 ->
  (s <> [] \/ rest <> [] -> IO.readString (IO.writeString s ++ rest) = Ok (s, rest))
  /\ (s = [] -> rest = [] -> IO.readString (IO.writeString s ++ rest) = Err EEOF).
Proof.
  intros Hlen. split.
  - apply readString_writeString, Hlen.
  - intros -> ->. reflexivity.
Qed.

Lemma readString_roundtrip_witness :
  IO.readString (IO.writeString [71; 49] ++ [9]) = Ok ([71; 49], [9]).
Proof.
  refine (proj1 (readString_roundtrip [71; 49] [9] _) _).
  - vm_compute. reflexivity.
  - left. discriminate.
Defined.

(** X2.  [readString] never reports a string that is cut short: when the
    declared length exceeds the bytes that are left (and at least one is
    left), it returns the bytes there are, padded with zero bytes up to the
    declared length, and no error. *)
Theorem readString_short_read (len : Z) (data : list Z) :
  0 <= len < 2 ^ 32 -> data <> [] -> (length data < Z.to_nat len)%nat ->
  IO.readString (le_bytes 4 len ++ data)
  = Ok (data ++ replicate (Z.to_nat len - length data) 0, []).
Proof.
  intros Hlen Hdata Hshort. unfold IO.readString.
  rewrite read_le32 by exact Hlen. cbn. unfold IO.Read.
  destruct (decide (data = [])); [contradiction|].
  rewrite take_ge, drop_ge by lia. reflexivity.
Qed.

Lemma readString_short_read_witness :
  IO.readString (le_bytes 4 5 ++ [65; 66]) = Ok ([65; 66; 0; 0; 0], []).
Proof.
  refine (readString_short_read 5 [65; 66] _ _ _).
  - vm_compute. split; [discriminate|reflexivity].
  - discriminate.
  - vm_compute. lia.
Defined.

Section ContainerSlices.
Import IO.

Lemma writeString_nonempty (s : list Z) : writeString s <> [].
Proof.
  unfold writeString. intros E. apply (f_equal length) in E.
  rewrite length_app, length_le_bytes in E. cbn in E. lia.
Qed.

Lemma readStrings_writeStrings (strings : list (list Z)) :
  forall rest,
    Forall (fun s => Z.of_nat (length s) < 2 ^ 32) strings ->
    (strings = [] \/ last strings <> Some [] \/ rest <> []) ->
    readStrings (length strings) (concat (map writeString strings) ++ rest)
    = Ok (strings, rest).
Proof.
  induction strings as [|s ss IH]; intros rest Hlen Hlast; [reflexivity|].
  apply Forall_cons in Hlen as [Hs Hss].
  cbn [length readStrings map concat]. rewrite <- app_assoc.
  rewrite readString_writeString; [|exact Hs|].
  - cbn. rewrite IH; [reflexivity|exact Hss|].
    destruct ss as [|s' ss']; [left; reflexivity|right].
    destruct Hlast as [Hlast|[Hlast|Hlast]]; [discriminate|left|right; exact Hlast].
    exact Hlast.
  - destruct ss as [|s' ss'].
    + destruct Hlast as [Hlast|[Hlast|Hlast]]; [discriminate| |right; exact Hlast].
      left. intros ->. apply Hlast. reflexivity.
    + right. cbn [map concat]. rewrite <- app_assoc. intros E.
      apply app_eq_nil in E as [E _]. exact (writeString_nonempty _ E).
Qed.

End ContainerSlices.

(** X3.  A table of strings written by [writeStringSlice] is read back by
    [readStringSlice], in order and with the reader left at the bytes that
    follow, unless the table ends the input with an empty string. *)
Theorem readStringSlice_roundtrip (strings : list (list Z)) (rest : list Z) :
  Z.of_nat (length strings) < 2 ^ 32 ->
  Forall (fun s => Z.of_nat (length s) < 2 ^ 32) strings ->
  (strings = [] \/ last strings <> Some [] \/ rest <> []) ->
  IO.readStringSlice (IO.writeStringSlice strings ++ rest) = Ok (strings, rest).
Proof.
  intros Hn Hlen Hlast. unfold IO.readStringSlice, IO.writeStringSlice.
  rewrite wrap32_small by lia. rewrite <- app_assoc, read_le32 by lia.
  cbn. rewrite Nat2Z.id. apply readStrings_writeStrings; assumption.
Qed.

Lemma readStringSlice_roundtrip_witness :
  IO.readStringSlice (IO.writeStringSlice [[71; 49]; []; [71; 50]] ++ [])
  = Ok ([[71; 49]; []; [71; 50]], []).
Proof.
  refine (readStringSlice_roundtrip [[71; 49]; []; [71; 50]] [] _ _ _).
  - vm_compute. reflexivity.
  - repeat constructor.
  - right. left. discriminate.
Defined.

(** The same table with the empty name last cannot be read back. *)
Lemma readStringSlice_trailing_empty :
  IO.readStringSlice (IO.writeStringSlice [[71; 49]; []]) = Err EEOF.
Proof. vm_compute. reflexivity. Qed.

Lemma int32_of_wrap_small (r : Z) : is_i32 r -> int32_of (wrap32 r) = r.
Proof.
  unfold is_i32, int32_of, wrap32. change (2 ^ 32) with 4294967296.
  change (2 ^ 31) with 2147483648. intros Hr.
  rewrite Z.mod_mod by lia.
  destruct (Z.ltb_spec (r mod 4294967296) 2147483648); euclid.
Qed.

(** X4.  A compressed row written by [writeCompressedRow] is read back
    field for field by [readCompressedRow], provided its delta bytes are
    not empty or the row is not the last thing in the input.  A row with no
    delta bytes at the very end of the input (the last cell of a matrix
    when that cell expresses no gene) is not read back: [readCompressedRow]
    fails with [io.EOF]. *)
Theorem readCompressedRow_roundtrip (row : CompressedRow) (rest : list Z) :
  is_i32 (RefCell row) ->
  0 <= NumGenes row < 2 ^ 32 ->
  0 <= MaxGeneIndex row < 2 ^ 32 ->
  Z.of_nat (length (EliasGenes row)) < 2 ^ 32 ->
  Z.of_nat (length (DeltaValues row)) < 2 ^ 32 ->
  (DeltaValues row <> [] \/ rest <> [] ->
   IO.readCompressedRow (IO.writeCompressedRow row ++ rest) = Ok (row, rest))
  /\ (DeltaValues row = [] -> rest = [] ->
      IO.readCompressedRow (IO.writeCompressedRow row ++ rest) = Err EEOF).
Proof.
  intros Hr Hn Hm He Hd.
  assert (Hw : 0 <= wrap32 (RefCell row) < 2 ^ 32).
  { unfold wrap32. apply Z.mod_pos_bound. lia. }
  assert (Hrd :
    IO.readCompressedRow (IO.writeCompressedRow row ++ rest)
    = ('(deltaValues, r7) ← IO.Read (length (DeltaValues row)) (DeltaValues row ++ rest);
       Ok (mkCRow (EliasGenes row) deltaValues (RefCell row) (NumGenes row)
             (MaxGeneIndex row), r7))).
  { unfold IO.readCompressedRow, IO.writeCompressedRow.
    rewrite !(wrap32_small (Z.of_nat _)) by lia. rewrite <- !app_assoc.
    rewrite read_le32 by exact Hw. cbn [mbind result_bind].
    rewrite read_le32 by exact Hn. cbn [mbind result_bind].
    rewrite read_le32 by exact Hm. cbn [mbind result_bind].
    rewrite read_le32 by lia. cbn [mbind result_bind]. rewrite Nat2Z.id.
    rewrite Read_exact.
    - cbn [mbind result_bind]. rewrite read_le32 by lia. cbn [mbind result_bind].
      rewrite Nat2Z.id, int32_of_wrap_small by exact Hr. reflexivity.
    - right. intros E. apply app_eq_nil in E as [E _].
      apply (f_equal length) in E. rewrite length_le_bytes in E. discriminate. }
  rewrite Hrd. split.
  - intros H. rewrite Read_exact by exact H. destruct row; reflexivity.
  - intros -> ->. reflexivity.
Qed.

Lemma readCompressedRow_roundtrip_witness :
  IO.readCompressedRow (IO.writeCompressedRow Scenario.targetRow ++ [])
  = Ok (Scenario.targetRow, []).
Proof.
  refine (proj1 (readCompressedRow_roundtrip Scenario.targetRow [] _ _ _ _ _) _);
    try (vm_compute; split; [discriminate|reflexivity]); try (vm_compute; reflexivity).
  left. vm_compute. discriminate.
Defined.

(** ** Bit arrays *)

Section BitArrayFacts.
Import BitArray.

Lemma shl64_1 b : 0 <= b < 64 -> shl64 1 b = 2 ^ b.
Proof.
  intros H. unfold shl64. destruct (Z.leb_spec 64 b); [lia|].
  rewrite Z.shiftl_1_l. unfold wrap64. apply Z.mod_small. split.
  - apply Z.pow_nonneg. lia.
  - apply Z.pow_lt_mono_r; lia.
Qed.

Lemma land_pow2_testbit w b :
  0 <= b -> negb (Z.land w (2 ^ b) =? 0) = Z.testbit w b.
Proof.
  intros Hb. destruct (Z.testbit w b) eqn:E.
  - destruct (Z.eqb_spec (Z.land w (2 ^ b)) 0) as [H0|]; [|reflexivity].
    assert (Ht : Z.testbit (Z.land w (2 ^ b)) b = true).
    { rewrite Z.land_spec, E, Z.pow2_bits_true by lia. reflexivity. }
    rewrite H0, Z.bits_0 in Ht. discriminate.
  - replace (Z.land w (2 ^ b)) with 0; [reflexivity|].
    symmetry. apply Z.bits_inj'. intros n Hn.
    rewrite Z.land_spec, Z.bits_0, Z.pow2_bits_eqb by lia.
    destruct (Z.eqb_spec b n) as [->|]; [rewrite E|]; cbn; [reflexivity|apply andb_false_r].
Qed.

Lemma lor_range a b k :
  0 <= k -> 0 <= a < 2 ^ k -> 0 <= b < 2 ^ k -> 0 <= Z.lor a b < 2 ^ k.
Proof.
  intros Hk Ha Hb. assert (H0 : 0 <= Z.lor a b) by (apply Z.lor_nonneg; lia).
  split; [exact H0|].
  destruct (Z.eq_dec (Z.lor a b) 0) as [->|Hne]; [apply Z.pow_pos_nonneg; lia|].
  assert (Hlog : forall x, 0 <= x < 2 ^ k -> 0 < k -> Z.log2 x < k).
  { intros x Hx Hk0. destruct (Z.eq_dec x 0) as [->|]; [cbn; lia|].
    apply Z.log2_lt_pow2; lia. }
  assert (Hk0 : 0 < k).
  { destruct (Z.eq_dec k 0) as [->|]; [|lia].
    change (2 ^ 0) with 1 in *. assert (a = 0) by lia. assert (b = 0) by lia.
    subst a b. exfalso. apply Hne. reflexivity. }
  apply Z.log2_lt_pow2; [lia|]. rewrite Z.log2_lor by lia.
  apply Z.max_lub_lt; apply Hlog; assumption.
Qed.

Lemma word_in_range (ba : t) (p : Z) :
  bitarray_wf ba -> 0 <= p < Size ba ->
  exists w, Data ba !! Z.to_nat (p / 64) = Some w /\ 0 <= w < 2 ^ 64.
Proof.
  intros (H0 & H63 & Hlen & Hw) Hp.
  destruct (Data ba !! Z.to_nat (p / 64)) as [w|] eqn:E.
  - exists w. split; [reflexivity|].
    rewrite Forall_forall in Hw. apply Hw. eapply list_elem_of_lookup_2, E.
  - apply lookup_ge_None in E. rewrite Hlen in E.
    assert (0 <= p / 64) by (apply Z.div_pos; lia).
    assert (p / 64 < (Size ba + 63) / 64) by euclid. lia.
Qed.

(** On a well-formed array [GetBit] never panics. *)
Lemma GetBit_wf (ba : t) (p : Z) :
  bitarray_wf ba -> 0 <= p -> GetBit ba p = Ok (bitAt ba p).
Proof.
  intros Hwf Hp. unfold GetBit, bitAt.
  destruct (Z.leb_spec (Size ba) p); [reflexivity|].
  destruct (word_in_range ba p Hwf) as (w & -> & _); [lia|].
  cbn. rewrite shl64_1 by (apply Z.mod_pos_bound; lia).
  rewrite land_pow2_testbit by (apply Z.mod_pos_bound; lia). reflexivity.
Qed.

Lemma SetBit_wf (ba : t) (pos : Z) :
  bitarray_wf ba -> 0 <= pos ->
  exists ba', SetBit ba pos = Ok ba' /\ bitarray_wf ba' /\ Size ba' = Size ba
    /\ forall q, 0 <= q ->
         bitAt ba' q = bitAt ba q || ((q =? pos) && (pos <? Size ba)).
Proof.
  intros Hwf Hpos. unfold SetBit.
  destruct (Z.leb_spec (Size ba) pos) as [Hout|Hin].
  - exists ba. split; [reflexivity|]. split; [exact Hwf|]. split; [reflexivity|].
    intros q Hq.
    destruct (Z.ltb_spec pos (Size ba)); [lia|]. rewrite andb_false_r, orb_false_r. reflexivity.
  - destruct (word_in_range ba pos Hwf) as (w & Hw & Hwr); [lia|]. rewrite Hw.
    pose proof (Z.mod_pos_bound pos 64 ltac:(lia)) as Hb.
    rewrite shl64_1 by exact Hb.
    eexists. split; [reflexivity|]. destruct Hwf as (H0 & H63 & Hlen & Hall).
    split; [|split; [reflexivity|]].
    + repeat split; cbn [Size Data]; try assumption.
      * rewrite length_insert. exact Hlen.
      * apply Forall_insert; [exact Hall|]. apply lor_range; [lia|exact Hwr|].
        split; [apply Z.pow_nonneg; lia|apply Z.pow_lt_mono_r; lia].
    + intros q Hq. unfold bitAt. cbn [Size Data].
      destruct (Z.ltb_spec pos (Size ba)); [|lia]. rewrite andb_true_r.
      destruct (Z.leb_spec (Size ba) q).
      { destruct (Z.eqb_spec q pos); [lia|reflexivity]. }
      destruct (decide (Z.to_nat (pos / 64) = Z.to_nat (q / 64))) as [Ewi|Ewi].
      * rewrite <- Ewi, list_lookup_insert_eq, Hw
          by (apply lookup_lt_Some in Hw; exact Hw).
        cbn [from_option id]. rewrite Z.lor_spec, Z.pow2_bits_eqb by lia.
        f_equal.
        assert (pos / 64 = q / 64).
        { apply Z2Nat.inj; [apply Z.div_pos; lia|apply Z.div_pos; lia|exact Ewi]. }
        pose proof (Z.div_mod pos 64). pose proof (Z.div_mod q 64).
        destruct (Z.eqb_spec (pos mod 64) (q mod 64)), (Z.eqb_spec q pos);
          try reflexivity; try lia; subst; lia.
      * rewrite list_lookup_insert_ne by exact Ewi.
        destruct (Z.eqb_spec q pos) as [->|]; [contradiction|].
        rewrite orb_false_r. reflexivity.
Qed.

End BitArrayFacts.

(** X5.  On a well-formed bit array (one word per 64 bits of [Size])
    [SetBit] never fails and keeps the array well formed; afterwards
    [GetBit] reports the bit at [pos] as set when [pos] is within [Size],
    and every other bit as it was.  Out of range, [SetBit] changes nothing
    and says nothing. *)
Theorem SetBit_GetBit (ba : BitArray.t) (pos : Z) :
  bitarray_wf ba -> 0 <= pos ->
  exists ba',
    BitArray.SetBit ba pos = Ok ba' /\ bitarray_wf ba'
    /\ (pos < BitArray.Size ba -> BitArray.GetBit ba' pos = Ok true)
    /\ (BitArray.Size ba <= pos -> ba' = ba)
    /\ forall q, 0 <= q -> q <> pos -> BitArray.GetBit ba' q = BitArray.GetBit ba q.
Proof.
  intros Hwf Hpos.
  destruct (SetBit_wf ba pos Hwf Hpos) as (ba' & Hset & Hwf' & Hsize & Hbits).
  exists ba'. split; [exact Hset|]. split; [exact Hwf'|]. split; [|split].
  - intros Hin. rewrite GetBit_wf, Hbits by assumption.
    rewrite Z.eqb_refl. destruct (Z.ltb_spec pos (BitArray.Size ba)); [|lia].
    rewrite orb_true_r. reflexivity.
  - intros Hout. unfold BitArray.SetBit in Hset.
    destruct (Z.leb_spec (BitArray.Size ba) pos); [|lia]. congruence.
  - intros q Hq Hne. rewrite !GetBit_wf, Hbits by assumption.
    destruct (Z.eqb_spec q pos); [contradiction|]. rewrite orb_false_r. reflexivity.
Qed.

Section BitArrayLoops.
Import BitArray.

Ltac case_test :=
  first
    [ match goal with |- context [?x <=? ?y] => destruct (Z.leb_spec x y) end
    | match goal with |- context [?x <? ?y] => destruct (Z.ltb_spec x y) end
    | match goal with |- context [?x =? ?y] => destruct (Z.eqb_spec x y) end ].

Ltac bool_cases :=
  repeat case_test;
  try lia; cbn [andb orb];
  rewrite ?orb_false_r, ?andb_false_r, ?andb_true_r, ?orb_true_r;
  try reflexivity; try lia.

Lemma NewBitArray_wf (size : Z) :
  0 <= size -> size + 63 < 2 ^ 32 ->
  bitarray_wf (NewBitArray size) /\ forall q, bitAt (NewBitArray size) q = false.
Proof.
  intros H0 H63. unfold NewBitArray. rewrite wrap32_small by lia. split.
  - repeat split; cbn [Size Data]; try assumption.
    + apply length_replicate.
    + apply Forall_replicate. split; [lia|apply Z.pow_pos_nonneg; lia].
  - intros q. unfold bitAt. cbn [Size Data].
    destruct (Z.leb_spec size q); [reflexivity|].
    destruct (replicate _ 0 !! _) as [w|] eqn:E; [|apply Z.testbit_0_l].
    apply lookup_replicate_1 in E as [-> _]. apply Z.testbit_0_l.
Qed.

(** The bit of [value] that [WriteBits] tests in iteration [i]. *)
Lemma value_bit (value i : Z) :
  0 <= i -> negb (Z.land value (shl64 1 i) =? 0) = Z.testbit value i && (i <? 64).
Proof.
  intros Hi. destruct (Z.ltb_spec i 64).
  - rewrite shl64_1, land_pow2_testbit, andb_true_r by lia. reflexivity.
  - unfold shl64. destruct (Z.leb_spec 64 i); [|lia].
    rewrite Z.land_0_r, andb_false_r. reflexivity.
Qed.

Lemma WriteBits_loop_wf (m : nat) :
  forall (i : Z) (ba : t) (pos value : Z),
    bitarray_wf ba -> 0 <= pos -> 0 <= i -> pos + i + Z.of_nat m <= 2 ^ 32 ->
    exists ba',
      WriteBits_loop m i ba pos value = Ok ba' /\ bitarray_wf ba' /\ Size ba' = Size ba
      /\ forall q, 0 <= q ->
           bitAt ba' q
           = bitAt ba q
             || ((pos + i <=? q) && (q <? pos + i + Z.of_nat m) && (q <? Size ba)
                 && Z.testbit value (q - pos) && (q - pos <? 64)).
Proof.
  induction m as [|m IH]; intros i ba pos value Hwf Hpos Hi Hfit.
  - exists ba. split; [reflexivity|]. split; [exact Hwf|]. split; [reflexivity|].
    intros q Hq. destruct (Z.leb_spec (pos + i) q), (Z.ltb_spec q (pos + i + Z.of_nat 0));
      try lia; cbn; rewrite orb_false_r; reflexivity.
  - cbn [WriteBits_loop]. rewrite value_bit by exact Hi.
    assert (Hstep : exists ba1,
      (if Z.testbit value i && (i <? 64) then SetBit ba (wrap32 (pos + i)) else Ok ba) = Ok ba1
      /\ bitarray_wf ba1 /\ Size ba1 = Size ba
      /\ forall q, 0 <= q ->
           bitAt ba1 q = bitAt ba q
             || ((q =? pos + i) && (q <? Size ba) && Z.testbit value i && (i <? 64))).
    { rewrite wrap32_small by lia.
      destruct (Z.testbit value i && (i <? 64)) eqn:Eb.
      - destruct (SetBit_wf ba (pos + i) Hwf ltac:(lia)) as (ba1 & H1 & H2 & H3 & H4).
        exists ba1. repeat split; try assumption; try apply H2.
        intros q Hq. rewrite H4 by exact Hq.
        apply andb_true_iff in Eb as [-> ->]. rewrite !andb_true_r.
        destruct (Z.eqb_spec q (pos + i)) as [->|]; reflexivity.
      - exists ba. repeat split; try assumption; try apply Hwf.
        intros q Hq. rewrite <- andb_assoc, Eb, andb_false_r, orb_false_r. reflexivity. }
    destruct Hstep as (ba1 & -> & Hwf1 & Hsz1 & Hb1). cbn [mbind result_bind].
    destruct (IH (i + 1) ba1 pos value Hwf1 Hpos ltac:(lia) ltac:(lia))
      as (ba' & -> & Hwf' & Hsz' & Hb').
    exists ba'. split; [reflexivity|]. split; [exact Hwf'|]. split; [congruence|].
    intros q Hq. rewrite Hb', Hb1, Hsz1 by exact Hq. rewrite <- orb_assoc. f_equal.
    destruct (Z.eqb_spec q (pos + i)) as [->|Hne].
    + replace (pos + i - pos) with i by lia. bool_cases.
    + bool_cases.
Qed.

Lemma ReadBits_loop_bits (m : nat) :
  forall (i : Z) (ba : t) (pos acc : Z),
    bitarray_wf ba -> 0 <= pos -> 0 <= i -> pos + i + Z.of_nat m <= 2 ^ 32 -> 0 <= acc ->
    exists r,
      ReadBits_loop m i ba pos acc = Ok r /\ 0 <= r
      /\ forall j, 0 <= j ->
           Z.testbit r j
           = Z.testbit acc j
             || ((i <=? j) && (j <? i + Z.of_nat m) && (j <? 64) && bitAt ba (pos + j)).
Proof.
  induction m as [|m IH]; intros i ba pos acc Hwf Hpos Hi Hfit Hacc.
  - exists acc. split; [reflexivity|]. split; [exact Hacc|]. intros j Hj.
    destruct (Z.leb_spec i j), (Z.ltb_spec j (i + Z.of_nat 0)); try lia;
      cbn; rewrite orb_false_r; reflexivity.
  - cbn [ReadBits_loop]. rewrite wrap32_small by lia.
    rewrite GetBit_wf by (try exact Hwf; lia). cbn [mbind result_bind].
    set (acc' := if bitAt ba (pos + i) then Z.lor acc (shl64 1 i) else acc).
    assert (Hacc' : 0 <= acc' /\ forall j, 0 <= j ->
              Z.testbit acc' j
              = Z.testbit acc j || ((j =? i) && (j <? 64) && bitAt ba (pos + i))).
    { subst acc'. destruct (bitAt ba (pos + i)).
      - destruct (Z.ltb_spec i 64).
        + rewrite shl64_1 by lia. split.
          * apply Z.lor_nonneg. split; [lia|apply Z.pow_nonneg; lia].
          * intros j Hj. rewrite Z.lor_spec, Z.pow2_bits_eqb by lia. f_equal.
            destruct (Z.eqb_spec i j), (Z.eqb_spec j i), (Z.ltb_spec j 64);
              try lia; reflexivity.
        + unfold shl64. destruct (Z.leb_spec 64 i); [|lia]. rewrite Z.lor_0_r.
          split; [lia|]. intros j Hj.
          destruct (Z.eqb_spec j i), (Z.ltb_spec j 64); try lia;
            cbn; rewrite orb_false_r; reflexivity.
      - split; [lia|]. intros j Hj. rewrite andb_false_r, orb_false_r. reflexivity. }
    destruct Hacc' as [Hacc0 Haccb].
    destruct (IH (i + 1) ba pos acc' Hwf Hpos ltac:(lia) ltac:(lia) Hacc0)
      as (r & -> & Hr0 & Hrb).
    exists r. split; [reflexivity|]. split; [exact Hr0|]. intros j Hj.
    rewrite Hrb, Haccb by exact Hj. rewrite <- orb_assoc. f_equal.
    destruct (Z.eqb_spec j i) as [->|Hne]; bool_cases.
Qed.

End BitArrayLoops.

(** X6.  On a well-formed bit array, [WriteBits] of [n <= 64] bits at [pos]
    into a region that lies within [Size] and holds no set bit never
    fails, and [ReadBits] of the same region then returns the low [n] bits
    of the value written; the bits outside the region are as they were. *)
Theorem WriteBits_ReadBits (ba : BitArray.t) (pos value n : Z) :
  bitarray_wf ba -> 0 <= pos -> 0 <= n <= 64 -> pos + n <= BitArray.Size ba ->
  0 <= value ->
  (forall j, 0 <= j < n -> BitArray.GetBit ba (pos + j) = Ok false) ->
  exists ba',
    BitArray.WriteBits ba pos value n = Ok ba' /\ bitarray_wf ba'
    /\ BitArray.ReadBits ba' pos n = Ok (value mod 2 ^ n)
    /\ forall q, 0 <= q -> q < pos \/ pos + n <= q ->
         BitArray.GetBit ba' q = BitArray.GetBit ba q.
Proof.
  intros Hwf Hpos Hn Hin Hval Hclear. unfold BitArray.WriteBits, BitArray.ReadBits.
  pose proof Hwf as (_ & H63 & _).
  destruct (WriteBits_loop_wf (Z.to_nat n) 0 ba pos value Hwf Hpos ltac:(lia) ltac:(lia))
    as (ba' & Hw & Hwf' & Hsz & Hbits).
  exists ba'. split; [exact Hw|]. split; [exact Hwf'|]. split.
  - destruct (ReadBits_loop_bits (Z.to_nat n) 0 ba' pos 0 Hwf' Hpos ltac:(lia) ltac:(lia)
                ltac:(lia)) as (r & -> & Hr0 & Hrb).
    f_equal. apply Z.bits_inj'. intros j Hj.
    rewrite Hrb, Z.bits_0, Z.testbit_mod_pow2, Hbits by lia. cbn [orb].
    rewrite Z2Nat.id by lia. replace (pos + j - pos) with j by lia.
    destruct (Z.ltb_spec j n) as [Hjn|Hjn].
    + assert (Hc : bitAt ba (pos + j) = false).
      { pose proof (Hclear j ltac:(lia)) as Hc. rewrite GetBit_wf in Hc by (try exact Hwf; lia).
        congruence. }
      rewrite Hc.
      destruct (Z.leb_spec 0 j), (Z.ltb_spec j (0 + n)), (Z.ltb_spec j 64),
        (Z.leb_spec (pos + 0) (pos + j)), (Z.ltb_spec (pos + j) (pos + 0 + n)),
        (Z.ltb_spec (pos + j) (BitArray.Size ba)); try lia.
      cbn. rewrite ?andb_true_r. reflexivity.
    + destruct (Z.leb_spec 0 j), (Z.ltb_spec j (0 + n)); try lia; reflexivity.
  - intros q Hq Hout. rewrite !GetBit_wf, Hbits by assumption.
    rewrite Z2Nat.id by lia.
    destruct (Z.leb_spec (pos + 0) q), (Z.ltb_spec q (pos + 0 + n)); try lia;
      cbn; rewrite orb_false_r; reflexivity.
Qed.

Lemma WriteBits_ReadBits_witness :
  exists ba',
    BitArray.WriteBits (BitArray.NewBitArray 100) 60 0x2A5 10 = Ok ba' /\ bitarray_wf ba'
    /\ BitArray.ReadBits ba' 60 10 = Ok (0x2A5 mod 2 ^ 10)
    /\ forall q, 0 <= q -> q < 60 \/ 60 + 10 <= q ->
         BitArray.GetBit ba' q = BitArray.GetBit (BitArray.NewBitArray 100) q.
Proof.
  refine (WriteBits_ReadBits (BitArray.NewBitArray 100) 60 0x2A5 10 _ _ _ _ _ _).
  - apply NewBitArray_wf; [lia|reflexivity].
  - lia.
  - lia.
  - vm_compute. discriminate.
  - lia.
  - intros j Hj. rewrite GetBit_wf.
    + f_equal. apply NewBitArray_wf; [lia|reflexivity].
    + apply NewBitArray_wf; [lia|reflexivity].
    + lia.
Defined.

Lemma SetBit_GetBit_witness :
  exists ba',
    BitArray.SetBit (BitArray.NewBitArray 70) 65 = Ok ba' /\ bitarray_wf ba'
    /\ (65 < BitArray.Size (BitArray.NewBitArray 70) -> BitArray.GetBit ba' 65 = Ok true)
    /\ (BitArray.Size (BitArray.NewBitArray 70) <= 65 -> ba' = BitArray.NewBitArray 70)
    /\ forall q, 0 <= q -> q <> 65 ->
         BitArray.GetBit ba' q = BitArray.GetBit (BitArray.NewBitArray 70) q.
Proof.
  refine (SetBit_GetBit (BitArray.NewBitArray 70) 65 _ _).
  - apply NewBitArray_wf; [lia|reflexivity].
  - lia.
Defined.

Section BitArraySerial.
Import BitArray.

Lemma read_words_concat (ws : list Z) :
  forall rest,
    Forall (fun w => 0 <= w < 2 ^ 64) ws ->
    read_words (length ws) (concat (map (le_bytes 8) ws) ++ rest) = ws
    /\ drop (8 * length ws) (concat (map (le_bytes 8) ws) ++ rest) = rest
    /\ length (concat (map (le_bytes 8) ws)) = (8 * length ws)%nat.
Proof.
  induction ws as [|w ws IH]; intros rest Hws.
  - repeat split.
  - apply Forall_cons in Hws as [Hw Hws].
    destruct (IH rest Hws) as (IH1 & IH2 & IH3).
    cbn [length map concat read_words]. rewrite <- app_assoc.
    rewrite take_app_length' by (rewrite length_le_bytes; reflexivity).
    rewrite drop_app_length' by (rewrite length_le_bytes; reflexivity).
    rewrite le_value_le_bytes by (change (256 ^ Z.of_nat 8) with (2 ^ 64); exact Hw).
    rewrite IH1. split; [reflexivity|]. split.
    + replace (8 * S (length ws))%nat with (8 + 8 * length ws)%nat by lia.
      rewrite <- drop_drop.
      rewrite drop_app_length' by (rewrite length_le_bytes; reflexivity). exact IH2.
    + rewrite length_app, length_le_bytes, IH3. lia.
Qed.

End BitArraySerial.

Lemma ReadFrom_WriteTo_wf (ba : BitArray.t) (rest : list Z) :
  bitarray_wf ba ->
  BitArray.ReadFrom (BitArray.WriteTo ba ++ rest) = Ok (ba, rest).
Proof.
  intros (H0 & H63 & Hlen & Hws). unfold BitArray.ReadFrom, BitArray.WriteTo.
  rewrite <- app_assoc, read_le32 by lia. cbn [mbind result_bind].
  rewrite wrap32_small by lia. rewrite <- Hlen.
  destruct (read_words_concat (BitArray.Data ba) rest Hws) as (Hrd & Hdrop & Hl).
  destruct (decide (length (BitArray.Data ba) = 0%nat)) as [E|E].
  - apply length_zero_iff_nil in E. destruct ba as [data size]. cbn in *. subst data.
    reflexivity.
  - destruct (decide (concat (map (le_bytes 8) (BitArray.Data ba)) ++ rest = [])) as [En|_].
    { apply (f_equal length) in En. rewrite length_app, Hl in En. cbn in En. lia. }
    destruct (decide (length (concat (map (le_bytes 8) (BitArray.Data ba)) ++ rest)
                      < 8 * length (BitArray.Data ba))%nat) as [Es|_].
    { rewrite length_app, Hl in Es. lia. }
    rewrite Hrd, Hdrop. destruct ba; reflexivity.
Qed.

(** X7.  A well-formed bit array written by [WriteTo] is read back by
    [ReadFrom], size and words, with the reader left at the bytes that
    follow. *)
Theorem ReadFrom_WriteTo (ba : BitArray.t) (rest : list Z) :
  bitarray_wf ba ->
  BitArray.ReadFrom (BitArray.WriteTo ba ++ rest) = Ok (ba, rest).
Proof. apply ReadFrom_WriteTo_wf. Qed.

Lemma ReadFrom_WriteTo_witness :
  BitArray.ReadFrom (BitArray.WriteTo (BitArray.NewBitArray 70) ++ [7])
  = Ok (BitArray.NewBitArray 70, [7]).
Proof.
  refine (ReadFrom_WriteTo (BitArray.NewBitArray 70) [7] _).
  apply NewBitArray_wf; [lia|reflexivity].
Defined.

(** ** Elias-Fano: what the encoder accepts *)

Section EncodeValidation.
Import EliasFano.

Lemma validate_Ok (u : Z) (sequence : list Z) :
  forall prev,
    validate u prev sequence = Ok tt <->
    Forall (fun val => val < u) sequence /\ Sorted Z.lt sequence
    /\ (forall p, prev = Some p -> HdRel Z.lt p sequence).
Proof.
  induction sequence as [|val rest IH]; intros prev.
  - cbn. split; [|reflexivity]. intros _. repeat split; constructor.
  - cbn [validate]. destruct (Z.leb_spec u val) as [Hu|Hu].
    + split; [discriminate|]. intros (Hall & _). apply Forall_cons in Hall as [? _]. lia.
    + assert (Hgo : validate u (Some val) rest = Ok tt <->
                Forall (fun v => v < u) rest /\ Sorted Z.lt (val :: rest)).
      { rewrite IH. split.
        - intros (Ha & Hs & Hh). split; [exact Ha|]. constructor; [exact Hs|]. apply Hh. reflexivity.
        - intros (Ha & Hs). apply Sorted_inv in Hs as [Hs Hh].
          repeat split; try assumption. intros p [= <-]. exact Hh. }
      destruct prev as [p|].
      * destruct (Z.leb_spec val p) as [Hp|Hp].
        -- split; [discriminate|]. intros (_ & _ & Hh).
           specialize (Hh p eq_refl). apply HdRel_inv in Hh. lia.
        -- rewrite Hgo. split.
           ++ intros (Ha & Hs). repeat split; try assumption.
              ** constructor; assumption.
              ** intros p' [= <-]. constructor. exact Hp.
           ++ intros (Ha & Hs & _). apply Forall_cons in Ha as [_ Ha]. split; assumption.
      * rewrite Hgo. split.
        -- intros (Ha & Hs). repeat split; try assumption.
           ++ constructor; assumption.
           ++ intros p' [=].
        -- intros (Ha & Hs & _). apply Forall_cons in Ha as [_ Ha]. split; assumption.
Qed.

Lemma validate_errors (u : Z) (sequence : list Z) :
  forall prev e,
    validate u prev sequence = Err e -> e = EExceedsUniverse \/ e = ENotSorted.
Proof.
  induction sequence as [|val rest IH]; intros prev e; cbn [validate]; [discriminate|].
  destruct (Z.leb_spec u val); [intros [= <-]; left; reflexivity|].
  destruct prev as [p|]; [destruct (Z.leb_spec val p)|].
  - intros [= <-]. right. reflexivity.
  - apply IH.
  - apply IH.
Qed.

End EncodeValidation.

(** X8.  [Encode] returns bytes for a non-empty sequence only if the
    sequence has the encoder's count, every element is below the universe
    and the elements are strictly ascending; otherwise it returns one of
    its three validation errors and no bytes. *)
Theorem Encode_validates (e : EliasFano.EliasEncoder) (sequence : list Z) :
  sequence <> [] ->
  (forall bytes,
      EliasFano.Encode e sequence = Ok bytes ->
      wrap32 (Z.of_nat (length sequence)) = EliasFano.count e
      /\ Forall (fun val => val < EliasFano.universe e) sequence
      /\ Sorted Z.lt sequence)
  /\ (~ (wrap32 (Z.of_nat (length sequence)) = EliasFano.count e
         /\ Forall (fun val => val < EliasFano.universe e) sequence
         /\ Sorted Z.lt sequence) ->
      EliasFano.Encode e sequence = Err ELengthMismatch
      \/ EliasFano.Encode e sequence = Err EExceedsUniverse
      \/ EliasFano.Encode e sequence = Err ENotSorted).
Proof.
  intros Hne. unfold EliasFano.Encode.
  destruct (decide (sequence = [])); [contradiction|].
  destruct (Z.eqb_spec (wrap32 (Z.of_nat (length sequence))) (EliasFano.count e)) as [Hc|Hc];
    cbn [negb].
  - destruct (EliasFano.validate (EliasFano.universe e) None sequence) as [[]|err] eqn:Ev.
    + apply validate_Ok in Ev as (Ha & Hs & _). split.
      * intros _ _. repeat split; assumption.
      * intros Hnot. exfalso. apply Hnot. repeat split; assumption.
    + split; [discriminate|]. intros _. cbn.
      apply validate_errors in Ev as [-> | ->]; [right; left|right; right]; reflexivity.
  - split; [discriminate|]. intros _. left. reflexivity.
Qed.

Lemma Encode_validates_witness :
  EliasFano.Encode (EliasFano.mkEncoder 8 3 0) [1; 5; 3] = Err ELengthMismatch
  \/ EliasFano.Encode (EliasFano.mkEncoder 8 3 0) [1; 5; 3] = Err EExceedsUniverse
  \/ EliasFano.Encode (EliasFano.mkEncoder 8 3 0) [1; 5; 3] = Err ENotSorted.
Proof.
  refine (proj2 (Encode_validates (EliasFano.mkEncoder 8 3 0) [1; 5; 3] _) _).
  - discriminate.
  - intros (_ & _ & Hs). apply Sorted_inv in Hs as [Hs _].
    apply Sorted_inv in Hs as [_ Hh]. apply HdRel_inv in Hh. lia.
Defined.

(** ** Elias-Fano: the decoder's constructor on the encoder's bytes *)

Section EncodeTotal.
Import BitArray EliasFano.

Lemma wrap32_range (z : Z) : 0 <= wrap32 z < 2 ^ 32.
Proof. unfold wrap32. apply Z.mod_pos_bound. reflexivity. Qed.

Lemma WriteBits_loop_total (m : nat) :
  forall (i : Z) (ba : t) (pos value : Z),
    bitarray_wf ba ->
    exists ba',
      WriteBits_loop m i ba pos value = Ok ba' /\ bitarray_wf ba' /\ Size ba' = Size ba.
Proof.
  induction m as [|m IH]; intros i ba pos value Hwf.
  - exists ba. repeat split; try apply Hwf.
  - cbn [WriteBits_loop].
    destruct (negb (Z.land value (shl64 1 i) =? 0)).
    + destruct (SetBit_wf ba (wrap32 (pos + i)) Hwf) as (ba1 & -> & Hwf1 & Hs1 & _);
        [apply wrap32_range|].
      cbn [mbind result_bind].
      destruct (IH (i + 1) ba1 pos value Hwf1) as (ba' & -> & Hwf' & Hs').
      exists ba'. repeat split; try apply Hwf'. congruence.
    + cbn [mbind result_bind]. apply IH. exact Hwf.
Qed.

Lemma encode_low_total (l : Z) (sequence : list Z) :
  forall (i : Z) (low : t),
    bitarray_wf low ->
    exists low',
      encode_low l i sequence low = Ok low' /\ bitarray_wf low' /\ Size low' = Size low.
Proof.
  induction sequence as [|val rest IH]; intros i low Hwf.
  - exists low. repeat split; try apply Hwf.
  - cbn [encode_low]. unfold WriteBits.
    destruct (WriteBits_loop_total (Z.to_nat l) 0 low (wrap32 (wrap32 i * l))
                (Z.land val (wrap32 (shl32 1 l - 1))) Hwf) as (low1 & -> & Hwf1 & Hs1).
    cbn [mbind result_bind].
    destruct (IH (i + 1) low1 Hwf1) as (low' & -> & Hwf' & Hs').
    exists low'. repeat split; try apply Hwf'. congruence.
Qed.

Lemma encode_high_total (l highBitsSize : Z) (sequence : list Z) :
  forall (pos : Z) (high : t),
    bitarray_wf high ->
    exists high',
      encode_high l highBitsSize pos sequence high = Ok high'
      /\ bitarray_wf high' /\ Size high' = Size high.
Proof.
  induction sequence as [|val rest IH]; intros pos high Hwf.
  - exists high. repeat split; try apply Hwf.
  - cbn [encode_high].
    destruct (wrap32 (pos + Z.shiftr val l) <? highBitsSize).
    + destruct (SetBit_wf high (wrap32 (pos + Z.shiftr val l)) Hwf)
        as (high1 & -> & Hwf1 & Hs1 & _); [apply wrap32_range|].
      cbn [mbind result_bind].
      destruct (IH (wrap32 (wrap32 (pos + Z.shiftr val l) + 1)) high1 Hwf1)
        as (high' & -> & Hwf' & Hs').
      exists high'. repeat split; try apply Hwf'. congruence.
    + cbn [mbind result_bind]. apply IH. exact Hwf.
Qed.

End EncodeTotal.

(** X9.  For an encoder whose universe, count and width are [uint32]
    values, whose count is positive and whose two bit vectors fit, [Encode]
    returns bytes for every sequence that passes its validation: the three
    header fields followed by the two serialized bit vectors.
    [NewEliasDecoder] accepts these bytes and recovers the universe, the
    count, the width and the two bit vectors as the encoder built them. *)
Theorem NewEliasDecoder_Encode (e : EliasFano.EliasEncoder) (sequence : list Z) :
  0 <= EliasFano.universe e < 2 ^ 32 ->
  0 < EliasFano.count e < 2 ^ 32 ->
  0 <= EliasFano.lowBits e < 2 ^ 32 ->
  wrap32 (EliasFano.count e * EliasFano.lowBits e) + 63 < 2 ^ 32 ->
  wrap32 (wrap32 (EliasFano.count e
                  + Z.shiftr (EliasFano.universe e) (EliasFano.lowBits e)) + 1) + 63
  < 2 ^ 32 ->
  wrap32 (Z.of_nat (length sequence)) = EliasFano.count e ->
  Forall (fun val => val < EliasFano.universe e) sequence ->
  Sorted Z.lt sequence ->
  exists bytes low high,
    EliasFano.Encode e sequence = Ok bytes
    /\ bytes = le_bytes 4 (EliasFano.universe e) ++ le_bytes 4 (EliasFano.count e)
               ++ le_bytes 4 (EliasFano.lowBits e)
               ++ BitArray.WriteTo low ++ BitArray.WriteTo high
    /\ BitArray.Size low = wrap32 (EliasFano.count e * EliasFano.lowBits e)
    /\ BitArray.Size high
       = wrap32 (wrap32 (EliasFano.count e
                         + Z.shiftr (EliasFano.universe e) (EliasFano.lowBits e)) + 1)
    /\ bitarray_wf low /\ bitarray_wf high
    /\ EliasFano.NewEliasDecoder bytes
       = Ok (EliasFano.mkDecoder (EliasFano.universe e) (EliasFano.count e)
               (EliasFano.lowBits e) (Some low) (Some high)).
Proof.
  intros Hu Hk Hl Hlow Hhigh Hlen Hall Hsorted.
  destruct e as [u k l]. cbn [EliasFano.universe EliasFano.count EliasFano.lowBits] in *.
  unfold EliasFano.Encode. cbn [EliasFano.universe EliasFano.count EliasFano.lowBits].
  destruct (decide (sequence = [])) as [->|_].
  { change (wrap32 (Z.of_nat (length []))) with 0 in Hlen. lia. }
  rewrite Hlen, Z.eqb_refl. cbn [negb].
  assert (Hv : EliasFano.validate u None sequence = Ok tt).
  { apply validate_Ok. repeat split; try assumption. intros p [=]. }
  rewrite Hv. cbn [mbind result_bind].
  destruct (Z.eqb_spec k 0) as [->|_]; [lia|].
  destruct (NewBitArray_wf (wrap32 (k * l))) as [Hwl _]; [apply wrap32_range|exact Hlow|].
  destruct (encode_low_total l sequence 0 _ Hwl) as (low & -> & Hwfl & Hsl).
  cbn [mbind result_bind].
  destruct (NewBitArray_wf (wrap32 (wrap32 (k + Z.shiftr u l) + 1))) as [Hwh _];
    [apply wrap32_range|exact Hhigh|].
  destruct (encode_high_total l (wrap32 (wrap32 (k + Z.shiftr u l) + 1)) sequence 0 _ Hwh)
    as (high & -> & Hwfh & Hsh).
  cbn [mbind result_bind].
  eexists _, low, high. split; [reflexivity|].
  split; [rewrite <- !app_assoc; reflexivity|].
  split; [exact Hsl|]. split; [exact Hsh|]. split; [exact Hwfl|]. split; [exact Hwfh|].
  unfold EliasFano.NewEliasDecoder.
  destruct (decide (length ((le_bytes 4 u ++ le_bytes 4 k ++ le_bytes 4 l)
                            ++ BitArray.WriteTo low ++ BitArray.WriteTo high) < 12)%nat)
    as [Hshort|_].
  { rewrite !length_app, !length_le_bytes in Hshort. lia. }
  rewrite <- !app_assoc.
  rewrite read_le32 by lia. cbn [mbind result_bind].
  rewrite read_le32 by lia. cbn [mbind result_bind].
  rewrite read_le32 by lia. cbn [mbind result_bind].
  destruct (Z.eqb_spec k 0) as [->|_]; [lia|].
  rewrite ReadFrom_WriteTo_wf by exact Hwfl. cbn [mbind result_bind].
  rewrite <- (app_nil_r (BitArray.WriteTo high)).
  rewrite ReadFrom_WriteTo_wf by exact Hwfh. reflexivity.
Qed.

Lemma NewEliasDecoder_Encode_witness :
  exists bytes low high,
    EliasFano.Encode (EliasFano.mkEncoder 10 3 1) [1; 4; 9] = Ok bytes
    /\ bytes = le_bytes 4 10 ++ le_bytes 4 3 ++ le_bytes 4 1
               ++ BitArray.WriteTo low ++ BitArray.WriteTo high
    /\ BitArray.Size low = wrap32 (3 * 1)
    /\ BitArray.Size high = wrap32 (wrap32 (3 + Z.shiftr 10 1) + 1)
    /\ bitarray_wf low /\ bitarray_wf high
    /\ EliasFano.NewEliasDecoder bytes
       = Ok (EliasFano.mkDecoder 10 3 1 (Some low) (Some high)).
Proof.
  refine (NewEliasDecoder_Encode (EliasFano.mkEncoder 10 3 1) [1; 4; 9] _ _ _ _ _ _ _ _);
    cbn [EliasFano.universe EliasFano.count EliasFano.lowBits].
  - split; [lia|reflexivity].
  - split; [lia|reflexivity].
  - split; [lia|reflexivity].
  - vm_compute. reflexivity.
  - vm_compute. reflexivity.
  - reflexivity.
  - repeat constructor.
  - repeat constructor.
Defined.

(** ** Elias-Fano: random access against full decoding *)

Section AccessDecode.
Import BitArray EliasFano EliasAccess.

Lemma skip_zeros_spec (high : t) (n : nat) :
  forall p c hp ch,
    skip_zeros n high p c = Ok (hp, ch) ->
    n = Z.to_nat (Size high - p) -> p <= Size high ->
    0 <= c -> c + (Size high - p) < 2 ^ 32 ->
    p <= hp <= Size high /\ ch = c + (hp - p)
    /\ (forall q, p <= q < hp -> GetBit high q = Ok false)
    /\ (hp < Size high -> GetBit high hp = Ok true).
Proof.
  induction n as [|n IH]; intros p c hp ch Hs Hn Hp Hc Hfit.
  - cbn in Hs. injection Hs as <- <-. repeat split; try lia.
  - cbn [skip_zeros] in Hs. destruct (Z.ltb_spec p (Size high)); [|lia].
    destruct (GetBit high p) as [[|]|] eqn:Eb; cbn [mbind result_bind] in Hs;
      [| |discriminate].
    + injection Hs as <- <-. repeat split; try lia. intros _. exact Eb.
    + rewrite wrap32_small in Hs by lia.
      destruct (IH _ _ _ _ Hs) as (Hr & Hch & Hz & Ho); try lia.
      repeat split; try lia; [|exact Ho].
      intros q Hq. destruct (Z.eq_dec q p) as [->|Hne]; [exact Eb|apply Hz; lia].
Qed.

Lemma findHighValue_skip (high : t) (index i : Z) (k : nat) :
  forall p,
    (forall q, p <= q < p + Z.of_nat k -> GetBit high q = Ok false) ->
    0 <= p -> p + Z.of_nat k <= Size high -> Size high < 2 ^ 32 ->
    findHighValue_loop (Z.to_nat (Size high - p)) high index p i
    = findHighValue_loop (Z.to_nat (Size high - (p + Z.of_nat k))) high index
        (p + Z.of_nat k) i.
Proof.
  induction k as [|k IH]; intros p Hz Hp Hfit Hsz.
  - rewrite Z.add_0_r. reflexivity.
  - replace (Z.to_nat (Size high - p)) with (S (Z.to_nat (Size high - (p + 1)))) by lia.
    cbn [findHighValue_loop]. destruct (Z.ltb_spec p (Size high)); [|lia]. cbn [andb].
    destruct (Z.leb_spec i index).
    + rewrite Hz by lia. cbn [mbind result_bind]. rewrite wrap32_small by lia.
      rewrite IH by (try lia; intros q Hq; apply Hz; lia).
      replace (p + 1 + Z.of_nat k) with (p + Z.of_nat (S k)) by lia. reflexivity.
    + destruct (Z.to_nat (Size high - (p + Z.of_nat (S k)))) as [|m]; [reflexivity|].
      cbn [findHighValue_loop]. destruct (Z.leb_spec i index); [lia|].
      rewrite andb_false_r. reflexivity.
Qed.

Lemma decode_loop_length (l : Z) (low high : t) (n : nat) :
  forall i highPos currentHigh xs,
    decode_loop n l low high i highPos currentHigh = Ok xs -> length xs = n.
Proof.
  induction n as [|n IH]; intros i highPos currentHigh xs H.
  - injection H as <-. reflexivity.
  - cbn [decode_loop] in H.
    destruct (skip_zeros _ high highPos currentHigh) as [[hp ch]|]; [|discriminate].
    cbn [mbind result_bind] in H. destruct (Size high <=? hp); [discriminate|].
    destruct (ReadBits low _ l); [|discriminate]. cbn [mbind result_bind] in H.
    destruct (decode_loop n l low high _ _ _) as [rest|] eqn:Er; [|discriminate].
    injection H as <-. cbn. f_equal. eapply IH. exact Er.
Qed.

Lemma decode_loop_access (l : Z) (low high : t) (n : nat) :
  Size high < 2 ^ 32 ->
  forall i highPos xs,
    decode_loop n l low high i highPos (highPos - i) = Ok xs ->
    0 <= i <= highPos -> highPos <= Size high ->
    forall (j : nat) (x : Z),
      xs !! j = Some x ->
      exists lowValue highValue,
        ReadBits low (wrap32 ((i + Z.of_nat j) * l)) l = Ok lowValue
        /\ findHighValue_loop (Z.to_nat (Size high - highPos)) high (i + Z.of_nat j)
             highPos i = Ok highValue
        /\ x = Z.lor (shl32 highValue l) (wrap32 lowValue).
Proof.
  intros Hsz. induction n as [|n IH]; intros i highPos xs H Hi Hp j x Hj.
  - injection H as <-. discriminate.
  - cbn [decode_loop] in H.
    destruct (skip_zeros _ high highPos (highPos - i)) as [[hp ch]|] eqn:Es; [|discriminate].
    cbn [mbind result_bind] in H.
    destruct (Z.leb_spec (Size high) hp) as [|Hlt]; [discriminate|].
    apply skip_zeros_spec in Es as (Hr & -> & Hz & Ho); try lia.
    specialize (Ho Hlt).
    destruct (ReadBits low (wrap32 (i * l)) l) as [lowValue|] eqn:Erb; [|discriminate].
    cbn [mbind result_bind] in H.
    destruct (decode_loop n l low high _ _ _) as [rest|] eqn:Er; [|discriminate].
    injection H as <-.
    assert (Hskip : forall index,
               findHighValue_loop (Z.to_nat (Size high - highPos)) high index highPos i
               = findHighValue_loop (S (Z.to_nat (Size high - (hp + 1)))) high index hp i).
    { intros index.
      rewrite (findHighValue_skip high index i (Z.to_nat (hp - highPos)) highPos);
        rewrite ?Z2Nat.id by lia; try lia.
      - replace (highPos + (hp - highPos)) with hp by lia. f_equal. lia.
      - intros q Hq. apply Hz. lia. }
    destruct j as [|j].
    + injection Hj as <-. exists lowValue, (hp - i).
      rewrite Z.add_0_r. split; [exact Erb|]. split.
      * rewrite Hskip. cbn [findHighValue_loop].
        destruct (Z.ltb_spec hp (Size high)); [|lia].
        rewrite Z.leb_refl, Ho, Z.eqb_refl. cbn. rewrite wrap32_small by lia. reflexivity.
      * f_equal. f_equal. lia.
    + cbn [lookup list_lookup] in Hj.
      rewrite wrap32_small in Er by lia.
      replace (highPos - i + (hp - highPos)) with (hp + 1 - (i + 1)) in Er by lia.
      destruct (IH (i + 1) (hp + 1) rest Er ltac:(lia) ltac:(lia) j x Hj)
        as (lv & hv & Hlv & Hhv & ->).
      exists lv, hv.
      replace (i + Z.of_nat (S j)) with (i + 1 + Z.of_nat j) by lia.
      split; [exact Hlv|]. split; [|reflexivity].
      rewrite Hskip. cbn [findHighValue_loop].
      destruct (Z.ltb_spec hp (Size high)); [|lia].
      destruct (Z.leb_spec i (i + 1 + Z.of_nat j)); [|lia].
      rewrite Ho. cbn [andb mbind result_bind].
      destruct (Z.eqb_spec i (i + 1 + Z.of_nat j)); [lia|].
      rewrite !wrap32_small by lia. exact Hhv.
Qed.

End AccessDecode.

(** X10.  Random access agrees with full decoding: when [Decode] returns a
    list, the list has [count] elements and [Access] at each position below
    [count] returns, without error, the element [Decode] put there. *)
Theorem Access_agrees_with_Decode (d : EliasFano.EliasDecoder) (decoded : list Z) :
  match EliasFano.highArray d with
  | Some high => 0 <= BitArray.Size high < 2 ^ 32
  | None => True
  end ->
  EliasFano.Decode d = Ok decoded ->
  length decoded = Z.to_nat (EliasFano.d_count d)
  /\ forall (index : nat) (x : Z),
       decoded !! index = Some x ->
       EliasAccess.Access d (Z.of_nat index) = EliasAccess.Accessed x.
Proof.
  intros Hsz Hd. unfold EliasFano.Decode in Hd.
  destruct (Z.eqb_spec (EliasFano.d_count d) 0) as [E0|Hne].
  { injection Hd as <-. rewrite E0. split; [reflexivity|]. intros index x [=]. }
  destruct (EliasFano.lowArray d) as [low|] eqn:El; [|discriminate].
  destruct (EliasFano.highArray d) as [high|] eqn:Eh; [|discriminate].
  pose proof (decode_loop_length _ _ _ _ _ _ _ _ Hd) as Hlen.
  split; [exact Hlen|]. intros index x Hx.
  pose proof (lookup_lt_Some _ _ _ Hx) as Hlt.
  destruct (decode_loop_access (EliasFano.d_lowBits d) low high _ ltac:(lia) 0 0 decoded Hd
              ltac:(lia) ltac:(lia) index x Hx) as (lv & hv & Hlv & Hhv & ->).
  unfold EliasAccess.Access. rewrite El, Eh.
  destruct (Z.leb_spec (EliasFano.d_count d) (Z.of_nat index)); [lia|].
  destruct (Z.eqb_spec (EliasFano.d_count d) 0); [lia|].
  rewrite Z.add_0_l in Hlv, Hhv. rewrite Hlv. unfold EliasAccess.findHighValue.
  rewrite Z.sub_0_r in Hhv. rewrite Hhv. reflexivity.
Qed.

Lemma Access_agrees_with_Decode_witness :
  length [1; 3; 5]
  = Z.to_nat (EliasFano.d_count
                (EliasFano.mkDecoder 8 3 0 (Some (BitArray.mk [] 0))
                   (Some (BitArray.mk [146] 12))))
  /\ forall (index : nat) (x : Z),
       [1; 3; 5] !! index = Some x ->
       EliasAccess.Access
         (EliasFano.mkDecoder 8 3 0 (Some (BitArray.mk [] 0)) (Some (BitArray.mk [146] 12)))
         (Z.of_nat index)
       = EliasAccess.Accessed x.
Proof.
  refine (Access_agrees_with_Decode
            (EliasFano.mkDecoder 8 3 0 (Some (BitArray.mk [] 0))
               (Some (BitArray.mk [146] 12))) [1; 3; 5] _ _).
  - vm_compute. split; [discriminate|reflexivity].
  - vm_compute. reflexivity.
Defined.

(** ** The varint stream of the deltas *)

Lemma read_deltas_all (deltas : list Z) :
  Forall is_i32 deltas ->
  forall fuel,
    (length (concat (map Varint.writeVarint deltas)) <= fuel)%nat ->
    Delta.read_deltas fuel (concat (map Varint.writeVarint deltas)) = deltas.
Proof.
  intros Hds. induction Hds as [|v ds Hv Hds IH]; intros fuel Hfuel.
  - destruct fuel; reflexivity.
  - cbn [map concat] in *.
    pose proof (writeVarint_nonempty v Hv) as Hlen.
    rewrite length_app in Hfuel.
    destruct fuel as [|fuel]; [lia|].
    cbn [Delta.read_deltas].
    destruct (decide (Varint.writeVarint v ++ concat (map Varint.writeVarint ds) = []))
      as [Hnil|_].
    { apply (f_equal length) in Hnil. rewrite length_app in Hnil. cbn [length] in Hnil. lia. }
    rewrite readVarint_writeVarint by exact Hv.
    f_equal. apply IH. lia.
Qed.

(** X11.  [DecompressDeltas] returns the deltas, all of them and in order,
    whenever its input is a DEFLATE stream of the bytes that [writeVarint]
    produces for them one after the other, for any list of [int32] deltas. *)
Theorem DecompressDeltas_varint_stream (compressed : list Z) (deltas : list Z) :
  Forall is_i32 deltas ->
  Flate.inflate compressed = Ok (concat (map Varint.writeVarint deltas)) ->
  Delta.DecompressDeltas compressed = Ok deltas.
Proof.
  intros Hds Hinf. unfold Delta.DecompressDeltas.
  destruct (decide (compressed = [])) as [->|_].
  { change (Flate.inflate []) with (Err EUnexpectedEOF : result (list Z)) in Hinf.
    discriminate. }
  rewrite Hinf. cbn [mbind result_bind]. f_equal. apply read_deltas_all; [exact Hds|lia].
Qed.

Lemma DecompressDeltas_varint_stream_witness :
  Delta.DecompressDeltas
    (Scenario.stored (concat (map Varint.writeVarint [2; -5; 1; 70000; -2147483648])))
  = Ok [2; -5; 1; 70000; -2147483648].
Proof.
  refine (DecompressDeltas_varint_stream _ [2; -5; 1; 70000; -2147483648] _ _).
  - repeat (apply Forall_cons; split; [split; [discriminate|reflexivity]|]).
    apply Forall_nil_2.
  - vm_compute. reflexivity.
Defined.

(** ** Delta coding against a reference *)

Section DeltaCoding.
Import Delta.

Lemma int32_of_range (z : Z) : is_i32 (int32_of z).
Proof.
  unfold is_i32, int32_of. pose proof (wrap32_range z) as H.
  change (2 ^ 32) with 4294967296 in *. change (2 ^ 31) with 2147483648.
  destruct (Z.ltb_spec (wrap32 z) 2147483648); lia.
Qed.

Lemma int32_of_congr (a b : Z) : wrap32 a = wrap32 b -> int32_of a = int32_of b.
Proof. intros H. unfold int32_of. rewrite H. reflexivity. Qed.

(** Adding the delta to the reference value gives the target value back,
    whatever wraps on the way. *)
Lemma int32_delta_cancel (r t : Z) :
  int32_of (int32_of r + int32_of (int32_of t - int32_of r)) = int32_of t.
Proof.
  apply int32_of_congr. unfold wrap32.
  rewrite Z.add_mod by lia.
  fold (wrap32 (int32_of (int32_of t - int32_of r))). rewrite int32_of_wrap. unfold wrap32.
  rewrite <- Z.add_mod by lia.
  replace (int32_of r + (int32_of t - int32_of r)) with (int32_of t) by lia.
  fold (wrap32 (int32_of t)). apply int32_of_wrap.
Qed.

Lemma build_map_Ok (indices : list Z) :
  forall (values : list Z) (m0 : gmap Z Z),
    (length indices <= length values)%nat ->
    exists m, build_map indices values m0 = Ok m.
Proof.
  induction indices as [|g indices IH]; intros values m0 Hlen.
  - exists m0. reflexivity.
  - destruct values as [|v values]; [cbn in Hlen; lia|].
    cbn [build_map]. apply IH. cbn in Hlen. lia.
Qed.

Lemma build_map_panics (indices : list Z) :
  forall (values : list Z) (m0 : gmap Z Z),
    (length values < length indices)%nat ->
    build_map indices values m0 = Err EPanic.
Proof.
  induction indices as [|g indices IH]; intros values m0 Hlen.
  - cbn in Hlen. lia.
  - destruct values as [|v values]; [reflexivity|].
    cbn [build_map]. apply IH. cbn in Hlen. lia.
Qed.

Lemma build_map_lookup (indices : list Z) :
  forall (values : list Z) (m0 m : gmap Z Z),
    build_map indices values m0 = Ok m ->
    (forall g, g ∉ indices -> m !! g = m0 !! g)
    /\ (NoDup indices ->
        forall (i : nat) (g v : Z),
          indices !! i = Some g -> values !! i = Some v -> m !! g = Some v).
Proof.
  induction indices as [|g0 indices IH]; intros values m0 m Hb.
  - injection Hb as <-. split; [reflexivity|]. intros _ i g v [=].
  - destruct values as [|v0 values]; [discriminate|]. cbn [build_map] in Hb.
    destruct (IH _ _ _ Hb) as [Hout Hin]. split.
    + intros g Hg. apply not_elem_of_cons in Hg as [Hne Hg].
      rewrite Hout by exact Hg. apply lookup_insert_ne. congruence.
    + intros Hnd i g v Hi Hv. apply NoDup_cons in Hnd as [Hfresh Hnd].
      destruct i as [|i].
      * injection Hi as <-. injection Hv as <-.
        rewrite Hout by exact Hfresh. apply lookup_insert_eq.
      * apply (Hin Hnd i g v Hi Hv).
Qed.

Lemma StronglySorted_filter (P : Z -> Prop) `{!forall x, Decision (P x)} (l : list Z) :
  StronglySorted Z.le l -> StronglySorted Z.le (filter P l).
Proof.
  induction 1 as [|a l Hs IH Ha]; [constructor|].
  rewrite filter_cons. destruct (decide (P a)); [|exact IH].
  constructor; [exact IH|].
  apply Forall_forall. intros x Hx. apply list_elem_of_filter in Hx as [_ Hx].
  rewrite Forall_forall in Ha. apply Ha, Hx.
Qed.

Lemma Sorted_lt_le_NoDup (l : list Z) :
  Sorted Z.lt l -> StronglySorted Z.le l /\ NoDup l.
Proof.
  intros Hs. apply (Sorted_StronglySorted Z.lt) in Hs; try (intros x y z; lia).
  induction Hs as [|a l Hs [IH1 IH2] Ha]; [split; constructor|].
  split.
  - constructor; [exact IH1|]. eapply Forall_impl; [exact Ha|]. cbn. intros; lia.
  - apply NoDup_cons. split; [|exact IH2]. intros Hin.
    rewrite Forall_forall in Ha. specialize (Ha a Hin). lia.
Qed.

Lemma union_genes_spec (target reference : SparseRow) :
  StronglySorted Z.le (union_genes target reference)
  /\ NoDup (union_genes target reference)
  /\ (forall g, g ∈ union_genes target reference
                <-> g ∈ Indices target \/ g ∈ Indices reference)
  /\ length (union_genes target reference)
     = size (list_to_set (Indices target) ∪ list_to_set (Indices reference) : gset Z).
Proof.
  unfold union_genes.
  set (U := (list_to_set (Indices target) ∪ list_to_set (Indices reference) : gset Z)).
  pose proof (merge_sort_Permutation Z.le (elements U)) as Hp.
  split; [apply (StronglySorted_merge_sort Z.le); apply _|].
  split; [rewrite Hp; apply NoDup_elements|].
  split.
  - intros g. rewrite Hp, elem_of_elements. unfold U.
    rewrite elem_of_union, !elem_of_list_to_set. reflexivity.
  - rewrite Hp. reflexivity.
Qed.

(** Without thresholding, the reconstruction loop over the genes it was
    given deltas for keeps the genes whose target value is positive. *)
Lemma reconstruct_loop_deltas (refMap targetMap : gmap Z Z) (genes : list Z) :
  reconstruct_loop refMap genes
    (map (fun gene =>
            int32_of (int32_of (default 0 (targetMap !! gene))
                      - int32_of (default 0 (refMap !! gene))))
         genes)
  = map (fun gene => (gene, int32_of (default 0 (targetMap !! gene))))
      (filter (fun gene => 0 < int32_of (default 0 (targetMap !! gene))) genes).
Proof.
  induction genes as [|g genes IH]; [reflexivity|].
  cbn [map reconstruct_loop]. rewrite int32_delta_cancel, filter_cons, IH.
  destruct (Z.ltb_spec 0 (int32_of (default 0 (targetMap !! g))));
    destruct (decide (0 < int32_of (default 0 (targetMap !! g)))); try lia; reflexivity.
Qed.

End DeltaCoding.

Section DeltaRoundTrip.
Import Delta.

Lemma target_map_values (indices values : list Z) (m : gmap Z Z) :
  build_map indices values ∅ = Ok m ->
  NoDup indices -> length values = length indices ->
  Forall (fun v => 0 < v < 2 ^ 31) values ->
  (forall g, g ∈ indices <-> 0 < int32_of (default 0 (m !! g)))
  /\ map (fun g => int32_of (default 0 (m !! g))) indices = values.
Proof.
  intros Hb Hnd Hlen Hpos. destruct (build_map_lookup _ _ _ _ Hb) as [Hout Hin].
  specialize (Hin Hnd).
  assert (Hat : forall i g, indices !! i = Some g ->
              exists v, values !! i = Some v /\ int32_of (default 0 (m !! g)) = v /\ 0 < v).
  { intros i g Hi. pose proof (lookup_lt_Some _ _ _ Hi) as Hlt.
    destruct (lookup_lt_is_Some_2 values i ltac:(lia)) as [v Hv].
    exists v. split; [exact Hv|]. rewrite (Hin i g v Hi Hv). cbn.
    rewrite Forall_forall in Hpos.
    pose proof (Hpos v (list_elem_of_lookup_2 _ _ _ Hv)) as Hr.
    rewrite int32_of_small; [lia|]. unfold is_i32. lia. }
  split.
  - intros g. split.
    + intros Hg. apply list_elem_of_lookup_1 in Hg as [i Hi].
      destruct (Hat i g Hi) as (v & _ & -> & Hv). exact Hv.
    + intros Hg. destruct (decide (g ∈ indices)) as [|Hn]; [assumption|].
      rewrite (Hout g Hn), lookup_empty in Hg. vm_compute in Hg. discriminate.
  - apply list_eq. intros i. rewrite list_lookup_fmap.
    destruct (indices !! i) as [g|] eqn:Hi; cbn.
    + destruct (Hat i g Hi) as (v & -> & -> & _). reflexivity.
    + symmetry. apply lookup_ge_None. apply lookup_ge_None in Hi. lia.
Qed.

End DeltaRoundTrip.

(** X12.  In lossless mode the two halves of the delta stage fit: for a
    target row with strictly ascending indices and as many values, all
    positive and below 2^31, and a reference row with a value for each of
    its indices, [ComputeDelta] returns deltas from which
    [ReconstructFromDelta], run with the same reference over the sorted
    union of the two rows' indices, returns the target row itself. *)
Theorem ReconstructFromDelta_ComputeDelta (de : Delta.DeltaEncoder)
    (target reference : SparseRow) :
  Delta.lossy de = false ->
  Sorted Z.lt (Indices target) ->
  length (Values target) = length (Indices target) ->
  Forall (fun v => 0 < v < 2 ^ 31) (Values target) ->
  (length (Indices reference) <= length (Values reference))%nat ->
  exists deltas,
    Delta.ComputeDelta de target reference = Ok deltas
    /\ Delta.ReconstructFromDelta reference deltas (union_genes target reference)
       = Ok target.
Proof.
  intros Hlossless Hsorted Hlen Hpos Hrlen.
  destruct (build_map_Ok (Indices reference) (Values reference) ∅ Hrlen) as [refMap Hrm].
  destruct (build_map_Ok (Indices target) (Values target) ∅ ltac:(lia)) as [targetMap Htm].
  destruct (Sorted_lt_le_NoDup _ Hsorted) as [Hss Hnd].
  destruct (target_map_values _ _ _ Htm Hnd Hlen Hpos) as [Hmem Hvals].
  destruct (union_genes_spec target reference) as (Hgs & Hgn & Hgm & _).
  unfold Delta.ComputeDelta, Delta.ReconstructFromDelta.
  rewrite Hrm, Htm, Hlossless. cbn [mbind result_bind andb].
  eexists. split; [reflexivity|]. fold (union_genes target reference).
  rewrite reconstruct_loop_deltas.
  assert (Hfilter : filter (fun gene => 0 < int32_of (default 0 (targetMap !! gene)))
                      (union_genes target reference) = Indices target).
  { apply (StronglySorted_unique_strong Z.le).
    - intros; lia.
    - apply StronglySorted_filter, Hgs.
    - exact Hss.
    - apply NoDup_Permutation; [apply NoDup_filter, Hgn|exact Hnd|].
      intros g. rewrite list_elem_of_filter, Hgm, <- Hmem. tauto. }
  rewrite Hfilter, !map_map. cbn [fst snd]. rewrite map_id, Hvals.
  destruct target; reflexivity.
Qed.

Lemma ReconstructFromDelta_ComputeDelta_witness :
  exists deltas,
    Delta.ComputeDelta Scenario.lossless Scenario.cellB Scenario.cellA = Ok deltas
    /\ Delta.ReconstructFromDelta Scenario.cellA deltas
         (union_genes Scenario.cellB Scenario.cellA)
       = Ok Scenario.cellB.
Proof.
  refine (ReconstructFromDelta_ComputeDelta Scenario.lossless Scenario.cellB Scenario.cellA
            _ _ _ _ _).
  - reflexivity.
  - repeat constructor.
  - reflexivity.
  - repeat (apply Forall_cons; split; [split; reflexivity|]). apply Forall_nil_2.
  - cbn. lia.
Defined.

(** X13.  [ComputeDelta] returns one delta for each gene of the union of
    the two rows' indices, each an [int32], when both rows have a value
    for each of their indices; when a row has more indices than values it
    ends in a run-time panic (index out of range). *)
Theorem ComputeDelta_shape (de : Delta.DeltaEncoder) (target reference : SparseRow) :
  if decide ((length (Indices target) <= length (Values target))%nat
             /\ (length (Indices reference) <= length (Values reference))%nat)
  then exists deltas,
         Delta.ComputeDelta de target reference = Ok deltas
         /\ length deltas
            = size (list_to_set (Indices target) ∪ list_to_set (Indices reference)
                    : gset Z)
         /\ Forall is_i32 deltas
  else Delta.ComputeDelta de target reference = Err EPanic.
Proof.
  unfold Delta.ComputeDelta.
  destruct (decide _) as [[Ht Hr]|Hnot].
  - destruct (build_map_Ok (Indices reference) (Values reference) ∅ Hr) as [refMap ->].
    destruct (build_map_Ok (Indices target) (Values target) ∅ Ht) as [targetMap ->].
    cbn [mbind result_bind]. eexists. split; [reflexivity|]. split.
    + rewrite length_map. apply union_genes_spec.
    + apply Forall_map, Forall_forall. intros g _. cbn.
      destruct (_ && _); [unfold is_i32; split; [discriminate|reflexivity]|].
      apply int32_of_range.
  - destruct (le_lt_dec (length (Indices reference)) (length (Values reference))) as [Hr|Hr].
    + destruct (build_map_Ok (Indices reference) (Values reference) ∅ Hr) as [refMap ->].
      cbn [mbind result_bind].
      rewrite (build_map_panics (Indices target) (Values target)) by lia. reflexivity.
    + rewrite (build_map_panics (Indices reference) (Values reference)) by exact Hr.
      reflexivity.
Qed.

(** X14.  [ReconstructFromDelta] returns a row with as many values as
    indices, every value positive and below 2^31, whose indices are taken
    in order from [geneIndices] and are at most as many as the deltas,
    when the reference has a value for each of its indices; when the
    reference has more indices than values it ends in a run-time panic. *)
Theorem ReconstructFromDelta_shape (reference : SparseRow) (deltas geneIndices : list Z) :
  if decide (length (Indices reference) <= length (Values reference))%nat
  then exists row,
         Delta.ReconstructFromDelta reference deltas geneIndices = Ok row
         /\ length (Indices row) = length (Values row)
         /\ Forall (fun v => 0 < v < 2 ^ 31) (Values row)
         /\ sublist (Indices row) geneIndices
         /\ (length (Indices row) <= length deltas)%nat
  else Delta.ReconstructFromDelta reference deltas geneIndices = Err EPanic.
Proof.
  unfold Delta.ReconstructFromDelta.
  destruct (decide _) as [Hr|Hr].
  - destruct (build_map_Ok (Indices reference) (Values reference) ∅ Hr) as [refMap ->].
    cbn [mbind result_bind]. eexists. split; [reflexivity|]. cbn [Indices Values].
    split; [rewrite !length_map; reflexivity|].
    revert deltas. induction geneIndices as [|g genes IH]; intros deltas.
    + cbn. split; [constructor|]. split; [constructor|lia].
    + destruct deltas as [|d deltas].
      * cbn. split; [constructor|]. split; [apply sublist_nil_l|lia].
      * cbn [Delta.reconstruct_loop]. destruct (IH deltas) as (Hv & Hs & Hl).
        destruct (Z.ltb_spec 0 (int32_of (int32_of (default 0 (refMap !! g)) + d))) as [Hp|Hp].
        -- cbn [map fst snd length]. repeat split.
           ++ apply Forall_cons. split; [|exact Hv].
              split; [exact Hp|apply int32_of_range].
           ++ apply sublist_skip, Hs.
           ++ lia.
        -- repeat split; [exact Hv|apply sublist_cons, Hs|cbn [length]; lia].
  - rewrite build_map_panics by lia. reflexivity.
Qed.

(** ** Jaccard similarity on duplicate-free index lists *)

(** With a repeated index in the second list the count of common genes
    exceeds the union, and the order of the arguments matters. *)
Lemma JaccardSimilarity_duplicates :
  Delta.JaccardSimilarity [1] [1; 1; 1] = (-3)%float
  /\ Delta.JaccardSimilarity [1; 1; 1] [1] = 1%float.
Proof. split; vm_compute; reflexivity. Qed.

(** X15.  On index lists without repetition [JaccardSimilarity] does not
    depend on the order of its two arguments, and for two non-empty lists
    it is the float64 quotient of the number of common genes by the number
    of genes in the union. *)
Theorem JaccardSimilarity_duplicate_free (genesA genesB : list Z) :
  NoDup genesA -> NoDup genesB ->
  Delta.JaccardSimilarity genesA genesB = Delta.JaccardSimilarity genesB genesA
  /\ (genesA <> [] -> genesB <> [] ->
      Delta.JaccardSimilarity genesA genesB
      = (Delta.float64_of_int
           (Z.of_nat (size ((list_to_set genesA : gset Z) ∩ list_to_set genesB)))
         / Delta.float64_of_int
             (Z.of_nat (size ((list_to_set genesA : gset Z) ∪ list_to_set genesB))))%float).
Proof.
  intros HA HB. split.
  - destruct genesA as [|a genesA'], genesB as [|b genesB']; try reflexivity.
    rewrite (JaccardSimilarity_sets (a :: genesA') (b :: genesB')) by (try discriminate; exact HB).
    rewrite (JaccardSimilarity_sets (b :: genesB') (a :: genesA')) by (try discriminate; exact HA).
    cbv zeta.
    rewrite (comm_L (∩) (list_to_set (a :: genesA') : gset Z)).
    rewrite (comm_L (∪) (list_to_set (a :: genesA') : gset Z)).
    reflexivity.
  - intros HnA HnB. apply (JaccardSimilarity_sets genesA genesB HnA HnB HB).
Qed.

Lemma JaccardSimilarity_duplicate_free_witness :
  Delta.JaccardSimilarity [1; 4; 7] [1; 4; 9] = Delta.JaccardSimilarity [1; 4; 9] [1; 4; 7]
  /\ ([1; 4; 7] <> [] -> [1; 4; 9] <> [] ->
      Delta.JaccardSimilarity [1; 4; 7] [1; 4; 9]
      = PrimFloat.div
          (Delta.float64_of_int
             (Z.of_nat (size ((list_to_set [1; 4; 7] : gset Z) ∩ list_to_set [1; 4; 9]))))
          (Delta.float64_of_int
             (Z.of_nat (size ((list_to_set [1; 4; 7] : gset Z) ∪ list_to_set [1; 4; 9]))))).
Proof.
  refine (JaccardSimilarity_duplicate_free [1; 4; 7] [1; 4; 9] _ _).
  - apply (bool_decide_unpack _). vm_compute. exact I.
  - apply (bool_decide_unpack _). vm_compute. exact I.
Defined.

(** ** The parallel driver on data without references *)

Section DriverNoReferences.
Import Driver.
Variable compressed : CompressedData.
Hypothesis no_references :
  Forall (fun row => RefCell row < 0) (CompressedRows compressed).

Local Abbreviation n := (driver_cells compressed).
Local Abbreviation de := (driver_encoder compressed).
Local Abbreviation rows := (CompressedRows compressed).

(** A row without a reference is decoded without a look at the matrix. *)
Lemma decompressCell_no_reference (row : CompressedRow) (m : list SparseRow)
    (e : Delta.DeltaEncoder) (numGenes : Z) :
  RefCell row < 0 ->
  Decompressor.decompressCell row m e numGenes
  = Decompressor.decompressCell row [] e numGenes.
Proof.
  intros Href. unfold Decompressor.decompressCell, Decompressor.decode_cell.
  destruct (Z.leb_spec 0 (RefCell row)); [lia|]. reflexivity.
Qed.

Lemma init_inv (numWorkers : nat) : driver_inv compressed (init numWorkers compressed).
Proof.
  unfold init. split; cbn [matrix jobs workers decompressErr].
  - apply length_replicate.
  - exists 0%nat. split; [lia|]. split; [rewrite Nat.sub_0_r; reflexivity|].
    intros _ idx Hidx. lia.
  - intros w idx Hw. apply lookup_replicate_1 in Hw as [[=] _].
  - intros w idx res Hw. apply lookup_replicate_1 in Hw as [[=] _].
  - intros e [=].
  - intros [w Hw]. cbn [workers] in Hw. apply lookup_replicate_1 in Hw as [[=] _].
Qed.

(** One worker changes its own state; the rest of the invariant follows
    from what the new state of that worker and the new matrix, error and
    queue satisfy. *)
Lemma update_inv (s : state) (w : nat) (old x : worker)
    (m' : list SparseRow) (e' : option error) (jobs' : list nat) :
  driver_inv compressed s ->
  workers s !! w = Some old -> old <> Panicked ->
  length m' = n ->
  (forall idx, x = Received idx -> (idx < n)%nat) ->
  (forall idx res, x = Decoded idx res ->
     (idx < n)%nat
     /\ exists row, rows !! idx = Some row /\ res = decode_alone compressed row) ->
  (x = Panicked -> panic_cause compressed) ->
  (forall e, e' = Some e ->
     exists idx row e0,
       (idx < n)%nat /\ rows !! idx = Some row
       /\ decode_alone compressed row = Err e0 /\ e = EWrapped e0) ->
  (forall j,
     (j <= n)%nat -> jobs s = seq j (n - j) ->
     exists j',
       (j' <= n)%nat /\ jobs' = seq j' (n - j')
       /\ (x <> Panicked ->
           (forall idx, (idx < j)%nat ->
              (exists w0, w0 <> w /\ holds s w0 idx) \/ holds s w idx
              \/ settled compressed s idx) ->
           forall idx, (idx < j')%nat ->
             (exists w0, w0 <> w /\ holds s w0 idx)
             \/ holds (mkState m' e' jobs' (<[w := x]> (workers s))) w idx
             \/ settled compressed (mkState m' e' jobs' (<[w := x]> (workers s))) idx)) ->
  driver_inv compressed (mkState m' e' jobs' (<[w := x]> (workers s))).
Proof.
  intros [Hm Hj Hr Hd He Hp] Hw Hold Hm' Hxr Hxd Hxp He' Hjobs.
  pose proof (lookup_lt_Some _ _ _ Hw) as Hwlt.
  assert (Hnew : forall w0 y,
             <[w := x]> (workers s) !! w0 = Some y ->
             (w0 = w /\ y = x) \/ (w0 <> w /\ workers s !! w0 = Some y)).
  { intros w0 y Hy. apply list_lookup_insert_Some in Hy as [(-> & -> & _)|[Hne Hy]].
    - left. split; reflexivity.
    - right. split; [congruence|exact Hy]. }
  split; cbn [matrix jobs workers decompressErr].
  - exact Hm'.
  - destruct Hj as (j & Hjn & Hjs & Hh).
    destruct (Hjobs j Hjn Hjs) as (j' & Hj' & Hjs' & Hh').
    exists j'. split; [exact Hj'|]. split; [exact Hjs'|]. intros Hnp' idx Hidx.
    assert (Hx : x <> Panicked).
    { intros ->. apply Hnp'. exists w. cbn [workers]. apply list_lookup_insert_eq, Hwlt. }
    assert (Hnp : ~ has_panicked s).
    { intros [w0 Hw0]. apply Hnp'. exists w0. cbn [workers].
      rewrite list_lookup_insert_ne; [exact Hw0|]. intros ->. congruence. }
    specialize (Hh Hnp).
    destruct (Hh' Hx) with (idx := idx) as [(w0 & Hne & Hw0)|[Hw0|Hs]]; [|exact Hidx| | |].
    + intros idx0 Hidx0. destruct (Hh idx0 Hidx0) as [[w0 Hw0]|Hs]; [|right; right; exact Hs].
      destruct (decide (w0 = w)) as [->|Hne]; [right; left; exact Hw0|].
      left. exists w0. split; assumption.
    + left. exists w0. unfold holds in *. cbn [workers].
      rewrite list_lookup_insert_ne by congruence. exact Hw0.
    + left. exists w. exact Hw0.
    + right. exact Hs.
  - intros w0 idx Hy. destruct (Hnew _ _ Hy) as [[-> Hx]|[_ Hy']].
    + apply Hxr. symmetry. exact Hx.
    + apply (Hr _ _ Hy').
  - intros w0 idx res Hy. destruct (Hnew _ _ Hy) as [[-> Hx]|[_ Hy']].
    + apply Hxd. symmetry. exact Hx.
    + apply (Hd _ _ _ Hy').
  - exact He'.
  - intros [w0 Hy]. cbn [workers] in Hy. destruct (Hnew _ _ Hy) as [[-> Hx]|[_ Hy']].
    + apply Hxp. symmetry. exact Hx.
    + apply Hp. exists w0. exact Hy'.
Qed.

Lemma seq_head (j k c : nat) (l : list nat) :
  c :: l = seq j k -> c = j /\ (0 < k)%nat /\ l = seq (S j) (k - 1).
Proof.
  destruct k as [|k]; [discriminate|]. cbn [seq]. intros [= -> ->].
  rewrite Nat.sub_1_r. cbn. repeat split. lia.
Qed.

Lemma holds_at (s : state) (w idx : nat) (x : worker) :
  workers s !! w = Some x -> holds s w idx ->
  x = Received idx \/ exists res, x = Decoded idx res.
Proof.
  intros Hw [H|[res H]]; rewrite Hw in H; injection H as ->; [left|right; exists res];
    reflexivity.
Qed.

Lemma step_inv (s : state) (w : nat) :
  driver_inv compressed s -> driver_inv compressed (step compressed de s w).
Proof.
  intros Hinv. unfold step.
  destruct (workers s !! w) as [[|c|c [r|e]|]|] eqn:Hw; try exact Hinv.
  - (* a worker receives the next index *)
    destruct (jobs s) as [|c jobs'] eqn:Ej; [exact Hinv|].
    pose proof (lookup_lt_Some _ _ _ Hw) as Hwlt.
    apply (update_inv s w Idle); try assumption; try discriminate.
    + apply Hinv.
    + intros idx [= <-]. destruct (inv_jobs _ _ Hinv) as (j & Hjn & Hjs & _).
      rewrite Ej in Hjs. apply seq_head in Hjs as (-> & Hk & _). lia.
    + apply Hinv.
    + intros j Hjn Hjs. rewrite Ej in Hjs. apply seq_head in Hjs as (-> & Hk & ->).
      exists (S j). split; [lia|]. split; [f_equal; lia|].
      intros _ Hh idx Hidx. destruct (decide (idx = j)) as [->|Hne].
      * right. left. left. cbn [workers]. apply list_lookup_insert_eq, Hwlt.
      * destruct (Hh idx ltac:(lia)) as [Ho|[Hme|Hs]].
        -- left. exact Ho.
        -- apply (holds_at _ _ _ _ Hw) in Hme as [|[? ?]]; discriminate.
        -- right. right. exact Hs.
  - (* a worker decodes the cell it holds *)
    pose proof (inv_received _ _ Hinv _ _ Hw) as Hc.
    assert (Hkeep : forall x : worker,
               (x = Panicked -> panic_cause compressed) ->
               (forall idx res, x = Decoded idx res ->
                  idx = c /\ exists row, rows !! c = Some row
                                        /\ res = decode_alone compressed row) ->
               (forall idx, x <> Received idx) -> x <> Idle ->
               driver_inv compressed (set_worker w x s)).
    { intros x Hxp Hxd Hxr Hxi. unfold set_worker.
      apply (update_inv s w (Received c)); try assumption; try discriminate;
        try apply Hinv.
      - intros idx ->. destruct (Hxr idx). reflexivity.
      - intros idx res Hx. destruct (Hxd idx res Hx) as (-> & row & Hrow & ->).
        split; [exact Hc|]. exists row. split; [exact Hrow|reflexivity].
      - intros j Hjn Hjs. exists j. split; [exact Hjn|]. split; [exact Hjs|].
        intros Hx Hh idx Hidx. destruct (Hh idx Hidx) as [Ho|[Hme|Hs]].
        + left. exact Ho.
        + apply (holds_at _ _ _ _ Hw) in Hme as [[= <-]|[? [=]]].
          right. left. pose proof (lookup_lt_Some _ _ _ Hw) as Hwlt.
          destruct x as [|c'|c' res|]; [congruence| | |congruence].
          * destruct (Hxr c'). reflexivity.
          * destruct (Hxd c' res eq_refl) as (-> & _). right. exists res.
            cbn [workers]. apply list_lookup_insert_eq, Hwlt.
        + right. right. exact Hs. }
    destruct (rows !! c) as [row|] eqn:Hrow.
    + assert (Href : RefCell row < 0).
      { rewrite Forall_forall in no_references.
        apply no_references, (list_elem_of_lookup_2 _ _ _ Hrow). }
      rewrite (decompressCell_no_reference row (matrix s)) by exact Href.
      fold (decode_alone compressed row).
      destruct (decode_alone compressed row) as [r|[]] eqn:Hdec;
        apply Hkeep; try discriminate;
        try (intros idx res [= <- <-]; split; [reflexivity|];
             exists row; split; [reflexivity|symmetry; exact Hdec]).
      intros _. right. exists c, row. repeat split; assumption.
    + apply Hkeep; try discriminate.
      intros _. left. apply lookup_ge_None in Hrow. lia.
  - (* a worker publishes a row *)
    destruct (inv_decoded _ _ Hinv _ _ _ Hw) as (Hc & row & Hrow & Hdec).
    pose proof (lookup_lt_Some _ _ _ Hw) as Hwlt.
    pose proof (inv_matrix _ _ Hinv) as Hm.
    apply (update_inv s w (Decoded c (Ok r))); try assumption; try discriminate;
      try apply Hinv.
    + rewrite length_insert. exact Hm.
    + intros j Hjn Hjs. exists j. split; [exact Hjn|]. split; [exact Hjs|].
      intros _ Hh idx Hidx. destruct (Hh idx Hidx) as [Ho|[Hme|Hs]].
      * left. exact Ho.
      * apply (holds_at _ _ _ _ Hw) in Hme as [[=]|[? [= <- _]]].
        right. right. exists row. split; [exact Hrow|]. rewrite <- Hdec. cbn [matrix].
        apply list_lookup_insert_eq. lia.
      * right. right. destruct Hs as (row0 & Hrow0 & Hs). exists row0.
        split; [exact Hrow0|].
        destruct (decode_alone compressed row0) as [r0|e0] eqn:Hd0; cbn [matrix decompressErr] in *;
          [|exact Hs].
        destruct (decide (idx = c)) as [->|Hne].
        -- rewrite Hrow in Hrow0. injection Hrow0 as <-.
           rewrite <- Hdec in Hd0. injection Hd0 as <-.
           apply list_lookup_insert_eq. lia.
        -- rewrite list_lookup_insert_ne by congruence. exact Hs.
  - (* a worker records a failure *)
    destruct (inv_decoded _ _ Hinv _ _ _ Hw) as (Hc & row & Hrow & Hdec).
    apply (update_inv s w (Decoded c (Err e))); try assumption; try discriminate;
      try apply Hinv.
    + intros e1 He1. destruct (decompressErr s) as [e0|] eqn:He0.
      * apply (inv_err _ _ Hinv). rewrite He0. exact He1.
      * injection He1 as <-. exists c, row, e. repeat split; try assumption.
        symmetry. exact Hdec.
    + intros j Hjn Hjs. exists j. split; [exact Hjn|]. split; [exact Hjs|].
      intros _ Hh idx Hidx. destruct (Hh idx Hidx) as [Ho|[Hme|Hs]].
      * left. exact Ho.
      * apply (holds_at _ _ _ _ Hw) in Hme as [[=]|[? [= <- _]]].
        right. right. exists row. split; [exact Hrow|]. rewrite <- Hdec.
        cbn [decompressErr]. destruct (decompressErr s); discriminate.
      * right. right. destruct Hs as (row0 & Hrow0 & Hs). exists row0.
        split; [exact Hrow0|].
        destruct (decode_alone compressed row0) as [r0|e0]; cbn [matrix decompressErr] in *;
          [exact Hs|].
        destruct (decompressErr s); [discriminate|contradiction].
Qed.

Lemma run_inv (schedule : list nat) :
  forall s, driver_inv compressed s -> driver_inv compressed (run compressed de schedule s).
Proof.
  unfold run. induction schedule as [|w schedule IH]; intros s Hinv; [exact Hinv|].
  cbn [foldl]. apply IH, step_inv, Hinv.
Qed.

End DriverNoReferences.

Lemma panicked_has_panicked (s : Driver.state) :
  Driver.panicked s = true -> has_panicked s.
Proof.
  unfold Driver.panicked, has_panicked. intros H.
  apply existsb_exists in H as (x & Hin & Hx).
  destruct x; try discriminate.
  apply list_elem_of_In, list_elem_of_lookup_1 in Hin as [w Hw]. exists w. exact Hw.
Qed.

Lemma has_panicked_panicked (s : Driver.state) :
  has_panicked s -> Driver.panicked s = true.
Proof.
  intros [w Hw]. unfold Driver.panicked. apply existsb_exists.
  exists Driver.Panicked. split; [|reflexivity].
  apply list_elem_of_In, (list_elem_of_lookup_2 _ _ _ Hw).
Qed.

Lemma finished_idle (s : Driver.state) :
  Driver.finished s = true ->
  Driver.jobs s = [] /\ forall w x, Driver.workers s !! w = Some x -> x = Driver.Idle.
Proof.
  unfold Driver.finished. intros H. apply andb_true_iff in H as [Hj Hw].
  split; [apply bool_decide_eq_true in Hj; exact Hj|].
  intros w x Hx. rewrite forallb_forall in Hw.
  specialize (Hw x ltac:(apply list_elem_of_In, (list_elem_of_lookup_2 _ _ _ Hx))).
  destruct x; try discriminate. reflexivity.
Qed.

(** *** A schedule that runs to the end

    The single-worker schedule: worker 0 receives, decodes and publishes
    each cell in turn.  Whatever the rows are, the run ends with every job
    taken and every worker back at the channel, or in a panic. *)

Section SequentialRun.
Import Driver.
Variable compressed : CompressedData.
Variable de : Delta.DeltaEncoder.

Lemma step_receive (m : list SparseRow) (e : option error) (c : nat) (js : list nat)
    (ws : list worker) :
  step compressed de (mkState m e (c :: js) (Idle :: ws)) 0
  = mkState m e js (Received c :: ws).
Proof. reflexivity. Qed.

Lemma step_decode (m : list SparseRow) (e : option error) (c : nat) (js : list nat)
    (ws : list worker) :
  (exists res, step compressed de (mkState m e js (Received c :: ws)) 0
               = mkState m e js (Decoded c res :: ws))
  \/ step compressed de (mkState m e js (Received c :: ws)) 0
     = mkState m e js (Panicked :: ws).
Proof.
  unfold step, set_worker. cbn [workers matrix jobs decompressErr lookup list_lookup].
  destruct (CompressedRows compressed !! c) as [row|]; [|right; reflexivity].
  destruct (Decompressor.decompressCell row m de (H_NumGenes (header compressed)))
    as [r|[]]; try (left; eexists; reflexivity).
  right. reflexivity.
Qed.

Lemma step_publish (m : list SparseRow) (e : option error) (c : nat) (res : result SparseRow)
    (js : list nat) (ws : list worker) :
  exists m' e',
    step compressed de (mkState m e js (Decoded c res :: ws)) 0
    = mkState m' e' js (Idle :: ws).
Proof. destruct res; eexists _, _; reflexivity. Qed.

Lemma run_after_panic (k : nat) (m : list SparseRow) (e : option error) (js : list nat)
    (ws : list worker) :
  run compressed de (replicate k 0%nat) (mkState m e js (Panicked :: ws))
  = mkState m e js (Panicked :: ws).
Proof. induction k as [|k IH]; [reflexivity|]. cbn [replicate]. exact IH. Qed.

Lemma sequential_run_ends (k : nat) (js : list nat) :
  forall (m : list SparseRow) (e : option error),
    let s := run compressed de (replicate (3 * length js) 0%nat)
               (mkState m e js (Idle :: replicate k Idle)) in
    panicked s = true \/ finished s = true.
Proof.
  induction js as [|c js IH]; intros m e; cbv zeta.
  - right. unfold finished. cbn [run foldl replicate length Nat.mul jobs workers forallb].
    rewrite bool_decide_eq_true_2 by reflexivity. cbn [andb].
    induction k as [|k IHk]; [reflexivity|exact IHk].
  - replace (3 * length (c :: js))%nat with (S (S (S (3 * length js)))) by (cbn [length]; lia).
    cbn [replicate]. unfold run. cbn [foldl]. rewrite step_receive.
    destruct (step_decode m e c js (replicate k Idle)) as [[res ->]| ->].
    + destruct (step_publish m e c res js (replicate k Idle)) as (m' & e' & ->).
      apply (IH m' e').
    + left. fold (run compressed de (replicate (3 * length js) 0%nat)
                    (step compressed de (mkState m e js (Panicked :: replicate k Idle)) 0)).
      change (step compressed de (mkState m e js (Panicked :: replicate k Idle)) 0)
        with (mkState m e js (Panicked :: replicate k Idle)).
      rewrite run_after_panic. reflexivity.
Qed.

End SequentialRun.

Lemma Decompress_sequential_ends (math_dequant : Z -> Z -> Z) (numWorkers : nat)
    (compressed : CompressedData) :
  (0 < numWorkers)%nat ->
  Driver.Decompress math_dequant numWorkers (Driver.sequential (driver_cells compressed))
    compressed
  <> Driver.Running.
Proof.
  intros Hw. destruct numWorkers as [|k]; [lia|].
  unfold Driver.Decompress, Driver.sequential, Driver.init.
  fold (driver_encoder compressed). fold (driver_cells compressed).
  cbn [replicate].
  pose proof (sequential_run_ends compressed (driver_encoder compressed) k
                (seq 0 (driver_cells compressed))
                (replicate (driver_cells compressed) (mkRow [] [])) None) as Hend.
  cbv zeta in Hend. rewrite length_seq in Hend.
  destruct Hend as [-> | Hfin]; [discriminate|].
  destruct (Driver.panicked _); [discriminate|]. rewrite Hfin. cbn [negb].
  destruct (Driver.decompressErr _); discriminate.
Qed.

(** X16.  [Decompress] on data in which no row names a reference cell.
    Under every number of workers and every interleaving of them, a run
    that returns a matrix returns the same one: for each of the [NumCells]
    cells in order, the row that [decompressCell] gives for that cell alone
    (dequantized in lossy mode), with the stored gene and cell names.  A
    run that returns an error returns the wrapped error of some cell whose
    decoding fails (which one depends on the interleaving), and a run ends
    in a panic only if there are fewer rows than [NumCells] or the decoding
    of some cell panics.  Runs do end: with at least one worker the
    single-worker schedule is never left unfinished, and when there are
    [NumCells] rows that all decode, it returns that matrix. *)
Theorem Decompress_without_references (math_dequant : Z -> Z -> Z) (numWorkers : nat)
    (schedule : list nat) (compressed : CompressedData) :
  Forall (fun row => RefCell row < 0) (CompressedRows compressed) ->
  match Driver.Decompress math_dequant numWorkers schedule compressed with
  | Driver.Returned (Ok (out, genes, cells)) =>
      exists m,
        Forall2 (fun row r => decode_alone compressed row = Ok r)
          (take (driver_cells compressed) (CompressedRows compressed)) m
        /\ out = (if IsLossy (header compressed)
                  then Driver.applyDequantization math_dequant m (driver_encoder compressed)
                  else m)
        /\ genes = GeneNames compressed /\ cells = CellNames compressed
  | Driver.Returned (Err e) =>
      exists idx row e',
        (idx < driver_cells compressed)%nat
        /\ CompressedRows compressed !! idx = Some row
        /\ decode_alone compressed row = Err e' /\ e = EWrapped e'
  | Driver.Panic => panic_cause compressed
  | Driver.Running => True
  end
  /\ ((0 < numWorkers)%nat ->
      Driver.Decompress math_dequant numWorkers (Driver.sequential (driver_cells compressed))
        compressed
      <> Driver.Running)
  /\ ((0 < numWorkers)%nat ->
      (driver_cells compressed <= length (CompressedRows compressed))%nat ->
      Forall (fun row => exists r, decode_alone compressed row = Ok r)
        (take (driver_cells compressed) (CompressedRows compressed)) ->
      exists m,
        Forall2 (fun row r => decode_alone compressed row = Ok r)
          (take (driver_cells compressed) (CompressedRows compressed)) m
        /\ Driver.Decompress math_dequant numWorkers
             (Driver.sequential (driver_cells compressed)) compressed
           = Driver.Returned
               (Ok (if IsLossy (header compressed)
                    then Driver.applyDequantization math_dequant m
                           (driver_encoder compressed)
                    else m,
                    GeneNames compressed, CellNames compressed))).
Proof.
  intros Href.
  assert (Hsafe : forall schedule0,
    match Driver.Decompress math_dequant numWorkers schedule0 compressed with
    | Driver.Returned (Ok (out, genes, cells)) =>
        exists m,
          Forall2 (fun row r => decode_alone compressed row = Ok r)
            (take (driver_cells compressed) (CompressedRows compressed)) m
          /\ out = (if IsLossy (header compressed)
                    then Driver.applyDequantization math_dequant m (driver_encoder compressed)
                    else m)
          /\ genes = GeneNames compressed /\ cells = CellNames compressed
    | Driver.Returned (Err e) =>
        exists idx row e',
          (idx < driver_cells compressed)%nat
          /\ CompressedRows compressed !! idx = Some row
          /\ decode_alone compressed row = Err e' /\ e = EWrapped e'
    | Driver.Panic => panic_cause compressed
    | Driver.Running => True
    end).
  { intros schedule0. unfold Driver.Decompress. fold (driver_encoder compressed).
    pose proof (run_inv compressed Href schedule0 _ (init_inv compressed numWorkers)) as Hinv.
    set (s := Driver.run compressed (driver_encoder compressed) schedule0
                (Driver.init numWorkers compressed)) in *.
    destruct (Driver.panicked s) eqn:Hp.
    { apply (inv_panic _ _ Hinv), panicked_has_panicked, Hp. }
    destruct (Driver.finished s) eqn:Hf; cbn [negb]; [|exact I].
    apply finished_idle in Hf as [Hjobs Hidle].
    destruct (Driver.decompressErr s) as [e|] eqn:He.
    { apply (inv_err _ _ Hinv), He. }
    exists (Driver.matrix s). split; [|repeat split].
    destruct (inv_jobs _ _ Hinv) as (j & Hjn & Hjs & Hh).
    assert (Hj : j = driver_cells compressed).
    { rewrite Hjobs in Hjs. destruct (driver_cells compressed - j)%nat eqn:E; [lia|discriminate]. }
    subst j.
    assert (Hnp : ~ has_panicked s).
    { intros Hpan. apply has_panicked_panicked in Hpan. congruence. }
    assert (Hall : forall idx, (idx < driver_cells compressed)%nat ->
               exists row r, CompressedRows compressed !! idx = Some row
                             /\ decode_alone compressed row = Ok r
                             /\ Driver.matrix s !! idx = Some r).
    { intros idx Hidx. destruct (Hh Hnp idx Hidx) as [[w Hw]|(row & Hrow & Hs)].
      - destruct Hw as [Hw|[res Hw]]; apply Hidle in Hw; discriminate.
      - destruct (decode_alone compressed row) as [r|e] eqn:Hd.
        + exists row, r. repeat split; assumption.
        + rewrite He in Hs. contradiction. }
    pose proof (inv_matrix _ _ Hinv) as Hm.
    assert (Hlen : (driver_cells compressed <= length (CompressedRows compressed))%nat).
    { destruct (le_lt_dec (driver_cells compressed) (length (CompressedRows compressed)))
        as [|Hlt]; [assumption|].
      destruct (Hall _ Hlt) as (row & _ & Hrow & _).
      apply lookup_lt_Some in Hrow. lia. }
    apply Forall2_same_length_lookup. split.
    - rewrite length_take, Hm. lia.
    - intros idx row r Hrow Hr.
      pose proof (lookup_lt_Some _ _ _ Hr) as Hidx. rewrite Hm in Hidx.
      rewrite lookup_take_lt in Hrow by exact Hidx.
      destruct (Hall idx Hidx) as (row' & r' & Hrow' & Hd & Hr').
      congruence. }
  split; [apply Hsafe|]. split; [apply Decompress_sequential_ends|].
  intros Hw Hrows Hdec.
  pose proof (Decompress_sequential_ends math_dequant numWorkers compressed Hw) as Hends.
  pose proof (Hsafe (Driver.sequential (driver_cells compressed))) as Hseq.
  destruct (Driver.Decompress math_dequant numWorkers
              (Driver.sequential (driver_cells compressed)) compressed)
    as [[[[out genes] cells]|e]| |].
  - destruct Hseq as (m & Hm & -> & -> & ->). exists m. split; [exact Hm|reflexivity].
  - exfalso. destruct Hseq as (idx & row & e' & Hidx & Hrow & Hfail & _).
    rewrite Forall_forall in Hdec.
    destruct (Hdec row) as [r Hr]; [|congruence].
    apply (list_elem_of_lookup_2 _ idx). rewrite lookup_take_lt by exact Hidx. exact Hrow.
  - exfalso. destruct Hseq as [Hshort|(idx & row & Hidx & Hrow & Hfail)]; [lia|].
    rewrite Forall_forall in Hdec.
    destruct (Hdec row) as [r Hr]; [|congruence].
    apply (list_elem_of_lookup_2 _ idx). rewrite lookup_take_lt by exact Hidx. exact Hrow.
  - exfalso. apply Hends. reflexivity.
Qed.

(** Two workers on two cells without references: the interleaved run and
    the single-worker run return the same two rows. *)
Lemma Decompress_without_references_witness :
  Forall (fun row => RefCell row < 0) (CompressedRows independent_cells)
  /\ Driver.Decompress Scenario.no_quant 2 [0; 1; 1; 0; 1; 0]%nat independent_cells
     = Driver.Returned (Ok ([mkRow [1; 4] [2; 5]; mkRow [1; 9] [3; 2]],
                            Scenario.gene_names, Scenario.cell_names))
  /\ exists m,
       Forall2 (fun row r => decode_alone independent_cells row = Ok r)
         (take (driver_cells independent_cells) (CompressedRows independent_cells)) m
       /\ Driver.Decompress Scenario.no_quant 2
            (Driver.sequential (driver_cells independent_cells)) independent_cells
          = Driver.Returned
              (Ok (if IsLossy (header independent_cells)
                   then Driver.applyDequantization Scenario.no_quant m
                          (driver_encoder independent_cells)
                   else m,
                   GeneNames independent_cells, CellNames independent_cells)).
Proof.
  assert (H : Forall (fun row => RefCell row < 0) (CompressedRows independent_cells)).
  { repeat (apply Forall_cons; split; [reflexivity|]). apply Forall_nil_2. }
  split; [exact H|]. split; [vm_compute; reflexivity|].
  refine (proj2 (proj2 (Decompress_without_references Scenario.no_quant 2
                          [0; 1; 1; 0; 1; 0]%nat independent_cells H)) _ _ _).
  - lia.
  - vm_compute. lia.
  - repeat (apply Forall_cons; split; [eexists; vm_compute; reflexivity|]).
    apply Forall_nil_2.
Defined.

(** ** Elias-Fano: decoding bytes from outside *)

Section DecodeSafety.
Import BitArray EliasFano EliasAccess.

Local Abbreviation bytes_ok := (Forall (fun b => 0 <= b < 256)).

Lemma le_value_range (bs : list Z) :
  bytes_ok bs -> 0 <= le_value bs < 256 ^ Z.of_nat (length bs).
Proof.
  induction 1 as [|b bs Hb _ IH]; [cbn; lia|].
  cbn [le_value length]. rewrite Nat2Z.inj_succ, Z.pow_succ_r by lia. lia.
Qed.

Lemma read_le_range (k : nat) (r : list Z) (v : Z) (rest : list Z) :
  bytes_ok r -> read_le k r = Ok (v, rest) -> 0 <= v /\ bytes_ok rest.
Proof.
  intros Hr H. unfold read_le in H.
  destruct (decide (r = [])); [discriminate|].
  destruct (decide (length r < k)%nat); [discriminate|].
  injection H as <- <-. split.
  - apply le_value_range, Forall_take, Hr.
  - apply Forall_drop, Hr.
Qed.

Lemma read_words_range (k : nat) :
  forall r, bytes_ok r ->
    length (read_words k r) = k /\ Forall (fun w => 0 <= w < 2 ^ 64) (read_words k r).
Proof.
  induction k as [|k IH]; intros r Hr; [split; constructor|].
  cbn [read_words]. destruct (IH (drop 8 r) (Forall_drop _ _ _ Hr)) as [Hl Hw].
  split; [cbn; rewrite Hl; reflexivity|].
  constructor; [|exact Hw].
  pose proof (le_value_range (take 8 r) (Forall_take _ _ _ Hr)) as Hv.
  assert (Hp : 256 ^ Z.of_nat (length (take 8 r)) <= 2 ^ 64).
  { change (2 ^ 64) with (256 ^ 8). apply Z.pow_le_mono_r; [lia|].
    rewrite length_take. lia. }
  lia.
Qed.

(** What [ReadFrom] returns for in-range bytes is well formed, unless the
    word count wrapped. *)
Lemma ReadFrom_wf (r : list Z) (ba : t) (rest : list Z) :
  bytes_ok r -> ReadFrom r = Ok (ba, rest) -> Size ba + 63 < 2 ^ 32 ->
  bitarray_wf ba /\ bytes_ok rest.
Proof.
  intros Hr H Hfit. unfold ReadFrom in H.
  destruct (read_le 4 r) as [[size r1]|] eqn:Hsz; [|discriminate].
  cbn [mbind result_bind] in H.
  destruct (read_le_range _ _ _ _ Hr Hsz) as [Hs0 Hr1].
  destruct (decide (Z.to_nat (wrap32 (size + 63) / 64) = 0%nat)) as [E|_].
  - injection H as <- <-. cbn [Size] in Hfit. rewrite wrap32_small in E by lia.
    split; [|exact Hr1]. repeat split; cbn [Size Data]; try lia.
    + rewrite E. reflexivity.
    + constructor.
  - destruct (decide (r1 = [])); [discriminate|].
    destruct (decide _); [discriminate|]. injection H as <- <-.
    cbn [Size] in Hfit. rewrite wrap32_small by lia.
    destruct (read_words_range (Z.to_nat ((size + 63) / 64)) r1 Hr1) as [Hl Hw].
    split; [|apply Forall_drop, Hr1]. repeat split; cbn [Size Data]; try lia; assumption.
Qed.

Lemma ReadBits_loop_total (m : nat) :
  forall (i : Z) (ba : t) (pos acc : Z),
    bitarray_wf ba -> exists v, ReadBits_loop m i ba pos acc = Ok v.
Proof.
  induction m as [|m IH]; intros i ba pos acc Hwf; [exists acc; reflexivity|].
  cbn [ReadBits_loop]. rewrite GetBit_wf by (try exact Hwf; apply wrap32_range).
  cbn [mbind result_bind]. apply IH, Hwf.
Qed.

Lemma skip_zeros_total (high : t) (k : nat) :
  bitarray_wf high ->
  forall highPos currentHigh,
    0 <= highPos ->
    exists hp ch, skip_zeros k high highPos currentHigh = Ok (hp, ch) /\ 0 <= hp.
Proof.
  intros Hwf. induction k as [|k IH]; intros highPos currentHigh Hp.
  - exists highPos, currentHigh. split; [reflexivity|exact Hp].
  - cbn [skip_zeros]. destruct (highPos <? Size high).
    + rewrite GetBit_wf by assumption. cbn [mbind result_bind].
      destruct (bitAt high highPos).
      * exists highPos, currentHigh. split; [reflexivity|exact Hp].
      * apply IH. lia.
    + exists highPos, currentHigh. split; [reflexivity|exact Hp].
Qed.

Lemma decode_loop_total (l : Z) (low high : t) (k : nat) :
  bitarray_wf low -> bitarray_wf high ->
  forall i highPos currentHigh,
    0 <= highPos ->
    (exists decoded, decode_loop k l low high i highPos currentHigh = Ok decoded)
    \/ decode_loop k l low high i highPos currentHigh = Err EHighExhausted.
Proof.
  intros Hl Hh. induction k as [|k IH]; intros i highPos currentHigh Hp.
  - left. exists []. reflexivity.
  - cbn [decode_loop].
    destruct (skip_zeros_total high (Z.to_nat (Size high - highPos)) Hh highPos currentHigh Hp)
      as (hp & ch & -> & Hhp).
    cbn [mbind result_bind]. destruct (Size high <=? hp); [right; reflexivity|].
    unfold ReadBits.
    destruct (ReadBits_loop_total (Z.to_nat l) 0 low (wrap32 (i * l)) 0 Hl) as [v ->].
    cbn [mbind result_bind].
    destruct (IH (i + 1) (wrap32 (hp + 1)) ch) as [[decoded ->]| ->].
    + apply wrap32_range.
    + left. eexists. reflexivity.
    + right. reflexivity.
Qed.

Lemma findHighValue_loop_total (high : t) (index : Z) (k : nat) :
  bitarray_wf high ->
  forall pos setBitsCount,
    0 <= pos -> exists v, findHighValue_loop k high index pos setBitsCount = Ok v.
Proof.
  intros Hwf. induction k as [|k IH]; intros pos c Hp; [exists 0; reflexivity|].
  cbn [findHighValue_loop]. destruct ((pos <? Size high) && (c <=? index)).
  - rewrite GetBit_wf by assumption. cbn [mbind result_bind].
    destruct (bitAt high pos).
    + destruct (c =? index); [eexists; reflexivity|]. apply IH, wrap32_range.
    + apply IH, wrap32_range.
  - exists 0. reflexivity.
Qed.

(** The decoder that [NewEliasDecoder] returns for in-range bytes. *)
Lemma NewEliasDecoder_arrays (data : list Z) (d : EliasDecoder) :
  bytes_ok data -> NewEliasDecoder data = Ok d ->
  0 <= d_count d
  /\ (d_count d <> 0 ->
      exists low high,
        lowArray d = Some low /\ highArray d = Some high
        /\ (Size low + 63 < 2 ^ 32 -> bitarray_wf low)
        /\ (Size high + 63 < 2 ^ 32 -> bitarray_wf high)).
Proof.
  intros Hdata H. unfold NewEliasDecoder in H.
  destruct (decide (length data < 12)%nat); [discriminate|].
  destruct (read_le 4 data) as [[u r1]|] eqn:H1; [|discriminate].
  cbn [mbind result_bind] in H. destruct (read_le_range _ _ _ _ Hdata H1) as [_ Hr1].
  destruct (read_le 4 r1) as [[k r2]|] eqn:H2; [|discriminate].
  cbn [mbind result_bind] in H. destruct (read_le_range _ _ _ _ Hr1 H2) as [Hk Hr2].
  destruct (read_le 4 r2) as [[l r3]|] eqn:H3; [|discriminate].
  cbn [mbind result_bind] in H. destruct (read_le_range _ _ _ _ Hr2 H3) as [_ Hr3].
  destruct (Z.eqb_spec k 0) as [->|Hk0].
  - injection H as <-. split; [cbn; lia|]. intros Hne. cbn in Hne. contradiction.
  - destruct (ReadFrom r3) as [[low r4]|] eqn:H4; [|discriminate].
    cbn [mbind result_bind] in H.
    destruct (ReadFrom r4) as [[high r5]|] eqn:H5; [|discriminate].
    injection H as <-. cbn [d_count lowArray highArray]. split; [exact Hk|].
    intros _. exists low, high. split; [reflexivity|]. split; [reflexivity|].
    split.
    + intros Hfit. apply (ReadFrom_wf _ _ _ Hr3 H4 Hfit).
    + intros Hfit. apply (ReadFrom_wf r4 high r5); try assumption.
      (* the bytes after the low vector are in range whatever its size *)
      unfold ReadFrom in H4.
      destruct (read_le 4 r3) as [[size r']|] eqn:Hsz; [|discriminate].
      cbn [mbind result_bind] in H4.
      destruct (read_le_range _ _ _ _ Hr3 Hsz) as [_ Hr'].
      destruct (decide _); [injection H4 as _ <-; exact Hr'|].
      destruct (decide _); [discriminate|]. destruct (decide _); [discriminate|].
      injection H4 as _ <-. apply Forall_drop, Hr'.
Qed.

End DecodeSafety.

(** Past that size the word count [(size + 63) / 64] wraps: a high vector
    declared with [2^32 - 1] bits is read with no words at all, and the
    first [GetBit] of [Decode] indexes past the end of [Data]. *)
Lemma Decode_panics_on_wrapped_word_count :
  exists d,
    EliasFano.NewEliasDecoder
      ([8; 0; 0; 0; 1; 0; 0; 0; 0; 0; 0; 0] ++ [0; 0; 0; 0] ++ [255; 255; 255; 255]) = Ok d
    /\ EliasFano.Decode d = Err EPanic.
Proof.
  eexists. split; [vm_compute; reflexivity|].
  unfold EliasFano.Decode. cbn [EliasFano.d_count EliasFano.lowArray EliasFano.highArray Z.eqb].
  lazy. reflexivity.
Qed.

(** X17.  No panic on bytes from outside: when [NewEliasDecoder] accepts a
    byte string whose two bit-vector sizes are at most 2^32 - 64, [Decode]
    either returns a list or fails with its own error (high bits
    exhausted), and [Access] returns an element for every index below the
    count and the out-of-range error for every other index; the
    "empty sequence" error of [Access] is never returned. *)
Theorem Decode_Access_never_panic (data : list Z) (d : EliasFano.EliasDecoder) :
  Forall (fun b => 0 <= b < 256) data ->
  EliasFano.NewEliasDecoder data = Ok d ->
  (forall ba, EliasFano.lowArray d = Some ba \/ EliasFano.highArray d = Some ba ->
              BitArray.Size ba + 63 < 2 ^ 32) ->
  ((exists decoded, EliasFano.Decode d = Ok decoded)
   \/ EliasFano.Decode d = Err EHighExhausted)
  /\ forall index, 0 <= index ->
       if index <? EliasFano.d_count d
       then exists v, EliasAccess.Access d index = EliasAccess.Accessed v
       else EliasAccess.Access d index = EliasAccess.IndexOutOfRange.
Proof.
  intros Hdata Hnew Hfit.
  destruct (NewEliasDecoder_arrays data d Hdata Hnew) as [Hk Harr].
  split.
  - unfold EliasFano.Decode. destruct (Z.eqb_spec (EliasFano.d_count d) 0) as [|Hne].
    + left. exists []. reflexivity.
    + destruct (Harr Hne) as (low & high & El & Eh & Hwl & Hwh). rewrite El, Eh.
      apply decode_loop_total; [apply Hwl, Hfit|apply Hwh, Hfit|lia]; auto.
  - intros index Hindex. unfold EliasAccess.Access.
    destruct (Z.ltb_spec index (EliasFano.d_count d)) as [Hlt|Hge];
      destruct (Z.leb_spec (EliasFano.d_count d) index); try lia; [|reflexivity].
    destruct (Z.eqb_spec (EliasFano.d_count d) 0) as [|Hne]; [lia|].
    destruct (Harr Hne) as (low & high & El & Eh & Hwl & Hwh). rewrite El, Eh.
    unfold BitArray.ReadBits.
    destruct (ReadBits_loop_total (Z.to_nat (EliasFano.d_lowBits d)) 0 low
                (wrap32 (index * EliasFano.d_lowBits d)) 0) as [lv ->];
      [apply Hwl, Hfit; auto|].
    unfold EliasAccess.findHighValue.
    destruct (findHighValue_loop_total high index (Z.to_nat (BitArray.Size high))
                ltac:(apply Hwh, Hfit; auto) 0 0 ltac:(lia)) as [hv ->].
    eexists. reflexivity.
Qed.

Lemma Decode_Access_never_panic_witness :
  ((exists decoded, EliasFano.Decode (EliasFano.mkDecoder 8 3 0
                      (Some (BitArray.mk [] 0)) (Some (BitArray.mk [2082] 12)))
                    = Ok decoded)
   \/ EliasFano.Decode (EliasFano.mkDecoder 8 3 0
        (Some (BitArray.mk [] 0)) (Some (BitArray.mk [2082] 12)))
      = Err EHighExhausted)
  /\ forall index, 0 <= index ->
       if index <? 3
       then exists v,
              EliasAccess.Access (EliasFano.mkDecoder 8 3 0
                (Some (BitArray.mk [] 0)) (Some (BitArray.mk [2082] 12))) index
              = EliasAccess.Accessed v
       else EliasAccess.Access (EliasFano.mkDecoder 8 3 0
              (Some (BitArray.mk [] 0)) (Some (BitArray.mk [2082] 12))) index
            = EliasAccess.IndexOutOfRange.
Proof.
  refine (Decode_Access_never_panic Scenario.ef_1_3_5 _ _ _ _).
  - apply (bool_decide_unpack _). vm_compute. exact I.
  - vm_compute. reflexivity.
  - intros ba [[= <-]|[= <-]]; vm_compute; reflexivity.
Defined.

(** ** Zig-zag coding of the deltas *)

Lemma unzigzag_spec (u : Z) :
  0 <= u < 2 ^ 32 ->
  Varint.unzigzag u = if u mod 2 =? 0 then u / 2 else - (u / 2) - 1.
Proof.
  intros Hu. unfold Varint.unzigzag. change (2 ^ 32) with 4294967296 in Hu.
  rewrite Z.shiftr_div_pow2 by lia. change (2 ^ 1) with 2. rewrite land_1.
  assert (Hm : u mod 2 = 0 \/ u mod 2 = 1) by euclid.
  destruct Hm as [Hm|Hm]; rewrite Hm.
  - change (wrap32 (- 0)) with 0. rewrite Z.lxor_0_r. cbn [Z.eqb].
    apply int32_of_small. unfold is_i32. change (2 ^ 31) with 2147483648. euclid.
  - change (wrap32 (- 1)) with (2 ^ 32 - 1). cbn [Z.eqb].
    rewrite lxor_ones32 by (change (2 ^ 32) with 4294967296; euclid).
    unfold int32_of, wrap32. change (2 ^ 32) with 4294967296.
    change (2 ^ 31) with 2147483648.
    destruct (Z.ltb_spec ((4294967296 - 1 - u / 2) mod 4294967296) 2147483648); euclid.
Qed.

(** X18.  Zig-zag coding is a bijection between the [int32] deltas and the
    [uint32] values that the varints carry: [zigzag] sends 0, -1, 1, -2, ...
    to 0, 1, 2, 3, ..., and [unzigzag] is its inverse in both directions. *)
Theorem zigzag_bijection :
  (forall v, is_i32 v ->
     0 <= Varint.zigzag v < 2 ^ 32
     /\ Varint.zigzag v = (if 0 <=? v then 2 * v else - 2 * v - 1)
     /\ Varint.unzigzag (Varint.zigzag v) = v)
  /\ (forall u, 0 <= u < 2 ^ 32 ->
        is_i32 (Varint.unzigzag u) /\ Varint.zigzag (Varint.unzigzag u) = u).
Proof.
  split.
  - intros v Hv. split; [apply zigzag_range, Hv|].
    split; [apply zigzag_spec, Hv|apply unzigzag_zigzag, Hv].
  - intros u Hu. rewrite unzigzag_spec by exact Hu.
    change (2 ^ 32) with 4294967296 in Hu.
    assert (Hi : is_i32 (if u mod 2 =? 0 then u / 2 else - (u / 2) - 1)).
    { unfold is_i32. change (2 ^ 31) with 2147483648.
      destruct (Z.eqb_spec (u mod 2) 0); euclid. }
    split; [exact Hi|]. rewrite zigzag_spec by exact Hi.
    destruct (Z.eqb_spec (u mod 2) 0).
    + destruct (Z.leb_spec 0 (u / 2)); euclid.
    + destruct (Z.leb_spec 0 (- (u / 2) - 1)); euclid.
Qed.

(** ** Elias-Fano: what decoding the encoder's bytes returns *)

Section EncodeDecode.
Import BitArray EliasFano.

Lemma low_mask (l val : Z) :
  0 <= l < 32 -> Z.land val (wrap32 (shl32 1 l - 1)) = val mod 2 ^ l.
Proof.
  intros Hl. rewrite shl32_1 by exact Hl.
  assert (Hp : 0 < 2 ^ l <= 2 ^ 31) by (split; [apply Z.pow_pos_nonneg; lia|apply Z.pow_le_mono_r; lia]).
  rewrite wrap32_small by (change (2 ^ 32) with 4294967296; change (2 ^ 31) with 2147483648 in Hp; lia).
  replace (2 ^ l - 1) with (Z.ones l) by (rewrite Z.ones_equiv; lia).
  apply Z.land_ones. lia.
Qed.

Lemma encode_low_bits (l : Z) (sequence : list Z) :
  0 <= l < 32 ->
  forall (i : Z) (low : t),
    bitarray_wf low -> 0 <= i ->
    (i + Z.of_nat (length sequence)) * l <= Size low ->
    i + Z.of_nat (length sequence) <= 2 ^ 32 ->
    (forall q, i * l <= q -> bitAt low q = false) ->
    exists low',
      encode_low l i sequence low = Ok low' /\ bitarray_wf low' /\ Size low' = Size low
      /\ (forall q, 0 <= q < i * l -> bitAt low' q = bitAt low q)
      /\ (forall (j : nat) (val : Z),
            sequence !! j = Some val ->
            forall b, 0 <= b < l ->
              bitAt low' ((i + Z.of_nat j) * l + b) = Z.testbit val b).
Proof.
  intros Hl. induction sequence as [|val rest IH]; intros i low Hwf Hi Hfit Hmax Hclear.
  - exists low. split; [reflexivity|]. split; [exact Hwf|]. split; [reflexivity|].
    split; [reflexivity|]. intros j v [=].
  - cbn [encode_low length] in *. rewrite Nat2Z.inj_succ in Hfit, Hmax.
    pose proof Hwf as (Hs0 & Hs63 & _).
    assert (Hil : 0 <= i * l) by nia.
    assert (Hil1 : (i + 1) * l = i * l + l) by lia.
    assert (Hnext : (i + 1) * l <= Size low) by nia.
    rewrite low_mask by exact Hl.
    rewrite (wrap32_small i) by lia.
    rewrite (wrap32_small (i * l)) by lia.
    unfold WriteBits.
    destruct (WriteBits_loop_wf (Z.to_nat l) 0 low (i * l) (val mod 2 ^ l) Hwf Hil
                ltac:(lia) ltac:(lia)) as (low1 & -> & Hwf1 & Hs1 & Hb1).
    cbn [mbind result_bind].
    destruct (IH (i + 1) low1 Hwf1 ltac:(lia)) as (low' & -> & Hwf' & Hs' & Hframe & Hbits).
    + rewrite Hs1. lia.
    + lia.
    + intros q Hq. rewrite Hb1 by lia. rewrite Hclear by lia.
      destruct (Z.ltb_spec q (i * l + 0 + Z.of_nat (Z.to_nat l))); [lia|].
      rewrite andb_false_r. reflexivity.
    + exists low'. split; [reflexivity|]. split; [exact Hwf'|]. split; [congruence|].
      split.
      * intros q Hq. rewrite Hframe by lia. rewrite Hb1 by lia.
        destruct (Z.leb_spec (i * l + 0) q); [lia|]. rewrite orb_false_r. reflexivity.
      * intros [|j] v Hv b Hb.
        -- injection Hv as <-. rewrite Nat2Z.inj_0, Z.add_0_r.
           rewrite Hframe by lia. rewrite Hb1 by lia. rewrite Hclear by lia.
           replace (i * l + b - i * l) with b by lia.
           rewrite Z.testbit_mod_pow2 by lia.
           destruct (Z.leb_spec (i * l + 0) (i * l + b)),
             (Z.ltb_spec (i * l + b) (i * l + 0 + Z.of_nat (Z.to_nat l))),
             (Z.ltb_spec (i * l + b) (Size low)), (Z.ltb_spec b l), (Z.ltb_spec b 64);
             try lia.
           cbn. rewrite andb_true_r. reflexivity.
        -- cbn [lookup list_lookup] in Hv.
           replace (i + Z.of_nat (S j)) with (i + 1 + Z.of_nat j) by lia.
           apply (Hbits j v Hv b Hb).
Qed.

Lemma ReadBits_low (l : Z) (low : t) (pos val : Z) :
  0 <= l < 32 -> bitarray_wf low -> 0 <= pos -> pos + l <= 2 ^ 32 ->
  (forall b, 0 <= b < l -> bitAt low (pos + b) = Z.testbit val b) ->
  ReadBits low pos l = Ok (val mod 2 ^ l).
Proof.
  intros Hl Hwf Hpos Hfit Hbits. unfold ReadBits.
  destruct (ReadBits_loop_bits (Z.to_nat l) 0 low pos 0 Hwf Hpos ltac:(lia) ltac:(lia)
              ltac:(lia)) as (r & -> & Hr0 & Hrb).
  f_equal. apply Z.bits_inj'. intros b Hb.
  rewrite Hrb, Z.bits_0, Z.testbit_mod_pow2 by lia. cbn [orb].
  destruct (Z.ltb_spec b l) as [Hbl|Hbl].
  - rewrite Hbits by lia.
    destruct (Z.leb_spec 0 b), (Z.ltb_spec b (0 + Z.of_nat (Z.to_nat l))), (Z.ltb_spec b 64);
      try lia.
    reflexivity.
  - destruct (Z.ltb_spec b (0 + Z.of_nat (Z.to_nat l))); [lia|].
    rewrite andb_false_r. reflexivity.
Qed.

Lemma high_sum_nonneg (l : Z) (sequence : list Z) :
  Forall (fun val => 0 <= val) sequence -> 0 <= high_sum l sequence.
Proof.
  induction 1 as [|val rest Hval _ IH]; [cbn; lia|].
  cbn [high_sum foldr]. fold (high_sum l rest).
  pose proof (proj2 (Z.shiftr_nonneg val l) Hval). lia.
Qed.

Lemma encode_high_bits (l : Z) (sequence : list Z) :
  forall (pos : Z) (high : t),
    bitarray_wf high -> 0 <= pos ->
    Forall (fun val => 0 <= val) sequence ->
    pos + high_sum l sequence + Z.of_nat (length sequence) <= Size high ->
    (forall q, pos <= q -> bitAt high q = false) ->
    exists high',
      encode_high l (Size high) pos sequence high = Ok high'
      /\ bitarray_wf high' /\ Size high' = Size high
      /\ (forall q, 0 <= q < pos -> bitAt high' q = bitAt high q)
      /\ laid_out l high' pos sequence.
Proof.
  induction sequence as [|val rest IH]; intros pos high Hwf Hpos Hvals Hfit Hclear.
  - exists high. split; [reflexivity|]. split; [exact Hwf|]. split; [reflexivity|].
    split; [reflexivity|exact I].
  - apply Forall_cons in Hvals as [Hval Hvals].
    cbn [encode_high length high_sum foldr laid_out] in *. fold (high_sum l rest) in *.
    rewrite Nat2Z.inj_succ in Hfit.
    pose proof Hwf as (Hs0 & Hs63 & _).
    pose proof (proj2 (Z.shiftr_nonneg val l) Hval) as Hh.
    pose proof (high_sum_nonneg l rest Hvals) as Hsum.
    set (p := pos + Z.shiftr val l) in *.
    assert (Hp : 0 <= p < Size high) by lia.
    rewrite (wrap32_small p) by lia.
    destruct (Z.ltb_spec p (Size high)); [|lia].
    destruct (SetBit_wf high p Hwf ltac:(lia)) as (high1 & -> & Hwf1 & Hs1 & Hb1).
    cbn [mbind result_bind]. rewrite (wrap32_small (p + 1)) by lia. rewrite <- Hs1.
    destruct (IH (p + 1) high1 Hwf1 ltac:(lia) Hvals) as (high' & -> & Hwf' & Hs' & Hframe & Hlaid).
    + rewrite Hs1. lia.
    + intros q Hq. rewrite Hb1 by lia. rewrite Hclear by lia.
      destruct (Z.eqb_spec q p); [lia|]. reflexivity.
    + exists high'. split; [reflexivity|]. split; [exact Hwf'|]. split; [congruence|].
      split; [|split; [|split; [|split]]].
      * intros q Hq. rewrite Hframe by lia. rewrite Hb1 by lia.
        destruct (Z.eqb_spec q p); [lia|]. rewrite orb_false_r. reflexivity.
      * intros q Hq. rewrite Hframe by lia. rewrite Hb1 by lia. rewrite Hclear by lia.
        destruct (Z.eqb_spec q p); [lia|]. reflexivity.
      * rewrite Hframe by lia. rewrite Hb1 by lia. rewrite Z.eqb_refl.
        destruct (Z.ltb_spec p (Size high)); [|lia]. apply orb_true_r.
      * lia.
      * exact Hlaid.
Qed.

Lemma skip_zeros_finds (high : t) (k : nat) :
  bitarray_wf high ->
  forall highPos currentHigh,
    0 <= highPos -> 0 <= currentHigh ->
    currentHigh + Z.of_nat k < 2 ^ 32 ->
    highPos + Z.of_nat k < Size high ->
    (forall q, highPos <= q < highPos + Z.of_nat k -> bitAt high q = false) ->
    bitAt high (highPos + Z.of_nat k) = true ->
    skip_zeros (Z.to_nat (Size high - highPos)) high highPos currentHigh
    = Ok (highPos + Z.of_nat k, currentHigh + Z.of_nat k).
Proof.
  intros Hwf. induction k as [|k IH]; intros highPos ch Hp Hc Hfit Hin Hzero Hone.
  - rewrite Nat2Z.inj_0, !Z.add_0_r in *.
    replace (Z.to_nat (Size high - highPos)) with (S (Z.to_nat (Size high - highPos - 1)))
      by lia.
    cbn [skip_zeros]. destruct (Z.ltb_spec highPos (Size high)); [|lia].
    rewrite GetBit_wf, Hone by assumption. reflexivity.
  - rewrite Nat2Z.inj_succ in *.
    replace (Z.to_nat (Size high - highPos))
      with (S (Z.to_nat (Size high - (highPos + 1)))) by lia.
    cbn [skip_zeros]. destruct (Z.ltb_spec highPos (Size high)); [|lia].
    rewrite GetBit_wf, Hzero by (try assumption; lia). cbn [mbind result_bind].
    rewrite wrap32_small by lia.
    rewrite IH; try lia.
    + f_equal. f_equal; lia.
    + intros q Hq. apply Hzero. lia.
    + replace (highPos + 1 + Z.of_nat k) with (highPos + Z.succ (Z.of_nat k)) by lia.
      exact Hone.
Qed.

Lemma decode_loop_laid_out (l : Z) (low high : t) (sequence : list Z) :
  0 <= l < 32 -> bitarray_wf high ->
  Forall (fun val => 0 <= val) sequence ->
  forall i highPos,
    0 <= i <= highPos ->
    laid_out l high highPos sequence ->
    (forall (j : nat) (val : Z),
       sequence !! j = Some val ->
       ReadBits low (wrap32 ((i + Z.of_nat j) * l)) l = Ok (val mod 2 ^ l)) ->
    decode_loop (length sequence) l low high i highPos (highPos - i)
    = Ok (accumulated l (highPos - i) sequence).
Proof.
  intros Hl Hwf Hvals. pose proof Hwf as (Hs0 & Hs63 & _).
  induction Hvals as [|val rest Hval Hvals IH]; intros i highPos Hi Hlaid Hlow;
    [reflexivity|].
  cbn [length decode_loop accumulated laid_out] in *.
  destruct Hlaid as (Hzero & Hone & Hin & Hlaid).
  pose proof (proj2 (Z.shiftr_nonneg val l) Hval) as Hh.
  rewrite <- (Z2Nat.id (Z.shiftr val l)) in Hzero, Hone, Hin, Hlaid |- * by exact Hh.
  rewrite (skip_zeros_finds high (Z.to_nat (Z.shiftr val l)) Hwf) by (try assumption; lia).
  cbn [mbind result_bind].
  destruct (Z.leb_spec (Size high) (highPos + Z.of_nat (Z.to_nat (Z.shiftr val l)))); [lia|].
  pose proof (Hlow 0%nat val eq_refl) as Hl0. rewrite Nat2Z.inj_0, Z.add_0_r in Hl0.
  rewrite Hl0. cbn [mbind result_bind].
  rewrite (wrap32_small (highPos + _ + 1)) by lia.
  replace (highPos - i + Z.of_nat (Z.to_nat (Z.shiftr val l)))
    with (highPos + Z.of_nat (Z.to_nat (Z.shiftr val l)) + 1 - (i + 1)) by lia.
  rewrite IH.
  - cbn [mbind result_bind]. f_equal. f_equal. f_equal.
    assert (Hm : 0 <= val mod 2 ^ l < 2 ^ l) by (apply Z.mod_pos_bound, Z.pow_pos_nonneg; lia).
    assert (Hp : 2 ^ l <= 2 ^ 31) by (apply Z.pow_le_mono_r; lia).
    apply wrap32_small. change (2 ^ 32) with 4294967296.
    change (2 ^ 31) with 2147483648 in Hp. lia.
  - lia.
  - exact Hlaid.
  - intros j v Hv. replace (i + 1 + Z.of_nat j) with (i + Z.of_nat (S j)) by lia.
    apply Hlow. exact Hv.
Qed.

End EncodeDecode.

Section EncodeDecodeMain.
Import BitArray EliasFano.

Lemma NewEliasDecoder_bytes (u k l : Z) (low high : t) :
  0 <= u < 2 ^ 32 -> 0 < k < 2 ^ 32 -> 0 <= l < 2 ^ 32 ->
  bitarray_wf low -> bitarray_wf high ->
  NewEliasDecoder ((le_bytes 4 u ++ le_bytes 4 k ++ le_bytes 4 l)
                   ++ WriteTo low ++ WriteTo high)
  = Ok (mkDecoder u k l (Some low) (Some high)).
Proof.
  intros Hu Hk Hl Hwfl Hwfh. unfold NewEliasDecoder.
  destruct (decide _) as [Hshort|_].
  { rewrite !length_app, !length_le_bytes in Hshort. lia. }
  rewrite <- !app_assoc.
  rewrite read_le32 by lia. cbn [mbind result_bind].
  rewrite read_le32 by lia. cbn [mbind result_bind].
  rewrite read_le32 by lia. cbn [mbind result_bind].
  destruct (Z.eqb_spec k 0) as [->|_]; [lia|].
  rewrite ReadFrom_WriteTo_wf by exact Hwfl. cbn [mbind result_bind].
  rewrite <- (app_nil_r (WriteTo high)).
  rewrite ReadFrom_WriteTo_wf by exact Hwfh. reflexivity.
Qed.

Lemma Decode_Encode_accumulated (e : EliasEncoder) (sequence : list Z) :
  0 <= universe e < 2 ^ 32 ->
  0 <= lowBits e < 32 ->
  count e = Z.of_nat (length sequence) -> 0 < count e ->
  count e * lowBits e + 63 < 2 ^ 32 ->
  count e + Z.shiftr (universe e) (lowBits e) + 1 + 63 < 2 ^ 32 ->
  Forall (fun val => 0 <= val < universe e) sequence ->
  Sorted Z.lt sequence ->
  high_sum (lowBits e) sequence <= Z.shiftr (universe e) (lowBits e) + 1 ->
  exists bytes,
    Encode e sequence = Ok bytes
    /\ ef_decode bytes = Ok (accumulated (lowBits e) 0 sequence).
Proof.
  destruct e as [u k l]. cbn [universe count lowBits].
  intros Hu Hl Hk Hk0 Hlow Hhigh Hvals Hsorted Hsum.
  assert (Hnn : Forall (fun val => 0 <= val) sequence).
  { eapply Forall_impl; [exact Hvals|]. cbn. intros; lia. }
  assert (Hlt : Forall (fun val => val < u) sequence).
  { eapply Forall_impl; [exact Hvals|]. cbn. intros; lia. }
  pose proof (proj2 (Z.shiftr_nonneg u l) (proj1 Hu)) as Hul.
  assert (Hkl : 0 <= k * l) by nia.
  unfold Encode. cbn [universe count lowBits].
  destruct (decide (sequence = [])) as [->|_]; [cbn in Hk; lia|].
  rewrite wrap32_small by lia. rewrite <- Hk, Z.eqb_refl. cbn [negb].
  assert (Hv : validate u None sequence = Ok tt).
  { apply validate_Ok. repeat split; try assumption. intros p [=]. }
  rewrite Hv. cbn [mbind result_bind].
  destruct (Z.eqb_spec k 0) as [->|_]; [lia|].
  rewrite (wrap32_small (k * l)) by lia.
  rewrite (wrap32_small (k + Z.shiftr u l)) by lia.
  rewrite (wrap32_small (k + Z.shiftr u l + 1)) by lia.
  destruct (NewBitArray_wf (k * l) Hkl Hlow) as [Hwl Hcl].
  destruct (encode_low_bits l sequence Hl 0 (NewBitArray (k * l)) Hwl ltac:(lia))
    as (low & -> & Hwfl & Hsl & _ & Hlbits).
  { cbn [Size NewBitArray]. lia. }
  { lia. }
  { intros q _. apply Hcl. }
  cbn [mbind result_bind].
  destruct (NewBitArray_wf (k + Z.shiftr u l + 1) ltac:(lia) ltac:(lia)) as [Hwh Hch].
  destruct (encode_high_bits l sequence 0 (NewBitArray (k + Z.shiftr u l + 1)) Hwh
              ltac:(lia) Hnn) as (high & Henc & Hwfh & Hsh & _ & Hlaid).
  { cbn [Size NewBitArray]. lia. }
  { intros q _. apply Hch. }
  cbn [Size NewBitArray] in Henc. rewrite Henc. cbn [mbind result_bind].
  eexists. split; [reflexivity|]. unfold ef_decode.
  rewrite NewEliasDecoder_bytes by (try assumption; lia).
  cbn [mbind result_bind]. unfold Decode. cbn [d_count d_lowBits lowArray highArray].
  destruct (Z.eqb_spec k 0) as [->|_]; [lia|].
  rewrite Hk, Nat2Z.id.
  change (decode_loop (length sequence) l low high 0 0 0)
    with (decode_loop (length sequence) l low high 0 0 (0 - 0)).
  rewrite (decode_loop_laid_out l low high sequence Hl Hwfh Hnn 0 0 ltac:(lia) Hlaid).
  - reflexivity.
  - intros j val Hj. pose proof (lookup_lt_Some _ _ _ Hj) as Hjlt.
    assert (Hjl : 0 <= (0 + Z.of_nat j) * l /\ (0 + Z.of_nat j) * l + l <= k * l) by nia.
    rewrite wrap32_small by lia.
    apply ReadBits_low; try assumption; try lia.
    intros b Hb. apply (Hlbits j val Hj b Hb).
Qed.

Lemma accumulated_same (l : Z) (sequence : list Z) :
  0 <= l < 32 ->
  Forall (fun val => 0 <= val < 2 ^ 32) sequence ->
  (forall (j : nat) (val : Z),
     sequence !! j = Some val -> (S j < length sequence)%nat -> Z.shiftr val l = 0) ->
  accumulated l 0 sequence = sequence
  /\ high_sum l sequence = Z.shiftr (default 0 (last sequence)) l.
Proof.
  intros Hl Hvals. induction Hvals as [|val rest Hval Hvals IH]; intros Hzero.
  - split; [reflexivity|]. cbn. symmetry. apply Z.shiftr_0_l.
  - cbn [accumulated high_sum foldr]. fold (high_sum l rest).
    assert (Hpow : 0 < 2 ^ l) by (apply Z.pow_pos_nonneg; lia).
    assert (Hsame : forall h, h = Z.shiftr val l ->
               Z.lor (shl32 h l) (val mod 2 ^ l) = val).
    { intros h ->. rewrite Z.shiftr_div_pow2 by lia. unfold shl32.
      destruct (Z.leb_spec 32 l); [lia|].
      rewrite Z.shiftl_mul_pow2 by lia.
      assert (0 <= val / 2 ^ l * 2 ^ l <= val).
      { pose proof (Z.div_mod val (2 ^ l) ltac:(lia)).
        pose proof (Z.mod_pos_bound val (2 ^ l) Hpow).
        pose proof (Z.div_pos val (2 ^ l) ltac:(lia) Hpow).
        pose proof (Z.mul_nonneg_nonneg (val / 2 ^ l) (2 ^ l) ltac:(lia) ltac:(lia)).
        lia. }
      rewrite wrap32_small by lia.
      rewrite Z.lor_comm, lor_disjoint by (try lia; apply Z.mod_pos_bound, Hpow).
      pose proof (Z.div_mod val (2 ^ l) ltac:(lia)). lia. }
    destruct rest as [|val' rest'].
    + cbn. rewrite Z.add_0_r. split; [f_equal; apply Hsame; reflexivity|reflexivity].
    + pose proof (Hzero 0%nat val eq_refl ltac:(cbn; lia)) as Hz.
      rewrite Hz, Z.add_0_l.
      destruct IH as [IH1 IH2].
      { intros j v Hj Hlt. apply (Hzero (S j) v Hj). cbn [length] in *. lia. }
      rewrite IH1, IH2. split; [f_equal; apply Hsame; symmetry; exact Hz|reflexivity].
Qed.

End EncodeDecodeMain.

(** X19.  What the Elias-Fano round trip returns.  For a valid sequence
    (strictly ascending, below the universe) whose accumulated high parts
    stay within the high vector, [Encode] returns bytes and decoding them
    returns the sequence with, in place of the high part of each element,
    the sum of the high parts of the elements up to it. *)
Theorem Decode_Encode_accumulates (e : EliasFano.EliasEncoder) (sequence : list Z) :
  0 <= EliasFano.universe e < 2 ^ 32 ->
  0 <= EliasFano.lowBits e < 32 ->
  EliasFano.count e = Z.of_nat (length sequence) -> 0 < EliasFano.count e ->
  EliasFano.count e * EliasFano.lowBits e + 63 < 2 ^ 32 ->
  EliasFano.count e + Z.shiftr (EliasFano.universe e) (EliasFano.lowBits e) + 1 + 63
  < 2 ^ 32 ->
  Forall (fun val => 0 <= val < EliasFano.universe e) sequence ->
  Sorted Z.lt sequence ->
  high_sum (EliasFano.lowBits e) sequence
  <= Z.shiftr (EliasFano.universe e) (EliasFano.lowBits e) + 1 ->
  exists bytes,
    EliasFano.Encode e sequence = Ok bytes
    /\ EliasFano.ef_decode bytes = Ok (accumulated (EliasFano.lowBits e) 0 sequence).
Proof. apply Decode_Encode_accumulated. Qed.

Lemma Decode_Encode_accumulates_witness :
  exists bytes,
    EliasFano.Encode (EliasFano.mkEncoder 8 3 0) [1; 3; 5] = Ok bytes
    /\ EliasFano.ef_decode bytes = Ok (accumulated 0 0 [1; 3; 5]).
Proof.
  refine (Decode_Encode_accumulates (EliasFano.mkEncoder 8 3 0) [1; 3; 5] _ _ _ _ _ _ _ _ _);
    cbn [EliasFano.universe EliasFano.count EliasFano.lowBits].
  - split; [lia|reflexivity].
  - lia.
  - reflexivity.
  - lia.
  - reflexivity.
  - reflexivity.
  - repeat (apply Forall_cons; split; [lia|]). apply Forall_nil_2.
  - repeat constructor.
  - vm_compute. discriminate.
Defined.

(** X20.  The Elias-Fano round trip holds when only the last element has a
    non-zero high part: for a valid sequence all of whose elements before
    the last are below [2^lowBits], decoding the encoder's bytes returns
    the sequence. *)
Theorem Decode_Encode_roundtrip (e : EliasFano.EliasEncoder) (sequence : list Z) :
  0 <= EliasFano.universe e < 2 ^ 32 ->
  0 <= EliasFano.lowBits e < 32 ->
  EliasFano.count e = Z.of_nat (length sequence) -> 0 < EliasFano.count e ->
  EliasFano.count e * EliasFano.lowBits e + 63 < 2 ^ 32 ->
  EliasFano.count e + Z.shiftr (EliasFano.universe e) (EliasFano.lowBits e) + 1 + 63
  < 2 ^ 32 ->
  Forall (fun val => 0 <= val < EliasFano.universe e) sequence ->
  Sorted Z.lt sequence ->
  (forall (j : nat) (val : Z),
     sequence !! j = Some val -> (S j < length sequence)%nat ->
     val < 2 ^ EliasFano.lowBits e) ->
  exists bytes,
    EliasFano.Encode e sequence = Ok bytes /\ EliasFano.ef_decode bytes = Ok sequence.
Proof.
  intros Hu Hl Hk Hk0 Hlow Hhigh Hvals Hsorted Hsmall.
  assert (Hzero : forall (j : nat) (val : Z),
             sequence !! j = Some val -> (S j < length sequence)%nat ->
             Z.shiftr val (EliasFano.lowBits e) = 0).
  { intros j val Hj Hlt. rewrite Z.shiftr_div_pow2 by lia.
    rewrite Forall_forall in Hvals.
    pose proof (Hvals val (list_elem_of_lookup_2 _ _ _ Hj)).
    apply Z.div_small. split; [lia|]. apply (Hsmall j val Hj Hlt). }
  destruct (accumulated_same (EliasFano.lowBits e) sequence Hl) as [Hacc Hsum].
  { eapply Forall_impl; [exact Hvals|]. cbn. intros; lia. }
  { exact Hzero. }
  destruct (Decode_Encode_accumulated e sequence) as (bytes & Henc & Hdec); try assumption.
  - rewrite Hsum.
    assert (Hlast : 0 <= default 0 (last sequence) <= EliasFano.universe e).
    { destruct (last sequence) as [v|] eqn:El; cbn; [|lia].
      rewrite Forall_forall in Hvals.
      apply last_Some_elem_of in El. pose proof (Hvals v El). lia. }
    rewrite !Z.shiftr_div_pow2 by lia.
    assert (Hpow : 0 < 2 ^ EliasFano.lowBits e) by (apply Z.pow_pos_nonneg; lia).
    pose proof (Z.div_le_mono _ _ (2 ^ EliasFano.lowBits e) Hpow (proj2 Hlast)). lia.
  - exists bytes. split; [exact Henc|]. rewrite Hdec, Hacc. reflexivity.
Qed.

Lemma Decode_Encode_roundtrip_witness :
  exists bytes,
    EliasFano.Encode (EliasFano.mkEncoder 10 3 1) [0; 1; 9] = Ok bytes
    /\ EliasFano.ef_decode bytes = Ok [0; 1; 9].
Proof.
  refine (Decode_Encode_roundtrip (EliasFano.mkEncoder 10 3 1) [0; 1; 9] _ _ _ _ _ _ _ _ _);
    cbn [EliasFano.universe EliasFano.count EliasFano.lowBits].
  - split; [lia|reflexivity].
  - lia.
  - reflexivity.
  - lia.
  - reflexivity.
  - reflexivity.
  - repeat (apply Forall_cons; split; [lia|]). apply Forall_nil_2.
  - repeat constructor.
  - intros [|[|[|j]]] val [= <-] Hlt; cbn in Hlt; try lia; reflexivity.
Defined.

(** ** A row without a reference *)

(** X21.  [decompressCell] on a row without a usable reference (negative,
    or past the matrix): when the index bytes decode to [indices] and the
    delta bytes are a DEFLATE stream of the varints of as many values, all
    in [0, 2^31), the row returned has exactly these indices and values,
    whatever the matrix holds. *)
Theorem decompressCell_without_reference (row : CompressedRow) (matrix : list SparseRow)
    (deltaEncoder : Delta.DeltaEncoder) (numGenes : Z) (indices values : list Z) :
  RefCell row < 0 \/ Z.of_nat (length matrix) <= RefCell row ->
  EliasFano.ef_decode (EliasGenes row) = Ok indices ->
  Flate.inflate (DeltaValues row) = Ok (concat (map Varint.writeVarint values)) ->
  Forall (fun v => 0 <= v < 2 ^ 31) values ->
  length values = length indices ->
  Decompressor.decompressCell row matrix deltaEncoder numGenes = Ok (mkRow indices values).
Proof.
  intros Href Hef Hinf Hvals Hlen.
  unfold Decompressor.decompressCell, Decompressor.decode_cell.
  destruct (decide (EliasGenes row = [])) as [E|_].
  { rewrite E in Hef. discriminate. }
  unfold EliasFano.ef_decode in Hef.
  destruct (EliasFano.NewEliasDecoder (EliasGenes row)) as [d|]; [|discriminate].
  cbn [mbind result_bind] in Hef. cbn [Decompressor.wrap_err mbind result_bind].
  rewrite Hef. cbn [Decompressor.wrap_err mbind result_bind].
  destruct (decide (DeltaValues row = [])) as [E|_].
  { rewrite E in Hinf. discriminate. }
  unfold Delta.DecompressDeltas.
  destruct (decide (DeltaValues row = [])) as [E|_].
  { rewrite E in Hinf. discriminate. }
  rewrite Hinf. cbn [mbind result_bind Decompressor.wrap_err].
  rewrite read_deltas_all.
  - assert (Hno : (0 <=? RefCell row) && (RefCell row <? Z.of_nat (length matrix)) = false).
    { destruct (Z.leb_spec 0 (RefCell row)), (Z.ltb_spec (RefCell row) (Z.of_nat (length matrix)));
        try reflexivity. lia. }
    rewrite Hno. destruct (decide (length values = length indices)); [|contradiction].
    cbn [mbind result_bind]. f_equal. unfold Decompressor.truncate. cbn [Indices Values].
    assert (Hclamp : map (fun delta => if delta <? 0 then 0 else delta) values = values).
    { clear -Hvals. induction Hvals as [|v vs Hv _ IH]; [reflexivity|].
      cbn [map]. rewrite IH. destruct (Z.ltb_spec v 0); [lia|reflexivity]. }
    rewrite Hclamp. destruct (decide (length indices = length values)); [reflexivity|].
    congruence.
  - eapply Forall_impl; [exact Hvals|]. cbn. intros v Hv. unfold is_i32. lia.
  - lia.
Qed.

Lemma decompressCell_without_reference_witness :
  Decompressor.decompressCell
    (mkCRow Scenario.ef_1_4 (Scenario.stored (concat (map Varint.writeVarint [2; 5])))
       (-1) 2 10)
    [] Scenario.lossless 10
  = Ok (mkRow [1; 4] [2; 5]).
Proof.
  refine (decompressCell_without_reference _ [] Scenario.lossless 10 [1; 4] [2; 5] _ _ _ _ _).
  - left. reflexivity.
  - vm_compute. reflexivity.
  - vm_compute. reflexivity.
  - repeat (apply Forall_cons; split; [split; [discriminate|reflexivity]|]).
    apply Forall_nil_2.
  - reflexivity.
Defined.
